(** * purple-vk-plugin: receiving, sending and buddy synchronisation

    A shallow embedding of the plugin's callback-driven code.  Each object
    that lives across callbacks (the message receiver, the image uploader,
    the sender) is a state machine: its state holds what the C++ object
    holds plus the request it is waiting for, an [event] is the reply the
    host event loop hands to a callback, and a step returns the new state
    with the calls the callback issued, in order.

    Texts are taken to hold no NUL character, so that a [string] and its
    [data()] are the same text.  The clock of [send_message_internal], the
    lines written with [purple_debug_info] and [vkcom_debug_info], and the
    error lines of [on_update_user_infos] and [on_update_user_info] are left
    out; the other error lines are among the calls. *)

From Stdlib Require Import Ascii.
From stdpp Require Import gmap strings list pretty sorting.

#[local] Set Warnings "-register-all".

Open Scope string_scope.
Open Scope list_scope.
Open Scope Z_scope.

(** ** Machine integers *)

(** [int] is 32 bits wide, [int64] and [uint64] are 64 bits wide.  Values
    are kept in [Z]; a conversion keeps the low bits. *)
Definition to_int (z : Z) : Z := (z + 2 ^ 31) `mod` 2 ^ 32 - 2 ^ 31.
Definition to_int64 (z : Z) : Z := (z + 2 ^ 63) `mod` 2 ^ 64 - 2 ^ 63.
Definition to_uint64 (z : Z) : Z := z `mod` 2 ^ 64.
Definition INT_MAX : Z := 2 ^ 31 - 1.

(** ** Strings *)

Definition dquote : string := String (Ascii.ascii_of_nat 34) EmptyString.

Definition empty (s : string) : bool :=
  match s with EmptyString => true | String _ _ => false end.

(** [s] contains [p] as a substring. *)
Fixpoint occurs (p s : string) : bool :=
  String.prefix p s ||
  match s with
  | EmptyString => false
  | String _ s' => occurs p s'
  end.

(** Modelled from the spec: [str_replace] of miscutils, which is not among
    the sources.  It substitutes [to] for the occurrences of [from] in [s],
    scanning from the left and resuming after each substituted text.
    [skip] counts the characters of a matched [from] still to be dropped. *)
Fixpoint str_replace_from (from to : string) (skip : nat) (s : string) : string :=
  match s with
  | EmptyString => EmptyString
  | String c s' =>
      match skip with
      | S k => str_replace_from from to k s'
      | O =>
          if String.prefix from s
          then to +:+ str_replace_from from to (Nat.pred (String.length from)) s'
          else String c (str_replace_from from to O s')
      end
  end.

Definition str_replace (s from to : string) : string :=
  str_replace_from from to O s.

(** [str_concat_int]: the integers of [c] printed as [long long] and
    joined by [sep]. *)
Definition str_concat_int (sep : string) (c : list Z) : string :=
  foldl (fun s it => (if empty s then s else s +:+ sep) +:+ pretty (to_int64 it))
        EmptyString c.

(** ** JSON values (picojson) *)

Module picojson.

(** A number is a double in picojson; the model keeps the numbers that are
    integers, which is what the API sends in the fields read here.  An
    object is an association list; the first binding of a key counts. *)
Inductive value : Type :=
  | null
  | boolean (b : bool)
  | number (d : Z)
  | str (s : string)
  | array (a : list value)
  | object (o : list (string * value)).

Fixpoint find (key : string) (o : list (string * value)) : option value :=
  match o with
  | [] => None
  | (k, v) :: o' => if String.eqb k key then Some v else find key o'
  end.

(** [v.contains(key)] followed by [v.get(key)], for [v] an object. *)
Definition field (v : value) (key : string) : option value :=
  match v with
  | object o => find key o
  | _ => None
  end.

(** Modelled from the spec: [field_is_present<T>(v, key)] of the plugin's
    common header, which is not among the sources: [v] is an object, has
    the key, and the value under it is a [T].  The four functions below
    give that value, and [None] where the test fails. *)
Definition field_double (v : value) (key : string) : option Z :=
  match field v key with Some (number d) => Some d | _ => None end.

Definition field_string (v : value) (key : string) : option string :=
  match field v key with Some (str s) => Some s | _ => None end.

Definition field_array (v : value) (key : string) : option (list value) :=
  match field v key with Some (array a) => Some a | _ => None end.

Definition field_object (v : value) (key : string) : option value :=
  match field v key with Some (object o) => Some (object o) | _ => None end.

End picojson.
Import picojson.

(** ** What the plugin takes from its host and from files not modelled *)

(** Parameters of [vk_call_api]. *)
Definition CallParams : Type := list (string * string).

(** Functions of libpurple, and helpers and constants of the plugin whose
    definitions are not among the sources. *)
Class Host : Type := {
  purple_markup_escape_text : string -> string;
  purple_markup_strip_html : string -> string;
  g_markup_escape_text : string -> string;
  buddy_name_from_uid : Z -> string;
  unescape_html : string -> string;
  max_urlencoded_prefix : string -> nat;
  parse_vkcom_attachments : string -> string;
  VK_CAPTCHA_NEEDED : Z;
}.

(** ** C++ standard library *)

Section StdSort.
Context {A : Type} (comp : A -> A -> bool).

(** [std::sort(first, last, comp)]: the elements in an order in which no
    element is [comp]-before an element that precedes it.  The standard
    leaves the order of equivalent elements open; this model keeps the
    one of an insertion from the right. *)
Fixpoint sort_insert (x : A) (l : list A) : list A :=
  match l with
  | [] => [x]
  | y :: l' => if comp y x then y :: sort_insert x l' else x :: l
  end.

Definition std_sort (l : list A) : list A := foldr sort_insert [] l.

End StdSort.

(** ** What a callback can do, and what it can be handed *)

Inductive PurpleMessageFlags : Type :=
  | PURPLE_MESSAGE_RECV
  | PURPLE_MESSAGE_ERROR_NO_LINKIFY.

(** The calls of a callback that leave the plugin.  [purple_debug_error]
    keeps the format and the JSON value printed with it, if any;
    [purple_conversation_write] is the write to the conversation found for
    the two ids, which is left out when there is none; [serv_got_im] keeps
    the time as the message has it. *)
Inductive action : Type :=
  | vk_call_api (method : string) (params : CallParams)
  | http_get (url : string)
  | serv_got_im (who msg : string) (flags : PurpleMessageFlags) (mtime : Z)
  | purple_debug_error (format : string) (arg : option value)
  | upload_photo_for_im (img_id : Z)
  | request_captcha (captcha_img : string)
  | purple_conversation_write (user_id chat_id : Z) (msg : string)
                              (flags : PurpleMessageFlags)
  | add_buddy_if_needed (user_id : Z)
  | call_received_cb
  | call_success_cb
  | call_error_cb.

(** The replies of the event loop.  [http_response (Some img_id)] is a
    successful response whose body the image store keeps under [img_id];
    [http_response None] is a failed one.  [upload_done] and
    [upload_failed] are the two callbacks of [upload_photo_for_im],
    [captcha_entered] and [captcha_cancelled] those of [request_captcha]. *)
Inductive event : Type :=
  | api_result (result : value)
  | api_error (error : value)
  | http_response (img_id : option Z)
  | upload_done (v : value)
  | upload_failed
  | captcha_entered (captcha_key : string)
  | captcha_cancelled.

(** A machine run on the replies it gets, in order: the last state and all
    calls issued on the way. *)
Fixpoint exec {S : Type} (step : S -> event -> S * list action)
    (s : S) (evs : list event) : S * list action :=
  match evs with
  | [] => (s, [])
  | ev :: evs' =>
      let '(s1, acts1) := step s ev in
      let '(s2, acts2) := exec step s1 evs' in
      (s2, acts1 ++ acts2)
  end.

(** [mark_message_as_read] of the receiving code. *)
Definition mark_message_as_read (message_ids : list Z) : list action :=
  if bool_decide (message_ids = []) then []
  else [vk_call_api "messages.markAsRead"
          [("message_ids", str_concat_int "," message_ids)]].

(** ** Receiving messages (vk-message-recv) *)

Module MessageRecv.

Record ReceivedMessage : Type := {
  uid : Z;
  mid : Z;
  text : string;
  timestamp : Z;
  (* Thumbnail URLs to download and substitute in the text. *)
  thumbnail_urls : list string;
}.

(** [message.text += s] *)
Definition append_text (s : string) (message : ReceivedMessage) : ReceivedMessage :=
  {| uid := uid message; mid := mid message; text := text message +:+ s;
     timestamp := timestamp message; thumbnail_urls := thumbnail_urls message |}.

(** [message.thumbnail_urls.push_back(url)] *)
Definition push_thumbnail (url : string) (message : ReceivedMessage) : ReceivedMessage :=
  {| uid := uid message; mid := mid message; text := text message;
     timestamp := timestamp message;
     thumbnail_urls := thumbnail_urls message ++ [url] |}.

Definition set_text (s : string) (message : ReceivedMessage) : ReceivedMessage :=
  {| uid := uid message; mid := mid message; text := s;
     timestamp := timestamp message; thumbnail_urls := thumbnail_urls message |}.

Definition strange_response (v : value) : action :=
  purple_debug_error
    "Strange response from messages.get or messages.getById: %s\n" (Some v).

(** [str_format("<a href='%s'>%s</a>", url, label)] *)
Definition a_href (url label : string) : string :=
  "<a href='" +:+ url +:+ "'>" +:+ label +:+ "</a>".

(** [str_format("<br><thumbnail-placeholder-%d>", message.thumbnail_urls.size())] *)
Definition br_placeholder (message : ReceivedMessage) : string :=
  "<br><thumbnail-placeholder-"
  +:+ pretty (to_int (Z.of_nat (length (thumbnail_urls message)))) +:+ ">".

(** The link of a photo attachment: a private photo (one that comes with an
    access key) has no page of its own, so the link goes to the biggest
    version of the photo that was sent. *)
Definition photo_url (fields : value) (owner_id id : Z) (thumbnail : string) : string :=
  match field_string fields "access_key" with
  | Some _ =>
      match field_string fields "photo_2560" with
      | Some u => u
      | None =>
          match field_string fields "photo_1280" with
          | Some u => u
          | None =>
              match field_string fields "photo_807" with
              | Some u => u
              | None => thumbnail
              end
          end
      end
  | None => "http://vk.com/photo" +:+ pretty owner_id +:+ "_" +:+ pretty id
  end.

Definition unknown_attachment : string :=
  String (Ascii.ascii_of_nat 10) "Unknown attachement type ".

(** The branches on [type] in the loop of [process_attachments], for the
    attachment [v] whose object under the key [type] is [fields]. *)
Definition process_attachment (type : string) (v fields : value)
    (message : ReceivedMessage) : ReceivedMessage * list action :=
  if String.eqb type "photo" then
    match field_double fields "id", field_double fields "owner_id",
          field_string fields "text", field_string fields "photo_604" with
    | Some id, Some owner_id, Some photo_text, Some thumbnail =>
        let id := to_uint64 id in
        let owner_id := to_int64 owner_id in
        let url := photo_url fields owner_id id thumbnail in
        let message :=
          if negb (empty photo_text)
          then append_text (a_href url photo_text) message
          else append_text (a_href url url) message in
        let message := append_text (br_placeholder message) message in
        (push_thumbnail thumbnail message, [])
    | _, _, _, _ => (message, [strange_response v])
    end
  else if String.eqb type "video" then
    match field_double fields "id", field_double fields "owner_id",
          field_string fields "title", field_string fields "photo_320" with
    | Some id, Some owner_id, Some title, Some thumbnail =>
        let id := to_uint64 id in
        let owner_id := to_int64 owner_id in
        let message :=
          append_text ("<a href='http://vk.com/video" +:+ pretty owner_id +:+ "_"
                       +:+ pretty id +:+ "'>" +:+ title +:+ "</a>") message in
        let message := append_text (br_placeholder message) message in
        (push_thumbnail thumbnail message, [])
    | _, _, _, _ => (message, [strange_response v])
    end
  else if String.eqb type "audio" then
    match field_string fields "url", field_string fields "artist",
          field_string fields "title" with
    | Some url, Some artist, Some title =>
        (append_text ("<a href='" +:+ url +:+ "'>" +:+ artist +:+ " - " +:+ title
                      +:+ "</a>") message, [])
    | _, _, _ => (message, [strange_response v])
    end
  else if String.eqb type "doc" then
    match field_string fields "url", field_string fields "title" with
    | Some url, Some title => (append_text (a_href url title) message, [])
    | _, _ => (message, [strange_response v])
    end
  else
    (append_text type (append_text unknown_attachment message),
     [strange_response v]).

(** Appends the attachments to the text of [message] and queues their
    thumbnails.  An attachment without a type, or without an object under
    the key its type names, ends the loop. *)
Fixpoint process_attachments (items : list value) (message : ReceivedMessage)
    : ReceivedMessage * list action :=
  match items with
  | [] => (message, [])
  | v :: items' =>
      match field_string v "type" with
      | None => (message, [strange_response v])
      | Some type =>
          match field_object v type with
          | None => (message, [strange_response v])
          | Some fields =>
              let message :=
                if negb (empty (text message))
                then append_text "<br>" message else message in
              let '(message, log1) := process_attachment type v fields message in
              let '(message, log2) := process_attachments items' message in
              (message, log1 ++ log2)
          end
      end
  end.

Section WithHost.
Context `{Host}.

(** The loop of [process_result] over the items of a page [result]. *)
Fixpoint process_items (result : value) (items : list value)
    (m_messages : list ReceivedMessage) : list ReceivedMessage * list action :=
  match items with
  | [] => (m_messages, [])
  | v :: items' =>
      match field_double v "user_id", field_double v "date",
            field_string v "body", field_double v "id" with
      | Some user_id, Some date, Some body, Some id =>
          let message :=
            {| uid := to_uint64 user_id; mid := to_uint64 id;
               text := purple_markup_escape_text body;
               timestamp := to_uint64 date; thumbnail_urls := [] |} in
          let '(message, log1) :=
            match field_array v "attachments" with
            | Some attachments => process_attachments attachments message
            | None => (message, [])
            end in
          let '(m_messages, log2) :=
            process_items result items' (m_messages ++ [message]) in
          (m_messages, log1 ++ log2)
      | _, _, _, _ =>
          let '(m_messages, log2) := process_items result items' m_messages in
          (m_messages, strange_response result :: log2)
      end
  end.

(** Processes the result of messages.get and messages.getById; returns the
    messages, the number of items of the page as an [int], and the log. *)
Definition process_result (result : value) (m_messages : list ReceivedMessage)
    : list ReceivedMessage * Z * list action :=
  match field_double result "count", field_array result "items" with
  | Some _, Some items =>
      let '(m_messages, log) := process_items result items m_messages in
      (m_messages, to_int (Z.of_nat (length items)), log)
  | _, _ => (m_messages, 0, [strange_response result])
  end.

(** What the receiver waits for. *)
Inductive pending : Type :=
  | wait_getById
  | wait_get (offset : Z)
  | wait_thumbnail (message thumbnail : nat)
  | deleted.

Record MessageReceiver : Type := {
  m_messages : list ReceivedMessage;
  m_received_cb : bool;   (* a callback was given *)
  waits : pending;
}.

(** Sorts the received messages, hands them to libpurple, marks them as
    read and destroys the receiver. *)
Definition finish (r : MessageReceiver) : MessageReceiver * list action :=
  let sorted :=
    std_sort (fun a b => timestamp a <? timestamp b) (m_messages r) in
  let message_ids := map mid sorted in
  ({| m_messages := sorted; m_received_cb := m_received_cb r; waits := deleted |},
   map (fun m => serv_got_im (buddy_name_from_uid (uid m)) (text m)
                   PURPLE_MESSAGE_RECV (timestamp m)) sorted
   ++ mark_message_as_read message_ids
   ++ (if m_received_cb r then [call_received_cb] else [])).

(** [download_thumbnail(message, thumbnail)] up to its [http_get]: the
    next thumbnail at or after the position, over [rest], the messages
    from index [message] on. *)
Fixpoint next_thumbnail (rest : list ReceivedMessage) (message thumbnail : nat)
    : option (nat * nat * string) :=
  match rest with
  | [] => None
  | m :: rest' =>
      match thumbnail_urls m !! thumbnail with
      | Some url => Some (message, thumbnail, url)
      | None => next_thumbnail rest' (S message) 0%nat
      end
  end.

Definition download_thumbnail (r : MessageReceiver) (message thumbnail : nat)
    : MessageReceiver * list action :=
  match next_thumbnail (drop message (m_messages r)) message thumbnail with
  | None => finish r
  | Some (message', thumbnail', url) =>
      ({| m_messages := m_messages r; m_received_cb := m_received_cb r;
          waits := wait_thumbnail message' thumbnail' |},
       [http_get url])
  end.

(** [run_unread(offset)]: the call of messages.get. *)
Definition run_unread_from (r : MessageReceiver) (offset : Z)
    : MessageReceiver * list action :=
  ({| m_messages := m_messages r; m_received_cb := m_received_cb r;
      waits := wait_get offset |},
   [vk_call_api "messages.get"
      [("out", "0"); ("filters", "1"); ("offset", pretty offset)]]).

Definition create (received_cb : bool) : MessageReceiver :=
  {| m_messages := []; m_received_cb := received_cb; waits := deleted |}.

(** [receive_unread_messages] *)
Definition run_unread (received_cb : bool) : MessageReceiver * list action :=
  run_unread_from (create received_cb) 0.

(** [receive_messages] *)
Definition run (message_ids : list Z) (received_cb : bool)
    : MessageReceiver * list action :=
  ({| m_messages := []; m_received_cb := received_cb; waits := wait_getById |},
   [vk_call_api "messages.getById"
      [("message_ids", str_concat_int "," message_ids)]]).

Definition img_tag (img_id : Z) : string :=
  "<img id=" +:+ dquote +:+ pretty img_id +:+ dquote +:+ ">".

Definition img_placeholder (thumbnail : nat) : string :=
  "<thumbnail-placeholder-" +:+ pretty (to_int (Z.of_nat thumbnail)) +:+ ">".

Definition with_messages (r : MessageReceiver) (ms : list ReceivedMessage)
    : MessageReceiver :=
  {| m_messages := ms; m_received_cb := m_received_cb r; waits := waits r |}.

(** The callbacks of the receiver.  A reply nothing waits for does not
    reach it. *)
Definition step (r : MessageReceiver) (ev : event) : MessageReceiver * list action :=
  match waits r, ev with
  | wait_getById, api_result result =>
      let '(ms, _, log) := process_result result (m_messages r) in
      let '(r', acts) := download_thumbnail (with_messages r ms) 0 0 in
      (r', log ++ acts)
  | wait_getById, api_error _ => finish r
  | wait_get offset, api_result result =>
      let '(ms, item_count, log) := process_result result (m_messages r) in
      let '(r', acts) :=
        if item_count =? 0
        then download_thumbnail (with_messages r ms) 0 0
        else run_unread_from (with_messages r ms) (to_int (offset + item_count)) in
      (r', log ++ acts)
  | wait_get _, api_error _ => finish r
  | wait_thumbnail message thumbnail, http_response None =>
      let '(r', acts) := download_thumbnail r message (S thumbnail) in
      (r', purple_debug_error "Unable to download thumbnail: %s\n" None :: acts)
  | wait_thumbnail message thumbnail, http_response (Some img_id) =>
      let ms :=
        alter (fun m => set_text (str_replace (text m) (img_placeholder thumbnail)
                                    (img_tag (to_int img_id))) m)
              message (m_messages r) in
      download_thumbnail (with_messages r ms) message (S thumbnail)
  | _, _ => (r, [])
  end.

End WithHost.
End MessageRecv.

(** ** The receiver of the earlier message code (second part of vk-buddy.cpp) *)

Module MessageLegacy.

Record ReceivedMessage : Type := {
  uid : Z;
  mid : Z;
  text : string;
  timestamp : Z;
}.

(** [mark_message_as_read] of this code: the call is made for any list. *)
Definition mark_message_as_read (message_ids : list Z) : list action :=
  [vk_call_api "messages.markAsRead"
     [("message_ids", str_concat_int "," message_ids)]].

Inductive pending : Type :=
  | wait_get (offset : Z)
  | deleted.

Record MessageReceiver : Type := {
  m_messages : list ReceivedMessage;
  m_finished_cb : bool;
  waits : pending;
}.

Definition strange_response (v : value) : action :=
  purple_debug_error "Strange response to messages.get: %s\n" (Some v).

Definition finish (r : MessageReceiver) : MessageReceiver * list action :=
  let sorted :=
    std_sort (fun a b => timestamp a <? timestamp b) (m_messages r) in
  let message_ids := map mid sorted in
  ({| m_messages := sorted; m_finished_cb := m_finished_cb r; waits := deleted |},
   map (fun m => serv_got_im ("id" +:+ pretty (to_uint64 (to_int64 (uid m))))
                   (text m) PURPLE_MESSAGE_RECV (timestamp m)) sorted
   ++ mark_message_as_read message_ids
   ++ (if m_finished_cb r then [call_received_cb] else [])).

(** The loop of [receive] over the items: the messages pushed, and [false]
    when the loop met an item that lacks a field, where it stops. *)
Fixpoint receive_items (items : list value) (m_messages : list ReceivedMessage)
    : list ReceivedMessage * bool :=
  match items with
  | [] => (m_messages, true)
  | v :: items' =>
      match field_double v "user_id", field_double v "date",
            field_string v "body", field_double v "id" with
      | Some user_id, Some date, Some body, Some id =>
          receive_items items'
            (m_messages ++ [{| uid := to_uint64 user_id; mid := to_uint64 id;
                               text := body; timestamp := to_uint64 date |}])
      | _, _, _, _ => (m_messages, false)
      end
  end.

Definition with_messages (r : MessageReceiver) (ms : list ReceivedMessage)
    : MessageReceiver :=
  {| m_messages := ms; m_finished_cb := m_finished_cb r; waits := waits r |}.

(** [receive(offset)]: the call of messages.get. *)
Definition receive (r : MessageReceiver) (offset : Z) : MessageReceiver * list action :=
  ({| m_messages := m_messages r; m_finished_cb := m_finished_cb r;
      waits := wait_get offset |},
   [vk_call_api "messages.get"
      [("out", "0"); ("filters", "1"); ("offset", pretty offset)]]).

(** [receive_unread_messages] *)
Definition run (finished_cb : bool) : MessageReceiver * list action :=
  receive {| m_messages := []; m_finished_cb := finished_cb; waits := deleted |} 0.

Definition step (r : MessageReceiver) (ev : event) : MessageReceiver * list action :=
  match waits r, ev with
  | wait_get offset, api_result result =>
      match field_double result "count", field_array result "items" with
      | Some _, Some items =>
          if bool_decide (items = []) then finish r
          else
            match receive_items items (m_messages r) with
            | (ms, true) =>
                receive (with_messages r ms)
                        (to_int (offset + Z.of_nat (length items)))
            | (ms, false) =>
                let '(r', acts) := finish (with_messages r ms) in
                (r', strange_response result :: acts)
            end
      | _, _ =>
          let '(r', acts) := finish r in
          (r', strange_response result :: acts)
      end
  | wait_get _, api_error _ => finish r
  | _, _ => (r, [])
  end.

End MessageLegacy.

(** ** Sending messages (vk-message-send) *)

Module MessageSend.

(** *** Image references in the text *)

Definition is_digit (c : ascii) : bool :=
  let n := nat_of_ascii c in (48 <=? n)%nat && (n <=? 57)%nat.

(** The letters A to Z in lower case, other characters as they are. *)
Definition to_lower (c : ascii) : ascii :=
  let n := nat_of_ascii c in
  if (65 <=? n)%nat && (n <=? 90)%nat then ascii_of_nat (n + 32) else c.

(** The text after the prefix [p] of [s], compared without regard to case. *)
Fixpoint after_prefix (p s : string) : option string :=
  match p, s with
  | EmptyString, _ => Some s
  | String a p', String b s' =>
      if Ascii.eqb (to_lower a) (to_lower b) then after_prefix p' s' else None
  | String _ _, EmptyString => None
  end.

(** The longest run of digits at the head of [s], and the text after it. *)
Fixpoint span_digits (s : string) : string * string :=
  match s with
  | String c s' =>
      if is_digit c
      then let '(ds, rest) := span_digits s' in (String c ds, rest)
      else (EmptyString, s)
  | EmptyString => (EmptyString, EmptyString)
  end.

(** A match of the pattern [<img id="(?<id>\d+)">] at the head of [s],
    compiled with G_REGEX_CASELESS: the digits and the text after the tag. *)
Definition match_img (s : string) : option (string * string) :=
  match after_prefix ("<img id=" +:+ dquote) s with
  | None => None
  | Some rest =>
      let '(ds, rest) := span_digits rest in
      if empty ds then None
      else
        match after_prefix (dquote +:+ ">") rest with
        | None => None
        | Some rest => Some (ds, rest)
        end
  end.

(** [atoi] on a run of digits. *)
Definition atoi (ds : string) : Z :=
  to_int (foldl (fun n c => 10 * n + (Z.of_nat (nat_of_ascii c) - 48)) 0
                (String.list_ascii_of_string ds)).

(** The matches of the pattern in [s] from the left, none overlapping the
    one before: the ids, and the text without the tags.  [skip] counts the
    characters of a match still to be dropped. *)
Fixpoint scan_img_tags (skip : nat) (s : string) : list Z * string :=
  match s with
  | EmptyString => ([], EmptyString)
  | String c s' =>
      match skip with
      | S k => scan_img_tags k s'
      | O =>
          match match_img s with
          | Some (ds, rest) =>
              let '(ids, clean) :=
                scan_img_tags (String.length s' - String.length rest) s' in
              (atoi ds :: ids, clean)
          | None =>
              let '(ids, clean) := scan_img_tags O s' in
              (ids, String c clean)
          end
      end
  end.

(** Takes the [<img id="X">] out of [message]: the cleaned message and the
    list of img ids. *)
Definition remove_img_tags (message : string) : string * list Z :=
  let '(ids, clean) := scan_img_tags O message in (clean, ids).

(** *** The message and the upload of its images *)

Record SendMessage : Type := {
  (* One and only one of user_id or chat_id should be non-zero. *)
  user_id : Z;
  chat_id : Z;
  text : string;
  attachments : string;
  success_cb : bool;
  error_cb : bool;
}.

Record UploadImgstoreImages : Type := {
  (* All img ids to upload. *)
  img_ids : list Z;
  (* Attachments created from the img ids uploaded so far. *)
  uploaded : string;
}.

Inductive pending : Type :=
  | wait_upload (images : UploadImgstoreImages) (offset : Z)
  | wait_send (captcha_sid captcha_key : string) (text_len : nat)
  | wait_captcha (captcha_sid : string)
  | done.

Record Sender : Type := {
  message : SendMessage;
  sent_msg_ids : gset Z;
  waits : pending;
}.

Definition with_text (s : string) (m : SendMessage) : SendMessage :=
  {| user_id := user_id m; chat_id := chat_id m; text := s;
     attachments := attachments m; success_cb := success_cb m;
     error_cb := error_cb m |}.

Definition with_attachments (s : string) (m : SendMessage) : SendMessage :=
  {| user_id := user_id m; chat_id := chat_id m; text := text m;
     attachments := s; success_cb := success_cb m; error_cb := error_cb m |}.

Section WithHost.
Context `{Host}.

(** Adds the error to the debug log and the message window and calls
    [error_cb]. *)
Definition show_error (s : Sender) : Sender * list action :=
  let m := message s in
  ({| message := m; sent_msg_ids := sent_msg_ids s; waits := done |},
   [purple_debug_error "Error sending message to %llu/%llu\n" None;
    purple_conversation_write (user_id m) (chat_id m)
      ("Error sending message '" +:+ g_markup_escape_text (text m) +:+ "'")
      PURPLE_MESSAGE_ERROR_NO_LINKIFY]
   ++ (if error_cb m then [call_error_cb] else [])).

(** The parameters of messages.send for [m]. *)
Definition send_params (m : SendMessage) (captcha_sid captcha_key : string)
    : CallParams :=
  let text_len := max_urlencoded_prefix (text m) in
  [("attachment", attachments m); ("type", "1")]
  ++ [("message",
       if (text_len =? String.length (text m))%nat then text m
       else String.substring 0 text_len (text m))]
  ++ [if negb (user_id m =? 0) then ("user_id", pretty (user_id m))
      else ("chat_id", pretty (chat_id m))]
  ++ (if negb (empty captcha_sid) then [("captcha_sid", captcha_sid)] else [])
  ++ (if negb (empty captcha_key) then [("captcha_key", captcha_key)] else []).

Definition send_message_internal (s : Sender) (captcha_sid captcha_key : string)
    : Sender * list action :=
  ({| message := message s; sent_msg_ids := sent_msg_ids s;
      waits := wait_send captcha_sid captcha_key
                 (max_urlencoded_prefix (text (message s))) |},
   [vk_call_api "messages.send" (send_params (message s) captcha_sid captcha_key)]).

(** Processes the error of messages.send.  The only error which is
    meaningfully processed is the CAPTCHA request. *)
Definition process_im_error (error : value) (s : Sender) : Sender * list action :=
  match field_double error "error_code" with
  | None => show_error s
  | Some error_code =>
      if negb (to_int error_code =? VK_CAPTCHA_NEEDED) then show_error s
      else
        match field_string error "captcha_sid", field_string error "captcha_img" with
        | Some captcha_sid, Some captcha_img =>
            ({| message := message s; sent_msg_ids := sent_msg_ids s;
                waits := wait_captcha captcha_sid |},
             [request_captcha captcha_img])
        | _, _ =>
            let '(s', acts) := show_error s in
            (s', purple_debug_error
                   "Captcha request does not contain captcha_sid or captcha_img"
                   None :: acts)
        end
  end.

(** The img id uploaded at [offset]: the upload starts from the end. *)
Definition img_at (images : UploadImgstoreImages) (offset : Z) : Z :=
  img_ids images
    !!! Z.to_nat (Z.of_nat (length (img_ids images)) - offset - 1).

Definition upload_imgstore_images_impl (s : Sender) (images : UploadImgstoreImages)
    (offset : Z) : Sender * list action :=
  ({| message := message s; sent_msg_ids := sent_msg_ids s;
      waits := wait_upload images offset |},
   [upload_photo_for_im (img_at images offset)]).

(** The callback of [send_message] for the uploaded images. *)
Definition images_uploaded (s : Sender) (img_attachments : string)
    : Sender * list action :=
  let m := message s in
  let m := with_attachments (parse_vkcom_attachments (text m)) m in
  let m :=
    if negb (empty img_attachments)
    then with_attachments
           ((if negb (empty (attachments m)) then attachments m +:+ ","
             else attachments m) +:+ img_attachments) m
    else m in
  send_message_internal
    {| message := m; sent_msg_ids := sent_msg_ids s; waits := waits s |}
    EmptyString EmptyString.

Definition upload_imgstore_images (s : Sender) (img_ids : list Z)
    : Sender * list action :=
  if bool_decide (img_ids = []) then images_uploaded s EmptyString
  else upload_imgstore_images_impl s {| img_ids := img_ids; uploaded := EmptyString |} 0.

Definition unknown_save_result (v : value) : action :=
  purple_debug_error "Unknown photos.saveMessagesPhoto result: %s\n" (Some v).

(** The success callback of [upload_photo_for_im] in
    [upload_imgstore_images_impl]. *)
Definition photo_uploaded (s : Sender) (images : UploadImgstoreImages)
    (offset : Z) (v : value) : Sender * list action :=
  match v with
  | array (fields :: _) =>
      match field_double fields "owner_id", field_double fields "id" with
      | Some owner_id, Some id =>
          let attachments :=
            (if negb (empty (uploaded images)) then uploaded images +:+ ","
             else uploaded images)
            +:+ "photo" +:+ pretty (to_int64 owner_id) +:+ "_"
            +:+ pretty (to_uint64 id) in
          let images := {| img_ids := img_ids images; uploaded := attachments |} in
          if offset =? Z.of_nat (length (img_ids images)) - 1
          then images_uploaded s attachments
          else upload_imgstore_images_impl s images (to_int (offset + 1))
      | _, _ =>
          let '(s', acts) := show_error s in (s', unknown_save_result v :: acts)
      end
  | _ => let '(s', acts) := show_error s in (s', unknown_save_result v :: acts)
  end.

(** Common function of [send_im_message] and [send_chat_message]. *)
Definition send_message (user_id chat_id : Z) (raw_message : string)
    (success_cb error_cb : bool) : Sender * list action :=
  let '(no_imgs_message, img_ids) := remove_img_tags raw_message in
  let m :=
    {| user_id := user_id; chat_id := chat_id;
       text := purple_markup_strip_html no_imgs_message;
       attachments := EmptyString;
       success_cb := success_cb; error_cb := error_cb |} in
  let '(s, acts) :=
    upload_imgstore_images
      {| message := m; sent_msg_ids := ∅; waits := done |} img_ids in
  (s, acts ++ (if negb (user_id =? 0) then [add_buddy_if_needed user_id] else [])).

Definition send_im_message (user_id : Z) (raw_message : string)
    (success_cb error_cb : bool) : Sender * list action :=
  send_message user_id 0 raw_message success_cb error_cb.

Definition send_chat_message (chat_id : Z) (raw_message : string)
    (success_cb error_cb : bool) : Sender * list action :=
  send_message 0 chat_id raw_message success_cb error_cb.

(** The callbacks of the uploader and of the sender. *)
Definition step (s : Sender) (ev : event) : Sender * list action :=
  match waits s, ev with
  | wait_upload images offset, upload_done v => photo_uploaded s images offset v
  | wait_upload _ _, upload_failed => show_error s
  | wait_send captcha_sid captcha_key text_len, api_result v =>
      match v with
      | number msg_id =>
          let s :=
            {| message := message s;
               sent_msg_ids := {[to_uint64 msg_id]} ∪ sent_msg_ids s;
               waits := waits s |} in
          if (text_len =? String.length (text (message s)))%nat
          then ({| message := message s; sent_msg_ids := sent_msg_ids s;
                   waits := done |},
                if success_cb (message s) then [call_success_cb] else [])
          else
            (* Send the next part of the message. *)
            let rest :=
              String.substring text_len (String.length (text (message s)) - text_len)
                        (text (message s)) in
            send_message_internal
              {| message := with_text rest (message s);
                 sent_msg_ids := sent_msg_ids s; waits := waits s |}
              captcha_sid captcha_key
      | _ =>
          let '(s', acts) := show_error s in
          (s', purple_debug_error "Wrong response from message.send: %s\n" (Some v)
               :: acts)
      end
  | wait_send _ _ _, api_error error => process_im_error error s
  | wait_captcha captcha_sid, captcha_entered captcha_key =>
      send_message_internal s captcha_sid captcha_key
  | wait_captcha _, captcha_cancelled => show_error s
  | _, _ => (s, [])
  end.

End WithHost.
End MessageSend.

(** ** Buddies (vk-buddy) *)

Module Buddy.

(** What the plugin keeps about a user. *)
Record VkUserInfo : Type := {
  name : string;
  can_write : bool;
  photo_min : string;
  photo_max : string;
  activity : string;
  bdate : string;
  education : string;
  mobile_phone : string;
  domain : string;
  online : bool;
  is_mobile : bool;
  last_seen : Z;
}.

(** A call either returns or ends in the exception picojson throws when a
    value is read as a type it does not have. *)
Inductive outcome (A : Type) : Type :=
  | returns (a : A)
  | throws.
Arguments returns {A} a.
Arguments throws {A}.

(** [v.get(key)]: the value under [key], [null] when the object has none;
    [v] has to be an object. *)
Definition get (v : value) (key : string) : outcome value :=
  match v with
  | object o => returns (default null (find key o))
  | _ => throws
  end.

(** [v.get<double>()] *)
Definition get_double (v : value) : outcome Z :=
  match v with
  | number d => returns d
  | _ => throws
  end.

(** [sprintf(buf, "%02d", n)] for [n] that is not negative. *)
Definition two_digits (n : Z) : string :=
  if n <? 10 then "0" +:+ pretty n else pretty n.

Section WithHost.
Context `{Host}.
(* A [VkUserInfo] as its constructor leaves it. *)
Variable new_info : VkUserInfo.

(** Creates a single string from the fields that describe education. *)
Definition make_education_string (v : value) : string :=
  match field_string v "university_name" with
  | None => EmptyString
  | Some university_name =>
      if empty university_name then university_name
      else
        let ret :=
          match field_string v "faculty_name" with
          | Some faculty_name => faculty_name +:+ ", " +:+ university_name
          | None => university_name
          end in
        match field_double v "graduation" with
        | None => ret
        | Some d =>
            let graduation := to_int d in
            if negb (graduation =? 0) then
              (* Strip '20' from the graduation year. *)
              if 2000 <=? graduation
              then ret +:+ " " +:+ "'" +:+ two_digits (Z.rem graduation 100)
              else ret +:+ " " +:+ pretty graduation
            else ret
        end
  end.

Definition or_empty (o : option string) : string := default EmptyString o.

Definition empty_photo_a : string := "http://vkontakte.ru/images/camera_a.gif".
Definition empty_photo_b : string := "http://vkontakte.ru/images/camera_b.gif".

(** Updates the user info about a buddy and returns the buddy uid, or zero
    in case of failure. *)
Definition on_update_user_info (user_infos : gmap Z VkUserInfo) (fields : value)
    : gmap Z VkUserInfo * outcome Z :=
  match field_double fields "id", field_string fields "first_name",
        field_string fields "last_name" with
  | Some id, Some first_name, Some last_name =>
      let uid := to_uint64 id in
      let info := default new_info (user_infos !! uid) in
      let info_name := first_name +:+ " " +:+ last_name in
      let named :=
        {| name := info_name; can_write := can_write info;
           photo_min := photo_min info; photo_max := photo_max info;
           activity := activity info; bdate := bdate info;
           education := education info; mobile_phone := mobile_phone info;
           domain := domain info; online := online info;
           is_mobile := is_mobile info; last_seen := last_seen info |} in
      let refused :=
        {| name := info_name; can_write := false;
           photo_min := photo_min info; photo_max := photo_max info;
           activity := activity info; bdate := bdate info;
           education := education info; mobile_phone := mobile_phone info;
           domain := domain info; online := online info;
           is_mobile := is_mobile info; last_seen := last_seen info |} in
      (* We cannot write private messages, we have zero interest in user. *)
      match field_string fields "deactivated" with
      | Some _ => (<[uid := refused]> user_infos, returns 0)
      | None =>
          match get fields "can_write_private_message" with
          | throws => (<[uid := named]> user_infos, throws)
          | returns cw =>
              match get_double cw with
              | throws => (<[uid := named]> user_infos, throws)
              | returns can_write_private_message =>
                  if negb (can_write_private_message =? 1)
                  then (<[uid := refused]> user_infos, returns 0)
                  else
                    let photo :=
                      match field_string fields "photo_50" with
                      | Some p =>
                          if String.eqb p empty_photo_a || String.eqb p empty_photo_b
                          then EmptyString else p
                      | None => photo_min info
                      end in
                    let updated (seen : Z) :=
                      {| name := info_name; can_write := can_write info;
                         photo_min := photo;
                         photo_max := or_empty (field_string fields "photo_max_orig");
                         activity :=
                           or_empty (unescape_html <$> field_string fields "activity");
                         bdate :=
                           or_empty (unescape_html <$> field_string fields "bdate");
                         education := unescape_html (make_education_string fields);
                         mobile_phone :=
                           or_empty (unescape_html <$> field_string fields "mobile_phone");
                         domain := or_empty (field_string fields "domain");
                         online :=
                           match field_double fields "online" with
                           | Some d => d =? 1
                           | None => false
                           end;
                         is_mobile :=
                           bool_decide (is_Some (field_double fields "online_mobile"));
                         last_seen := seen |} in
                    match get fields "last_seen" with
                    | throws => (<[uid := updated (last_seen info)]> user_infos, throws)
                    | returns ls =>
                        match get ls "time" with
                        | throws =>
                            (<[uid := updated (last_seen info)]> user_infos, throws)
                        | returns t =>
                            match get_double t with
                            | throws =>
                                (<[uid := updated (last_seen info)]> user_infos, throws)
                            | returns seen =>
                                (<[uid := updated (to_int64 seen)]> user_infos,
                                 returns uid)
                            end
                        end
                    end
              end
          end
      end
  | _, _, _ => (user_infos, returns 0)
  end.

(** The loop of [on_update_user_infos]: adds or updates the buddies of
    [items] and forms the active set of buddy uids. *)
Fixpoint update_items (user_infos : gmap Z VkUserInfo) (items : list value)
    (buddy_uids : gset Z) : gmap Z VkUserInfo * outcome (gset Z) :=
  match items with
  | [] => (user_infos, returns buddy_uids)
  | v :: items' =>
      match v with
      | object _ =>
          match on_update_user_info user_infos v with
          | (user_infos, returns uid) =>
              update_items user_infos items'
                (if negb (uid =? 0) then {[uid]} ∪ buddy_uids else buddy_uids)
          | (user_infos, throws) => (user_infos, throws)
          end
      | _ => update_items user_infos items' buddy_uids
      end
  end.

(** The callback of friends.get ([friends_get] is true) and of users.get:
    adds or updates the infos of the users in [result] and returns the
    set of their uids. *)
Definition on_update_user_infos (user_infos : gmap Z VkUserInfo) (result : value)
    (friends_get : bool) : gmap Z VkUserInfo * outcome (gset Z) :=
  match (if friends_get then
           match result with
           | object _ => get result "items"
           | _ => returns null
           end
         else returns result) with
  | returns (array items) => update_items user_infos items ∅
  | returns _ => (user_infos, returns ∅)
  | throws => (user_infos, throws)
  end.

End WithHost.
End Buddy.

(** ** Hosts for the examples *)

(** Texts without markup and short enough for one call; the code of the
    "captcha needed" error is the one of the VK API. *)
Definition plain_host : Host := {|
  purple_markup_escape_text := fun s => s;
  purple_markup_strip_html := fun s => s;
  g_markup_escape_text := fun s => s;
  buddy_name_from_uid := fun uid => "id" +:+ pretty uid;
  unescape_html := fun s => s;
  max_urlencoded_prefix := fun s => String.length s;
  parse_vkcom_attachments := fun _ => EmptyString;
  VK_CAPTCHA_NEEDED := 14;
|}.

(** The same, with calls that take three characters of text at most. *)
Definition short_host : Host := {|
  purple_markup_escape_text := fun s => s;
  purple_markup_strip_html := fun s => s;
  g_markup_escape_text := fun s => s;
  buddy_name_from_uid := fun uid => "id" +:+ pretty uid;
  unescape_html := fun s => s;
  max_urlencoded_prefix := fun s => Nat.min 3 (String.length s);
  parse_vkcom_attachments := fun _ => EmptyString;
  VK_CAPTCHA_NEEDED := 14;
|}.

(** ** What a run shows to the host and to the server *)

(** The messages handed to libpurple, in order: who, text and time. *)
Definition deliveries (acts : list action) : list (string * string * Z) :=
  omap (fun a => match a with
                 | serv_got_im who msg _ mtime => Some (who, msg, mtime)
                 | _ => None
                 end) acts.

Definition delivered_times (acts : list action) : list Z :=
  (fun d => d.2) <$> deliveries acts.

(** The parameters of the calls of the API method [method], in order. *)
Definition api_calls (method : string) (acts : list action) : list CallParams :=
  omap (fun a => match a with
                 | vk_call_api m params =>
                     if String.eqb m method then Some params else None
                 | _ => None
                 end) acts.

(** Of any two elements the earlier one is the smaller or equal one. *)
Definition ascending (ts : list Z) : Prop :=
  forall (i j : nat) (a b : Z),
    (i < j)%nat -> ts !! i = Some a -> ts !! j = Some b -> a <= b.

(** Neither a delivery nor a call of messages.markAsRead. *)
Definition quiet (a : action) : bool :=
  match a with
  | serv_got_im _ _ _ _ => false
  | vk_call_api m _ => negb (String.eqb m "messages.markAsRead")
  | _ => true
  end.

(** ** Data for the examples *)

Module Examples.

(** A photo attachment, with the fields [more] besides the required ones. *)
Definition photo_fields (more : list (string * value)) : value :=
  object ([("id", number 7); ("owner_id", number (-3));
           ("text", str EmptyString);
           ("photo_604", str "http://t/604.jpg")] ++ more).

Definition photo (more : list (string * value)) : value :=
  object [("type", str "photo"); ("photo", photo_fields more)].

Definition doc : value :=
  object [("type", str "doc");
          ("doc", object [("url", str "http://t/d.pdf"); ("title", str "d.pdf")])].

(** An item of a page of messages. *)
Definition item (user_id date id : Z) (body : string) (attachments : list value)
    : value :=
  object [("user_id", number user_id); ("date", number date);
          ("body", str body); ("id", number id);
          ("attachments", array attachments)].

(** An item without its date. *)
Definition item_without_date (user_id id : Z) (body : string) : value :=
  object [("user_id", number user_id); ("body", str body); ("id", number id)].

Definition page (count : Z) (items : list value) : value :=
  object [("count", number count); ("items", array items)].

(** A page that comes without its count. *)
Definition page_without_count (items : list value) : value :=
  object [("items", array items)].

(** A user item of friends.get or users.get. *)
Definition user (id can_write_private_message : Z) : value :=
  object [("id", number id); ("first_name", str "Ada"); ("last_name", str "B");
          ("can_write_private_message", number can_write_private_message);
          ("last_seen", object [("time", number 1000)])].

Definition new_info : Buddy.VkUserInfo :=
  {| Buddy.name := EmptyString; Buddy.can_write := true;
     Buddy.photo_min := EmptyString; Buddy.photo_max := EmptyString;
     Buddy.activity := EmptyString; Buddy.bdate := EmptyString;
     Buddy.education := EmptyString; Buddy.mobile_phone := EmptyString;
     Buddy.domain := EmptyString; Buddy.online := false;
     Buddy.is_mobile := false; Buddy.last_seen := 0 |}.

(** A text with two images: [a<img id="1">b<IMG ID="22">]. *)
Definition two_images : string :=
  "a<img id=" +:+ dquote +:+ "1" +:+ dquote +:+ ">b<IMG ID=" +:+ dquote
  +:+ "22" +:+ dquote +:+ ">".

(** The reply of the upload of a photo saved as [photo<owner_id>_<id>]. *)
Definition saved (owner_id id : Z) : value :=
  array [object [("owner_id", number owner_id); ("id", number id)]].

End Examples.

(** ** The words of the statements *)

(** Only [purple_debug_error] lines. *)
Definition is_log (a : action) : bool :=
  match a with purple_debug_error _ _ => true | _ => false end.

(** A reply that reports no failure. *)
Definition succeeds (ev : event) : bool :=
  match ev with
  | api_error _ | http_response None | upload_failed | captcha_cancelled => false
  | _ => true
  end.

(** *** Items and attachments *)

(** The item has the four fields a message is read from. *)
Definition well_formed (v : value) : bool :=
  bool_decide (is_Some (field_double v "user_id"))
  && bool_decide (is_Some (field_double v "date"))
  && bool_decide (is_Some (field_string v "body"))
  && bool_decide (is_Some (field_double v "id")).

(** What [process_attachments] puts before an attachment. *)
Definition separated (message : MessageRecv.ReceivedMessage)
    : MessageRecv.ReceivedMessage :=
  if negb (empty (MessageRecv.text message))
  then MessageRecv.append_text "<br>" message else message.

(** The types of attachment [process_attachments] knows. *)
Definition known_type (type : string) : bool :=
  String.eqb type "photo" || String.eqb type "video"
  || String.eqb type "audio" || String.eqb type "doc".

(** *** Placeholders *)

(** The character [c] is in [s]. *)
Fixpoint has (c : ascii) (s : string) : bool :=
  match s with
  | EmptyString => false
  | String a s' => Ascii.eqb a c || has c s'
  end.

(** A text of the form [<body>] with neither [<] nor [>] in the body. *)
Definition tag (x : string) : Prop :=
  exists body,
    x = String "<" (body +:+ ">")
    /\ has "<" body = false /\ has ">" body = false.

(** The text of [m] has none of the placeholders of the thumbnails before
    the [k]-th. *)
Definition resolved_upto (m : MessageRecv.ReceivedMessage) (k : nat) : Prop :=
  forall t : nat,
    (t < k)%nat ->
    occurs (MessageRecv.img_placeholder t) (MessageRecv.text m) = false.

(** The text of [m] has none of the placeholders of its thumbnails. *)
Definition resolved (m : MessageRecv.ReceivedMessage) : Prop :=
  resolved_upto m (length (MessageRecv.thumbnail_urls m)).

(** While the thumbnails are fetched, the messages before the one at work
    are resolved and so are its thumbnails before the one at work; a
    receiver that has finished holds resolved messages only. *)
Definition thumbnails_inv (r : MessageRecv.MessageReceiver) : Prop :=
  match MessageRecv.waits r with
  | MessageRecv.wait_thumbnail message thumbnail =>
      (forall j m, (j < message)%nat ->
                   MessageRecv.m_messages r !! j = Some m -> resolved m)
      /\ (forall m, MessageRecv.m_messages r !! message = Some m ->
                    resolved_upto m thumbnail)
  | MessageRecv.deleted => Forall resolved (MessageRecv.m_messages r)
  | _ => True
  end.

(** *** Runs of the receivers *)

Section Shapes.
Context `{Host}.

(** The calls of a callback, or of a run, from the state [r] to the state
    [r']: lines that are neither deliveries nor mark-read calls, then
    possibly those of [finish], which ends the receiver; nothing else
    ends it. *)
Definition ends_quietly_or_finishes (r r' : MessageRecv.MessageReceiver)
    (acts : list action) : Prop :=
  exists pre fin,
    acts = pre ++ fin /\ Forall (fun a => quiet a = true) pre /\
    ((fin = [] /\
      (MessageRecv.waits r' = MessageRecv.deleted ->
       MessageRecv.waits r = MessageRecv.deleted))
     \/ exists rx, fin = (MessageRecv.finish rx).2 /\ r' = (MessageRecv.finish rx).1).

End Shapes.

(** The same for the earlier receiver. *)
Definition legacy_ends_quietly_or_finishes (r' : MessageLegacy.MessageReceiver)
    (acts : list action) : Prop :=
  exists pre fin,
    acts = pre ++ fin /\ Forall (fun a => quiet a = true) pre /\
    (fin = [] \/ exists rx, fin = (MessageLegacy.finish rx).2
                            /\ MessageLegacy.waits r' = MessageLegacy.deleted).

(** *** Buddies *)

(** A user the plugin cannot write to: the item carries a deactivated
    field, or its can_write_private_message field is a number other
    than 1. *)
Definition refused (fields : value) : Prop :=
  is_Some (field_string fields "deactivated")
  \/ exists d, field_double fields "can_write_private_message" = Some d /\ d <> 1.

(** *** Sending *)

(** The two CAPTCHA parameters of messages.send; an empty one is left out. *)
Definition captcha_params (captcha_sid captcha_key : string) : CallParams :=
  (if negb (empty captcha_sid) then [("captcha_sid", captcha_sid)] else [])
  ++ (if negb (empty captcha_key) then [("captcha_key", captcha_key)] else []).

(** The img ids handed to [upload_photo_for_im], in order. *)
Definition uploads (acts : list action) : list Z :=
  omap (fun a => match a with
                 | upload_photo_for_im img_id => Some img_id
                 | _ => None
                 end) acts.

(** The attachment of a saved photo. *)
Definition photo_attachment (p : Z * Z) : string :=
  "photo" +:+ pretty (to_int64 p.1) +:+ "_" +:+ pretty (to_uint64 p.2).

(** [acc] with [s] after it, and a comma in between unless [acc] is empty. *)
Definition add_attachment (acc s : string) : string :=
  (if negb (empty acc) then acc +:+ "," else acc) +:+ s.

Definition join_attachments (acc : string) (l : list string) : string :=
  foldl add_attachment acc l.

(** The reply [v] of the upload is a saved photo with owner and id [p]. *)
Definition saves (v : value) (p : Z * Z) : Prop :=
  exists fields rest,
    v = array (fields :: rest)
    /\ field_double fields "owner_id" = Some p.1
    /\ field_double fields "id" = Some p.2.

(** The value of the parameter [key]. *)
Fixpoint param (key : string) (params : CallParams) : option string :=
  match params with
  | [] => None
  | (k, v) :: params' => if String.eqb k key then Some v else param key params'
  end.

(** The texts handed to messages.send, in order. *)
Definition sent_texts (acts : list action) : list string :=
  omap (param "message") (api_calls "messages.send" acts).

Definition concat_texts (l : list string) : string :=
  foldr String.app EmptyString l.

Section Images.
Context `{Host}.

(** The message as [images_uploaded] leaves it. *)
Definition with_images (m : MessageSend.SendMessage) (img_attachments : string)
    : MessageSend.SendMessage :=
  let parsed := parse_vkcom_attachments (MessageSend.text m) in
  MessageSend.with_attachments
    (if negb (empty img_attachments)
     then add_attachment parsed img_attachments else parsed) m.

End Images.

(** *** Printed numbers *)

(** Only the characters 0 to 9. *)
Fixpoint all_digits (s : string) : bool :=
  match s with
  | EmptyString => true
  | String c s' => MessageSend.is_digit c && all_digits s'
  end.

(** The number the digits of [s] spell after those that made [acc]: the
    sum in [MessageSend.atoi]. *)
Definition digits_value (acc : Z) (s : string) : Z :=
  foldl (fun n c => 10 * n + (Z.of_nat (nat_of_ascii c) - 48)) acc
        (String.list_ascii_of_string s).

(** *** Callbacks *)

(** One of the callbacks given by the caller. *)
Definition is_callback (a : action) : bool :=
  match a with
  | call_received_cb | call_success_cb | call_error_cb => true
  | _ => false
  end.

(** The calls [acts] hold one callback at most, and nothing after it. *)
Definition calls_back_last (acts : list action) : Prop :=
  Forall (fun a => is_callback a = false) acts
  \/ exists pre cb,
       acts = pre ++ [cb] /\ Forall (fun a => is_callback a = false) pre
       /\ is_callback cb = true.

(** *** Parts of a message and failed uploads *)

(** The parameters other than [key]. *)
Definition without (key : string) (params : CallParams) : CallParams :=
  filter (fun kv => kv.1 <> key) params.

Section GivesUp.
Context `{Host}.

(** The calls of a sender that gives up on the message [m]: no call of
    messages.send, no success callback, the error written to the
    conversation, and the error callback if there is one. *)
Definition gives_up (m : MessageSend.SendMessage) (acts : list action) : Prop :=
  api_calls "messages.send" acts = []
  /\ (call_success_cb ∉ acts)
  /\ (purple_conversation_write (MessageSend.user_id m) (MessageSend.chat_id m)
        ("Error sending message '" +:+ g_markup_escape_text (MessageSend.text m)
         +:+ "'")
        PURPLE_MESSAGE_ERROR_NO_LINKIFY ∈ acts)
  /\ (MessageSend.error_cb m = true -> call_error_cb ∈ acts).

End GivesUp.

(** *** Pages of unread messages *)

(** The parameters of the messages.get call for the unread messages from
    [offset] on. *)
Definition get_params (offset : Z) : CallParams :=
  [("out", "0"); ("filters", "1"); ("offset", pretty offset)].

(** [start], and the sums of [start] and the first, the first two, ... of
    [sizes]. *)
Fixpoint running_totals (start : Z) (sizes : list Z) : list Z :=
  match sizes with
  | [] => [start]
  | n :: sizes' => start :: running_totals (start + n) sizes'
  end.

(** A page of messages.get with the items [items], of which there are
    some, and no more than an [int] counts. *)
Definition page_with (p : value) (items : list value) : Prop :=
  is_Some (field_double p "count") /\ field_array p "items" = Some items
  /\ items <> [] /\ Z.of_nat (length items) <= INT_MAX.

(** The page that ends the pagination: one with a count and no items. *)
Definition last_page (p : value) : Prop :=
  is_Some (field_double p "count") /\ field_array p "items" = Some [].

Section Deliveries.
Context `{Host}.

(** The message [process_result] makes of an item that has its four
    fields, before it looks at the attachments. *)
Definition message_of (v : value) : option MessageRecv.ReceivedMessage :=
  match field_double v "user_id", field_double v "date",
        field_string v "body", field_double v "id" with
  | Some user_id, Some date, Some body, Some id =>
      Some {| MessageRecv.uid := to_uint64 user_id; MessageRecv.mid := to_uint64 id;
              MessageRecv.text := purple_markup_escape_text body;
              MessageRecv.timestamp := to_uint64 date;
              MessageRecv.thumbnail_urls := [] |}
  | _, _, _, _ => None
  end.

(** What [finish] hands to libpurple for a message. *)
Definition delivery (m : MessageRecv.ReceivedMessage) : string * string * Z :=
  (buddy_name_from_uid (MessageRecv.uid m), MessageRecv.text m,
   MessageRecv.timestamp m).

End Deliveries.

(** What [finish] of the earlier receiver hands to libpurple for a message. *)
Definition legacy_delivery (m : MessageLegacy.ReceivedMessage) : string * string * Z :=
  ("id" +:+ pretty (to_uint64 (to_int64 (MessageLegacy.uid m))),
   MessageLegacy.text m, MessageLegacy.timestamp m).

(** *** Thumbnails *)

(** The URLs handed to [http_get], in order. *)
Definition http_gets (acts : list action) : list string :=
  omap (fun a => match a with http_get url => Some url | _ => None end) acts.

(** The thumbnails [download_thumbnail] has still to get when it is at the
    [thumbnail]-th thumbnail of the first of the messages whose thumbnail
    URLs are [urlss]. *)
Definition pending_urls (urlss : list (list string)) (thumbnail : nat) : list string :=
  match urlss with
  | [] => []
  | urls :: urlss' => drop thumbnail urls ++ concat urlss'
  end.

(** *** Users *)

(** The uid an item of friends.get or users.get names, if it names one. *)
Definition named_uid (v : value) : option Z :=
  to_uint64 <$> field_double v "id".

(** The items of the result of friends.get ([friends_get] is true) or of
    users.get that [on_update_user_infos] goes through. *)
Definition user_items (result : value) (friends_get : bool) : list value :=
  match (if friends_get then default null (field result "items") else result) with
  | array items => items
  | _ => []
  end.

(** ** The buddy list (vk-buddy) *)

Module BuddyList.
Import Buddy.

(** What the plugin reads of the account and of libpurple while it
    updates the buddy list, and the helpers whose definitions are not
    among the sources.  [custom_alias], [active_status_id] and
    [icon_checksum] are what libpurple answers for the buddy of a name:
    the custom-alias setting of its node, the id of the active status of
    its presence, and the checksum of its icon. *)
Class Account : Type := {
  only_friends_in_blist : bool;
  blist_default_group : string;
  have_conversation_with : Z -> bool;
  uid_from_buddy_name : string -> Z;
  is_unknown_uid : Z -> bool;
  custom_alias : string -> bool;
  active_status_id : string -> string;
  icon_checksum : string -> option string;
}.

(** The calls that leave the plugin, [http_get_icon] being the request of
    [fetch_buddy_icon] for the icon of a buddy; [call_on_update_cb] is the
    callback of the caller.  Of the debug lines, those that report an error
    are among the calls. *)
Inductive call : Type :=
  | api (method : string) (params : CallParams)
  | api_items (method : string) (params : CallParams)
  | purple_blist_add_buddy (name : string) (group : option string)
  | serv_got_alias (name alias : string)
  | purple_serv_got_private_alias (name alias : string)
  | purple_prpl_got_user_status (name status_id : string)
  | purple_blist_node_set_int (name key : string) (value : Z)
  | purple_buddy_icons_set_for_user (name : string) (icon_url : option string)
  | http_get_icon (name icon_url : string)
  | purple_blist_remove_buddy (name : string)
  | debug_error (format : string)
  | call_on_update_cb.

(** What is done when users.get has answered. *)
Inductive continuation : Type :=
  | then_update_buddy_list (update_presence on_update_cb : bool)
  | then_update_buddy_list_for (uids : list Z) (on_update_cb : bool).

Inductive pending : Type :=
  | wait_friends (update_presence on_update_cb : bool)
  | wait_dialogs (update_presence on_update_cb : bool)
  | wait_users (k : continuation)
  | idle.

(** The connection data the code works on, with the buddy list of the
    account: the names of its buddies.  [purple_find_buddy] finds the
    buddy of a name that is among them, [purple_blist_add_buddy] adds a
    name and [purple_blist_remove_buddy] takes one away.  [waits] is the
    request whose reply the callbacks modelled here wait for; the model
    follows one chain of requests at a time. *)
Record VkConnData : Type := {
  uid : Z;
  user_infos : gmap Z VkUserInfo;
  friend_uids : gset Z;
  buddies : gset string;
  waits : pending;
}.

Definition with_buddies (b : gset string) (s : VkConnData) : VkConnData :=
  {| uid := uid s; user_infos := user_infos s; friend_uids := friend_uids s;
     buddies := b; waits := waits s |}.

Definition with_user_infos (ui : gmap Z VkUserInfo) (s : VkConnData) : VkConnData :=
  {| uid := uid s; user_infos := ui; friend_uids := friend_uids s;
     buddies := buddies s; waits := waits s |}.

Definition with_friend_uids (f : gset Z) (s : VkConnData) : VkConnData :=
  {| uid := uid s; user_infos := user_infos s; friend_uids := f;
     buddies := buddies s; waits := waits s |}.

Definition with_waits (w : pending) (s : VkConnData) : VkConnData :=
  {| uid := uid s; user_infos := user_infos s; friend_uids := friend_uids s;
     buddies := buddies s; waits := w |}.

Definition user_fields_param : string :=
  "first_name,last_name,bdate,education,photo_50,photo_max_orig,"
  +:+ "online,contacts,can_write_private_message,activity,last_seen,domain".

Section WithHost.
Context `{Host} {account : Account}.
(* A [VkUserInfo] as its constructor leaves it. *)
Variable new_info : VkUserInfo.

(** The default group to add buddies to. *)
Definition get_default_group : option string :=
  if negb (empty blist_default_group) then Some blist_default_group else None.

(** The callback of the request of [fetch_buddy_icon]; [ok] tells whether
    the response is successful. *)
Definition icon_fetched (buddy_name icon_url : string) (ok : bool) : list call :=
  if negb ok then [debug_error "Error while fetching buddy icon: %s\n"]
  else [purple_buddy_icons_set_for_user buddy_name (Some icon_url)].

(** Helper of [update_buddy_list] and [update_buddy_list_for]. *)
Definition update_buddy_in_blist (uid : Z) (info : VkUserInfo)
    (update_presence : bool) (buddies : gset string) : gset string * list call :=
  let buddy_name := buddy_name_from_uid uid in
  let '(buddies, added) :=
    if bool_decide (buddy_name ∈ buddies) then (buddies, [])
    else ({[buddy_name]} ∪ buddies,
          [purple_blist_add_buddy buddy_name get_default_group]) in
  (buddies,
   added
   (* Check if the user did not set the alias locally. *)
   ++ (if negb (custom_alias buddy_name)
       then [serv_got_alias buddy_name (name info);
             purple_serv_got_private_alias buddy_name (name info)]
       else [])
   (* Update presence. *)
   ++ [purple_prpl_got_user_status buddy_name
         (if update_presence
          then (if online info then "online" else "offline")
          else active_status_id buddy_name)]
   (* Update last seen time. *)
   ++ (if negb (online info)
       then (if negb (last_seen info =? 0)
             then [purple_blist_node_set_int buddy_name "last_seen"
                     (to_int (last_seen info))]
             else [debug_error "Zero login time for %s\n"])
       else [])
   (* Either set the empty avatar or fetch the icon. *)
   ++ (if empty (photo_min info)
       then [purple_buddy_icons_set_for_user buddy_name None]
       else
         match icon_checksum buddy_name with
         | Some checksum =>
             if negb (String.eqb checksum (photo_min info))
             then [http_get_icon buddy_name (photo_min info)] else []
         | None => [http_get_icon buddy_name (photo_min info)]
         end)).

(** The first loop of [update_buddy_list], over the known users. *)
Fixpoint update_known (l : list (Z * VkUserInfo)) (friend_uids : gset Z)
    (update_presence : bool) (buddies : gset string) : gset string * list call :=
  match l with
  | [] => (buddies, [])
  | (uid, info) :: l' =>
      if only_friends_in_blist
         && (negb (bool_decide (uid ∈ friend_uids))
             && negb (have_conversation_with uid))
      then update_known l' friend_uids update_presence buddies
      else
        let '(buddies, calls1) :=
          update_buddy_in_blist uid info update_presence buddies in
        let '(buddies, calls2) :=
          update_known l' friend_uids update_presence buddies in
        (buddies, calls1 ++ calls2)
  end.

(** The second loop of [update_buddy_list], over the buddies of the
    account. *)
Fixpoint remove_unlisted (l : list string) (user_infos : gmap Z VkUserInfo)
    (friend_uids : gset Z) (buddies : gset string) : gset string * list call :=
  match l with
  | [] => (buddies, [])
  | buddy_name :: l' =>
      let uid := uid_from_buddy_name buddy_name in
      if bool_decide (is_Some (user_infos !! uid))
         && (negb only_friends_in_blist
             || (only_friends_in_blist
                 && (bool_decide (uid ∈ friend_uids) || have_conversation_with uid)))
      then remove_unlisted l' user_infos friend_uids buddies
      else
        let '(buddies, calls) :=
          remove_unlisted l' user_infos friend_uids (buddies ∖ {[buddy_name]}) in
        (buddies, purple_blist_remove_buddy buddy_name :: calls)
  end.

(** Updates the buddy list according to the friend uids and the user
    infos: adds new buddies, removes old ones, updates aliases and
    avatars.  The users are gone through in the order of the map, the
    buddies in the order libpurple gives them; the sources fix neither. *)
Definition update_buddy_list (update_presence : bool) (s : VkConnData)
    : VkConnData * list call :=
  let '(buddies1, calls1) :=
    update_known (map_to_list (user_infos s)) (friend_uids s) update_presence
                 (buddies s) in
  let '(buddies2, calls2) :=
    remove_unlisted (elements buddies1) (user_infos s) (friend_uids s) buddies1 in
  (with_buddies buddies2 s, calls1 ++ calls2).

(** Checks that the uids are in the buddy list and adds them if they are
    not.  [user_infos[uid]] makes an entry for a uid that has none. *)
Fixpoint update_buddy_list_for (uids : list Z) (update_presence : bool)
    (s : VkConnData) : VkConnData * list call :=
  match uids with
  | [] => (s, [])
  | uid :: uids' =>
      let info := default new_info (user_infos s !! uid) in
      let s := with_user_infos (<[uid := info]> (user_infos s)) s in
      let '(buddies, calls1) :=
        update_buddy_in_blist uid info update_presence (buddies s) in
      let '(s, calls2) :=
        update_buddy_list_for uids' update_presence (with_buddies buddies s) in
      (s, calls1 ++ calls2)
  end.

(** The loop of [remove_from_buddy_list_if_not_needed]. *)
Fixpoint remove_not_needed (uids : list Z) (convo_closed : bool)
    (friend_uids : gset Z) (buddies : gset string) : gset string * list call :=
  match uids with
  | [] => (buddies, [])
  | uid :: uids' =>
      if only_friends_in_blist
         && (bool_decide (uid ∈ friend_uids)
             || (negb convo_closed && have_conversation_with uid))
      then remove_not_needed uids' convo_closed friend_uids buddies
      else
        let buddy_name := buddy_name_from_uid uid in
        if negb (bool_decide (buddy_name ∈ buddies))
        then remove_not_needed uids' convo_closed friend_uids buddies
        else
          let '(buddies, calls) :=
            remove_not_needed uids' convo_closed friend_uids
                              (buddies ∖ {[buddy_name]}) in
          (buddies, purple_blist_remove_buddy buddy_name :: calls)
  end.

Definition remove_from_buddy_list_if_not_needed (uids : list Z)
    (convo_closed : bool) (s : VkConnData) : VkConnData * list call :=
  if negb only_friends_in_blist then (s, [])
  else
    let '(buddies, calls) :=
      remove_not_needed uids convo_closed (friend_uids s) (buddies s) in
    (with_buddies buddies s, calls).

(** The callback of [update_buddies] and of [add_to_buddy_list] for
    [add_or_update_user_infos]. *)
Definition continue (k : continuation) (s : VkConnData) : VkConnData * list call :=
  match k with
  | then_update_buddy_list update_presence on_update_cb =>
      let '(s, calls) := update_buddy_list update_presence s in
      (s, calls ++ (if on_update_cb then [call_on_update_cb] else []))
  | then_update_buddy_list_for uids on_update_cb =>
      let '(s, calls) := update_buddy_list_for uids true s in
      (s, calls ++ (if on_update_cb then [call_on_update_cb] else []))
  end.

(** [add_or_update_user_infos] with the callback [k]. *)
Definition add_or_update_user_infos (uids : list Z) (k : continuation)
    (s : VkConnData) : VkConnData * list call :=
  if bool_decide (uids = []) then continue k s
  else
    (with_waits (wait_users k) s,
     [api "users.get" [("user_ids", str_concat_int "," uids);
                       ("fields", user_fields_param)]]).

Definition add_to_buddy_list (uids : list Z) (on_update_cb : bool) (s : VkConnData)
    : VkConnData * list call :=
  if bool_decide (uids = [])
  then (s, if on_update_cb then [call_on_update_cb] else [])
  else
    add_or_update_user_infos (filter (fun uid => is_unknown_uid uid = true) uids)
      (then_update_buddy_list_for uids on_update_cb) s.

Definition update_buddies (update_presence on_update_cb : bool) (s : VkConnData)
    : VkConnData * list call :=
  (with_waits (wait_friends update_presence on_update_cb) s,
   [api "friends.get" [("user_id", pretty (uid s)); ("fields", user_fields_param)]]).

(** [get_users_from_dialogs]: the call, and the uids of the dialogs that
    the item callback collects. *)
Definition get_users_from_dialogs : list call :=
  [api_items "messages.getDialogs" [("preview_length", "1"); ("count", "200")]].

Fixpoint dialog_uids (dialogs : list value) (uids : gset Z) : gset Z * list call :=
  match dialogs with
  | [] => (uids, [])
  | dialog :: dialogs' =>
      match field_double dialog "user_id" with
      | None =>
          let '(uids, log) := dialog_uids dialogs' uids in
          (uids, debug_error "Strange response from messages.getDialogs: %s\n" :: log)
      | Some user_id => dialog_uids dialogs' ({[to_uint64 user_id]} ∪ uids)
      end
  end.

(** The callback of [update_buddies] for the uids of the dialogs. *)
Definition received_users (update_presence on_update_cb : bool)
    (dialog_uids : gset Z) (s : VkConnData) : VkConnData * list call :=
  let non_friend_uids :=
    if negb only_friends_in_blist
    then filter (fun uid => uid ∉ friend_uids s) (elements dialog_uids)
    else [] in
  add_or_update_user_infos non_friend_uids
    (then_update_buddy_list update_presence on_update_cb) s.

(** The callbacks.  The dialogs come as the array of the items that
    [vk_call_api_items] hands over one by one before it reports the end.
    An update that ends in an exception leaves the infos as they are
    then and does nothing more; friends.get and users.get are called
    without a callback for errors. *)
Definition step (s : VkConnData) (ev : event) : VkConnData * list call :=
  match waits s, ev with
  | wait_friends update_presence on_update_cb, api_result result =>
      match on_update_user_infos new_info (user_infos s) result true with
      | (ui, returns uids) =>
          (with_waits (wait_dialogs update_presence on_update_cb)
             (with_friend_uids uids (with_user_infos ui s)),
           get_users_from_dialogs)
      | (ui, throws) => (with_waits idle (with_user_infos ui s), [])
      end
  | wait_friends _ _, api_error _ => (with_waits idle s, [])
  | wait_dialogs update_presence on_update_cb, api_result (array dialogs) =>
      let '(uids, log) := dialog_uids dialogs ∅ in
      let '(s, calls) :=
        received_users update_presence on_update_cb uids (with_waits idle s) in
      (s, log ++ calls)
  | wait_dialogs update_presence on_update_cb, api_error _ =>
      received_users update_presence on_update_cb ∅ (with_waits idle s)
  | wait_users k, api_result result =>
      match on_update_user_infos new_info (user_infos s) result false with
      | (ui, returns _) => continue k (with_waits idle (with_user_infos ui s))
      | (ui, throws) => (with_waits idle (with_user_infos ui s), [])
      end
  | wait_users _, api_error _ => (with_waits idle s, [])
  | _, _ => (s, [])
  end.

Fixpoint run (s : VkConnData) (evs : list event) : VkConnData * list call :=
  match evs with
  | [] => (s, [])
  | ev :: evs' =>
      let '(s1, calls1) := step s ev in
      let '(s2, calls2) := run s1 evs' in
      (s2, calls1 ++ calls2)
  end.

End WithHost.
End BuddyList.

(** *** The buddy list and the users *)

Section Listed.
Context `{Host} {account : BuddyList.Account}.

(** A user that belongs in the buddy list: one the plugin has an info
    about and, if only friends are to be shown, a friend or a user with
    an open conversation. *)
Definition listed (s : BuddyList.VkConnData) (uid : Z) : Prop :=
  is_Some (BuddyList.user_infos s !! uid)
  /\ (BuddyList.only_friends_in_blist = true ->
      uid ∈ BuddyList.friend_uids s \/ BuddyList.have_conversation_with uid = true).

(** The name of a buddy is the name of the uid read from it. *)
Definition canonical (buddy_name : string) : Prop :=
  buddy_name = buddy_name_from_uid (BuddyList.uid_from_buddy_name buddy_name).

End Listed.

(** *** An account for the examples *)

Module BuddyExamples.

(** The uid of a buddy name of the form [id<uid>], and 0 for other
    names. *)
Definition uid_from_buddy_name (buddy_name : string) : Z :=
  match buddy_name with
  | String "i" (String "d" (String "-" ds)) => - digits_value 0 ds
  | String "i" (String "d" ds) => digits_value 0 ds
  | _ => 0
  end.

(** Only friends are shown; the user 5 has an open conversation. *)
Definition account : BuddyList.Account := {|
  BuddyList.only_friends_in_blist := true;
  BuddyList.blist_default_group := EmptyString;
  BuddyList.have_conversation_with := fun uid => uid =? 5;
  BuddyList.uid_from_buddy_name := uid_from_buddy_name;
  BuddyList.is_unknown_uid := fun _ => true;
  BuddyList.custom_alias := fun _ => false;
  BuddyList.active_status_id := fun _ => "offline";
  BuddyList.icon_checksum := fun _ => None;
|}.

(** The infos of the users 1, 2 and 5, of which 1 is a friend, and the
    buddies of the users 2 and 7. *)
Definition conn_data : BuddyList.VkConnData :=
  {| BuddyList.uid := 9;
     BuddyList.user_infos :=
       {[1 := Examples.new_info; 2 := Examples.new_info; 5 := Examples.new_info]};
     BuddyList.friend_uids := {[1]};
     BuddyList.buddies := {["id2"; "id7"]};
     BuddyList.waits := BuddyList.idle |}.

End BuddyExamples.

(** *** Avatars *)

(** The avatar of the info is none of the two pictures vk.com shows for a
    user without a photo. *)
Definition no_placeholder (info : Buddy.VkUserInfo) : Prop :=
  Buddy.photo_min info <> Buddy.empty_photo_a
  /\ Buddy.photo_min info <> Buddy.empty_photo_b.

(** ** Names of users (vk-buddy) *)

Module Users.

(** The callback of [get_user_full_name] for the result of users.get: the
    log, and the name [fetch_cb] is called with, if it is called. *)
Definition full_name_fetched (result : value) : list action * option string :=
  let wrong :=
    ([purple_debug_error "Wrong type returned as users.get call result: %s\n"
        (Some result)], None) in
  match result with
  | array users =>
      match users with
      | [user] =>
          match field_string user "first_name", field_string user "last_name" with
          | Some first_name, Some last_name =>
              ([], Some (first_name +:+ " " +:+ last_name))
          | _, _ => wrong
          end
      | _ => wrong
      end
  | _ => wrong
  end.

(** [get_user_full_name]: the call of users.get. *)
Definition get_user_full_name (uid : Z) : list action :=
  [vk_call_api "users.get"
     [("user_ids", pretty uid); ("fields", "first_name,last_name")]].

End Users.

(** *** Attachments *)

(** [m'] is [m] with more text and more thumbnails, [n] at most. *)
Definition extends (n : nat) (m m' : MessageRecv.ReceivedMessage) : Prop :=
  MessageRecv.uid m' = MessageRecv.uid m
  /\ MessageRecv.mid m' = MessageRecv.mid m
  /\ MessageRecv.timestamp m' = MessageRecv.timestamp m
  /\ (exists suffix, MessageRecv.text m' = MessageRecv.text m +:+ suffix)
  /\ (exists urls,
        MessageRecv.thumbnail_urls m' = MessageRecv.thumbnail_urls m ++ urls
        /\ (length urls <= n)%nat).

(** *** Pages of the earlier receiver *)

(** The message the earlier [receive] makes of an item that has its four
    fields. *)
Definition legacy_message_of (v : value) : option MessageLegacy.ReceivedMessage :=
  match field_double v "user_id", field_double v "date",
        field_string v "body", field_double v "id" with
  | Some user_id, Some date, Some body, Some id =>
      Some {| MessageLegacy.uid := to_uint64 user_id;
              MessageLegacy.mid := to_uint64 id;
              MessageLegacy.text := body;
              MessageLegacy.timestamp := to_uint64 date |}
  | _, _, _, _ => None
  end.

(** A page of messages.get with the items [items], of which there are
    some, each with the four fields of a message. *)
Definition legacy_page_with (p : value) (items : list value) : Prop :=
  is_Some (field_double p "count") /\ field_array p "items" = Some items
  /\ items <> [] /\ Forall (fun v => well_formed v = true) items.

(** * Facts *)

(** ** Strings *)

Lemma string_app_nil_l (s : string) : EmptyString +:+ s = s.
Proof. reflexivity. Qed.

Lemma string_app_cons (c : ascii) (s1 s2 : string) :
  String c s1 +:+ s2 = String c (s1 +:+ s2).
Proof. reflexivity. Qed.

Lemma string_app_assoc (s1 s2 s3 : string) :
  (s1 +:+ s2) +:+ s3 = s1 +:+ (s2 +:+ s3).
Proof.
  induction s1 as [|c s1 IH]; [done|].
  by rewrite !string_app_cons, IH.
Qed.

Lemma string_app_nil_r (s : string) : s +:+ EmptyString = s.
Proof.
  induction s as [|c s IH]; [done|]. by rewrite string_app_cons, IH.
Qed.

Lemma string_app_length (s1 s2 : string) :
  String.length (s1 +:+ s2) = (String.length s1 + String.length s2)%nat.
Proof.
  induction s1 as [|c s1 IH]; [done|].
  rewrite string_app_cons. simpl. by rewrite IH.
Qed.

(** ** Sorting *)

Section StdSortFacts.
Context {A : Type} (key : A -> Z).

Abbreviation by_key := (fun a b => key a <? key b).
Abbreviation key_le := (fun a b => key a <= key b).

Lemma sort_insert_Permutation (x : A) (l : list A) :
  sort_insert by_key x l ≡ₚ x :: l.
Proof.
  induction l as [|y l IH]; simpl; [done|].
  destruct (key y <? key x); [|done].
  rewrite IH. apply Permutation_swap.
Qed.

Lemma std_sort_Permutation (l : list A) : std_sort by_key l ≡ₚ l.
Proof.
  induction l as [|x l IH]; simpl; [done|].
  rewrite sort_insert_Permutation. by f_equiv.
Qed.

Lemma sort_insert_sorted (x : A) (l : list A) :
  StronglySorted key_le l -> StronglySorted key_le (sort_insert by_key x l).
Proof.
  induction 1 as [|y l Hl IH Hy]; simpl.
  - repeat constructor.
  - destruct (Z.ltb_spec (key y) (key x)) as [Hlt|Hge].
    + constructor; [done|].
      rewrite sort_insert_Permutation. constructor; [lia|done].
    + constructor; [by constructor|].
      constructor; [done|].
      eapply Forall_impl; [exact Hy|]. simpl. intros; lia.
Qed.

Lemma std_sort_sorted (l : list A) : StronglySorted key_le (std_sort by_key l).
Proof.
  induction l as [|x l IH]; simpl; [constructor|].
  by apply sort_insert_sorted.
Qed.

Lemma std_sort_ascending (l : list A) :
  ascending (key <$> std_sort by_key l).
Proof.
  pose proof (std_sort_sorted l) as Hs.
  induction Hs as [|x l' Hl IH Hx]; intros i j a b Hij Hi Hj.
  - destruct j; simplify_eq/=.
  - destruct j as [|j]; [lia|]. simpl in Hj.
    destruct i as [|i]; simpl in Hi.
    + simplify_eq. apply list_lookup_fmap_Some in Hj as (y & -> & Hy).
      rewrite Forall_forall in Hx. apply Hx.
      by eapply list_elem_of_lookup_2.
    + eapply (IH i j); [lia|done..].
Qed.

End StdSortFacts.

(** ** Runs *)

Lemma exec_cons_1 {S : Type} (step : S -> event -> S * list action)
    (s : S) (ev : event) (evs : list event) :
  (exec step s (ev :: evs)).1 = (exec step (step s ev).1 evs).1.
Proof.
  cbn [exec]. destruct (step s ev) as [s1 acts1]; cbn [fst snd].
  by destruct (exec step s1 evs).
Qed.

Lemma exec_cons_2 {S : Type} (step : S -> event -> S * list action)
    (s : S) (ev : event) (evs : list event) :
  (exec step s (ev :: evs)).2 = (step s ev).2 ++ (exec step (step s ev).1 evs).2.
Proof.
  cbn [exec]. destruct (step s ev) as [s1 acts1]; cbn [fst snd].
  by destruct (exec step s1 evs).
Qed.

(** ** Runs of the receivers *)

Lemma deliveries_app (l1 l2 : list action) :
  deliveries (l1 ++ l2) = deliveries l1 ++ deliveries l2.
Proof. apply omap_app. Qed.

Lemma api_calls_app (method : string) (l1 l2 : list action) :
  api_calls method (l1 ++ l2) = api_calls method l1 ++ api_calls method l2.
Proof. apply omap_app. Qed.

Lemma quiet_deliveries (l : list action) :
  Forall (fun a => quiet a = true) l -> deliveries l = [].
Proof.
  induction 1 as [|a l Ha _ IH]; [done|].
  destruct a; simpl in *; try done.
Qed.

Lemma quiet_mark_read (l : list action) :
  Forall (fun a => quiet a = true) l -> api_calls "messages.markAsRead" l = [].
Proof.
  induction 1 as [|a l Ha _ IH]; [done|].
  destruct a; simpl in *; try done.
  by destruct (String.eqb method "messages.markAsRead").
Qed.

Lemma log_quiet (l : list action) :
  Forall (fun a => is_log a = true) l -> Forall (fun a => quiet a = true) l.
Proof. intros Hl. eapply Forall_impl; [exact Hl|]. by intros []. Qed.

Lemma delivered_times_map {A : Type} (who msg : A -> string) (time : A -> Z)
    (flags : PurpleMessageFlags) (l : list A) (rest : list action) :
  deliveries rest = [] ->
  delivered_times (map (fun m => serv_got_im (who m) (msg m) flags (time m)) l ++ rest)
  = time <$> l.
Proof.
  intros Hrest. unfold delivered_times. rewrite deliveries_app, Hrest, app_nil_r.
  induction l as [|m l IH]; [done|]. simpl. by f_equal.
Qed.

Module RecvFacts.
Import MessageRecv.

Lemma process_attachment_log type v fields message :
  Forall (fun a => is_log a = true) (process_attachment type v fields message).2.
Proof.
  unfold process_attachment.
  repeat case_match; simpl; repeat constructor.
Qed.

Lemma process_attachments_log items message :
  Forall (fun a => is_log a = true) (process_attachments items message).2.
Proof.
  revert message. induction items as [|v items IH]; intros message; simpl.
  { constructor. }
  destruct (field_string v "type") as [type|]; [|by repeat constructor].
  destruct (field_object v type) as [fields|]; [|by repeat constructor].
  set (m' := if negb (empty (text message)) then _ else _).
  pose proof (process_attachment_log type v fields m') as H1.
  destruct (process_attachment type v fields m') as [m1 log1].
  pose proof (IH m1) as H2.
  destruct (process_attachments items m1) as [m2 log2].
  by apply Forall_app.
Qed.

Section WithHost.
Context `{Host}.

Lemma process_items_log result items ms :
  Forall (fun a => is_log a = true) (process_items result items ms).2.
Proof.
  revert ms. induction items as [|v items IH]; intros ms; simpl.
  { constructor. }
  destruct (field_double v "user_id") as [user_id|]; cycle 1.
  { pose proof (IH ms). destruct (process_items result items ms).
    by constructor. }
  destruct (field_double v "date") as [date|]; cycle 1.
  { pose proof (IH ms). destruct (process_items result items ms).
    by constructor. }
  destruct (field_string v "body") as [body|]; cycle 1.
  { pose proof (IH ms). destruct (process_items result items ms).
    by constructor. }
  destruct (field_double v "id") as [id|]; cycle 1.
  { pose proof (IH ms). destruct (process_items result items ms).
    by constructor. }
  set (m := {| uid := _ |}).
  set (res := match field_array v "attachments" with
              | Some attachments => process_attachments attachments m
              | None => (m, [])
              end).
  assert (Forall (fun a => is_log a = true) res.2) as H1.
  { subst res. destruct (field_array v "attachments");
      [apply process_attachments_log|constructor]. }
  destruct res as [m1 log1].
  pose proof (IH (ms ++ [m1])) as H2.
  destruct (process_items result items (ms ++ [m1])) as [ms2 log2].
  by apply Forall_app.
Qed.

Lemma process_result_log result ms :
  Forall (fun a => is_log a = true) (process_result result ms).2.
Proof.
  unfold process_result.
  repeat case_match; simplify_eq/=; repeat constructor.
  match goal with
  | E : process_items ?r ?i ?m = _ |- _ =>
      pose proof (process_items_log r i m) as Hl; by rewrite E in Hl
  end.
Qed.

(** The three cases of [download_thumbnail], as the source has them: past
    the last message it finishes; past the last thumbnail of a message it
    goes on with the first thumbnail of the next message; else it gets the
    thumbnail. *)
Lemma download_thumbnail_eq (r : MessageReceiver) (message thumbnail : nat) :
  download_thumbnail r message thumbnail
  = match m_messages r !! message with
    | None => finish r
    | Some m =>
        match thumbnail_urls m !! thumbnail with
        | None => download_thumbnail r (S message) 0
        | Some url =>
            ({| m_messages := m_messages r; m_received_cb := m_received_cb r;
                waits := wait_thumbnail message thumbnail |}, [http_get url])
        end
    end.
Proof.
  unfold download_thumbnail.
  destruct (m_messages r !! message) as [m|] eqn:Hm.
  - rewrite (drop_S _ _ _ Hm). cbn [next_thumbnail].
    by destruct (thumbnail_urls m !! thumbnail).
  - apply lookup_ge_None in Hm. by rewrite drop_ge.
Qed.

(** [download_thumbnail] either asks for one thumbnail or finishes. *)
Lemma download_thumbnail_cases (r : MessageReceiver) (message thumbnail : nat) :
  download_thumbnail r message thumbnail = finish r \/
  exists message' thumbnail' url,
    download_thumbnail r message thumbnail =
      ({| m_messages := m_messages r; m_received_cb := m_received_cb r;
          waits := wait_thumbnail message' thumbnail' |}, [http_get url]).
Proof.
  unfold download_thumbnail.
  destruct (next_thumbnail _ _ _) as [[[m t] url]|]; [right; eauto|by left].
Qed.

Lemma finish_deleted (r : MessageReceiver) : waits (finish r).1 = deleted.
Proof. done. Qed.

Lemma download_thumbnail_shape r0 r message thumbnail :
  ends_quietly_or_finishes r0 (download_thumbnail r message thumbnail).1
                           (download_thumbnail r message thumbnail).2.
Proof.
  destruct (download_thumbnail_cases r message thumbnail)
    as [->|(m & t & url & ->)].
  - exists [], (finish r).2. split_and!; [done|constructor|right; eauto].
  - exists [http_get url], [].
    split_and!; [done|by repeat constructor|by left].
Qed.

Lemma shape_with_log r r' acts log :
  Forall (fun a => is_log a = true) log ->
  ends_quietly_or_finishes r r' acts ->
  ends_quietly_or_finishes r r' (log ++ acts).
Proof.
  intros Hlog (pre & fin & -> & Hpre & Hfin).
  exists (log ++ pre), fin. split_and!; [apply app_assoc| |done].
  apply Forall_app. split; [by apply log_quiet|done].
Qed.

Lemma step_shape (r : MessageReceiver) (ev : event) :
  ends_quietly_or_finishes r (step r ev).1 (step r ev).2.
Proof.
  unfold step.
  destruct (waits r) as [|offset|message thumbnail|] eqn:Hw, ev as [result|error|[img_id|]| | | |];
    try (exists [], []; split_and!; [done|constructor|by left]);
    try (exists [], (finish r).2; split_and!; [done|constructor|right; eauto]).
  - pose proof (process_result_log result (m_messages r)) as Hlog.
    destruct (process_result result (m_messages r)) as [[ms n] log].
    pose proof (download_thumbnail_shape r (with_messages r ms) 0 0) as Hs.
    destruct (download_thumbnail _ _ _) as [r' acts]. by apply shape_with_log.
  - pose proof (process_result_log result (m_messages r)) as Hlog.
    destruct (process_result result (m_messages r)) as [[ms n] log].
    destruct (n =? 0).
    + pose proof (download_thumbnail_shape r (with_messages r ms) 0 0) as Hs.
      destruct (download_thumbnail _ _ _) as [r' acts]. by apply shape_with_log.
    + apply shape_with_log; [done|].
      eexists _, []. split_and!; [by rewrite app_nil_r|by repeat constructor|by left].
  - apply download_thumbnail_shape.
  - pose proof (download_thumbnail_shape r r message (S thumbnail)) as Hs.
    destruct (download_thumbnail _ _ _) as [r' acts].
    by apply (shape_with_log _ _ _ [_]); [repeat constructor|].
Qed.

Lemma exec_deleted (r : MessageReceiver) (evs : list event) :
  waits r = deleted -> exec step r evs = (r, []).
Proof.
  intros Hr. induction evs as [|ev evs IH]; [done|].
  simpl. unfold step at 1. rewrite Hr. by rewrite IH.
Qed.

(** A run issues the calls of [finish] at most once, and last. *)
Lemma exec_shape (r : MessageReceiver) (evs : list event) :
  ends_quietly_or_finishes r (exec step r evs).1 (exec step r evs).2.
Proof.
  revert r. induction evs as [|ev evs IH]; intros r.
  { exists [], []. split_and!; [done|constructor|by left]. }
  rewrite exec_cons_1, exec_cons_2.
  destruct (step_shape r ev) as (pre & fin & -> & Hpre & Hfin).
  destruct Hfin as [[-> Hdel]|(rx & -> & ->)].
  - destruct (IH (step r ev).1) as (pre2 & fin2 & -> & Hpre2 & Hfin2).
    exists (pre ++ pre2), fin2.
    split_and!; [by rewrite app_nil_r, app_assoc|by apply Forall_app|].
    destruct Hfin2 as [[-> Hdel2]|?]; [left|by right].
    split; [done|]. intros. by apply Hdel, Hdel2.
  - rewrite exec_deleted by done. simpl.
    exists pre, (finish rx).2.
    split_and!; [by rewrite app_nil_r|done|right; eauto].
Qed.

Lemma finish_deliveries (r : MessageReceiver) :
  delivered_times (finish r).2
  = timestamp <$> std_sort (fun a b => timestamp a <? timestamp b) (m_messages r).
Proof.
  unfold finish; cbv zeta; cbn [snd]. apply delivered_times_map.
  unfold mark_message_as_read. by repeat case_match.
Qed.

End WithHost.
End RecvFacts.

Module LegacyFacts.
Import MessageLegacy.

Lemma legacy_step_shape (r : MessageReceiver) (ev : event) :
  legacy_ends_quietly_or_finishes (step r ev).1 (step r ev).2.
Proof.
  unfold step.
  destruct (waits r) as [offset|] eqn:Hw, ev as [result|error|[img_id|]| | | |];
    try (exists [], []; split_and!; [done|constructor|by left]);
    try (exists [], (finish r).2; split_and!; [done|constructor|right; eauto]).
  destruct (field_double result "count") as [count|]; cycle 1.
  { exists [strange_response result], (finish r).2.
    split_and!; [done|by repeat constructor|right; eauto]. }
  destruct (field_array result "items") as [items|]; cycle 1.
  { exists [strange_response result], (finish r).2.
    split_and!; [done|by repeat constructor|right; eauto]. }
  case_bool_decide.
  { exists [], (finish r).2. split_and!; [done|constructor|right; eauto]. }
  destruct (receive_items items (m_messages r)) as [ms [|]].
  - eexists _, []. split_and!; [by rewrite app_nil_r|by repeat constructor|by left].
  - exists [strange_response result], (finish (with_messages r ms)).2.
    split_and!; [done|by repeat constructor|right; eauto].
Qed.

Lemma legacy_exec_deleted (r : MessageReceiver) (evs : list event) :
  waits r = deleted -> exec step r evs = (r, []).
Proof.
  intros Hr. induction evs as [|ev evs IH]; [done|].
  simpl. unfold step at 1. rewrite Hr. by rewrite IH.
Qed.

Lemma legacy_exec_shape (r : MessageReceiver) (evs : list event) :
  legacy_ends_quietly_or_finishes (exec step r evs).1 (exec step r evs).2.
Proof.
  revert r. induction evs as [|ev evs IH]; intros r.
  { exists [], []. split_and!; [done|constructor|by left]. }
  simpl. pose proof (legacy_step_shape r ev) as (pre & fin & Hacts & Hpre & Hfin).
  destruct (step r ev) as [r1 acts1]; simpl in *. subst acts1.
  destruct Hfin as [->|(rx & -> & Hdel)].
  - specialize (IH r1). destruct (exec step r1 evs) as [r2 acts2]; simpl in *.
    destruct IH as (pre2 & fin2 & -> & Hpre2 & Hfin2).
    exists (pre ++ pre2), fin2.
    split_and!; [by rewrite app_nil_r, app_assoc|by apply Forall_app|done].
  - rewrite legacy_exec_deleted by done. simpl.
    exists pre, (finish rx).2.
    split_and!; [by rewrite app_nil_r|done|right; eauto].
Qed.

Lemma legacy_finish_deliveries (r : MessageReceiver) :
  delivered_times (finish r).2
  = timestamp <$> std_sort (fun a b => timestamp a <? timestamp b) (m_messages r).
Proof.
  unfold finish; cbv zeta; cbn [snd]. apply delivered_times_map.
  unfold mark_message_as_read. by repeat case_match.
Qed.

End LegacyFacts.

Lemma ascending_nil : ascending [].
Proof. intros i j a b _ Hi. by destruct i. Qed.

(** C1: the messages a run of the receiver hands to the host come in
    ascending order of their timestamps: of any two deliveries, the earlier
    one carries the smaller or equal time.  This holds from every state of
    the receiver of vk-message-recv ([run_unread] and [run] start two of
    them) and of the earlier receiver, for every sequence of replies. *)
Theorem C1_delivered_in_ascending_time `{Host}
    (r : MessageRecv.MessageReceiver) (evs : list event)
    (r0 : MessageLegacy.MessageReceiver) (evs0 : list event) :
  ascending (delivered_times (exec MessageRecv.step r evs).2) /\
  ascending (delivered_times (exec MessageLegacy.step r0 evs0).2).
Proof.
  split.
  - destruct (RecvFacts.exec_shape r evs) as (pre & fin & -> & Hpre & Hfin).
    unfold delivered_times. rewrite deliveries_app, (quiet_deliveries pre) by done.
    simpl. destruct Hfin as [[-> _]|(rx & -> & _)]; [apply ascending_nil|].
    fold (delivered_times (MessageRecv.finish rx).2).
    rewrite RecvFacts.finish_deliveries. apply std_sort_ascending.
  - destruct (LegacyFacts.legacy_exec_shape r0 evs0) as (pre & fin & -> & Hpre & Hfin).
    unfold delivered_times. rewrite deliveries_app, (quiet_deliveries pre) by done.
    simpl. destruct Hfin as [->|(rx & -> & _)]; [apply ascending_nil|].
    fold (delivered_times (MessageLegacy.finish rx).2).
    rewrite LegacyFacts.legacy_finish_deliveries. apply std_sort_ascending.
Qed.

Section MarkRead.
Context `{Host}.
Import MessageRecv.

Lemma std_sort_nil {A : Type} (key : A -> Z) (l : list A) :
  std_sort (fun a b => key a <? key b) l = [] <-> l = [].
Proof.
  split; [|by intros ->].
  intros Hs. apply Permutation_nil_r. rewrite <-Hs.
  symmetry. apply std_sort_Permutation.
Qed.

Lemma finish_delivers_all (r : MessageReceiver) :
  length (deliveries (finish r).2) = length (m_messages r).
Proof.
  unfold finish; cbv zeta; cbn [snd].
  set (l := std_sort _ _).
  rewrite deliveries_app.
  assert (deliveries (mark_message_as_read (map mid l) ++
            (if m_received_cb r then [call_received_cb] else [])) = []) as ->.
  { unfold mark_message_as_read. by repeat case_match. }
  rewrite app_nil_r.
  transitivity (length l).
  - clear. induction l as [|m l IH]; [done|]. simpl. by f_equal.
  - subst l. by rewrite (std_sort_Permutation timestamp).
Qed.

Lemma finish_mark_read (r : MessageReceiver) :
  length (api_calls "messages.markAsRead" (finish r).2)
  = if bool_decide (m_messages r = []) then 0%nat else 1%nat.
Proof.
  unfold finish; cbv zeta; cbn [snd].
  pose proof (std_sort_nil timestamp (m_messages r)) as Hnil.
  set (l := std_sort _ _) in *.
  rewrite !api_calls_app.
  assert (api_calls "messages.markAsRead"
            (map (fun m => serv_got_im (buddy_name_from_uid (uid m)) (text m)
                             PURPLE_MESSAGE_RECV (timestamp m)) l) = []) as ->.
  { clear. by induction l. }
  assert (api_calls "messages.markAsRead"
            (if m_received_cb r then [call_received_cb] else []) = []) as ->.
  { by destruct (m_received_cb r). }
  rewrite app_nil_r. simpl. unfold mark_message_as_read.
  destruct Hnil as [Hn1 Hn2].
  destruct l as [|m l]; repeat case_bool_decide; simpl; try done;
    exfalso; intuition congruence.
Qed.

End MarkRead.

(** C10: [mark_message_as_read] issues no call for an empty list of ids,
    and a run of the receiver calls messages.markAsRead once if it
    delivered a message and not at all if it delivered none. *)
Theorem C10_mark_read_only_with_deliveries `{Host}
    (r : MessageRecv.MessageReceiver) (evs : list event) :
  mark_message_as_read [] = [] /\
  length (api_calls "messages.markAsRead" (exec MessageRecv.step r evs).2)
  = if bool_decide (deliveries (exec MessageRecv.step r evs).2 = [])
    then 0%nat else 1%nat.
Proof.
  split; [done|].
  destruct (RecvFacts.exec_shape r evs) as (pre & fin & -> & Hpre & Hfin).
  rewrite api_calls_app, deliveries_app.
  rewrite (quiet_mark_read pre), (quiet_deliveries pre) by done. simpl.
  destruct Hfin as [[-> _]|(rx & -> & _)]; [done|].
  rewrite finish_mark_read.
  pose proof (finish_delivers_all rx) as Hlen.
  destruct (MessageRecv.m_messages rx) as [|m ms];
    destruct (deliveries (MessageRecv.finish rx).2); simplify_eq/=; done.
Qed.

(** ** Pagination of the unread messages *)

Lemma log_api_calls (method : string) (l : list action) :
  Forall (fun a => is_log a = true) l -> api_calls method l = [].
Proof.
  induction 1 as [|a l Ha _ IH]; [done|]. by destruct a.
Qed.

Section Pagination.
Context `{Host}.
Import MessageRecv.

Lemma finish_no_get (r : MessageReceiver) :
  api_calls "messages.get" (finish r).2 = [].
Proof.
  unfold finish; cbv zeta; cbn [snd].
  rewrite !api_calls_app.
  assert (forall l : list ReceivedMessage,
            api_calls "messages.get"
              (map (fun m => serv_got_im (buddy_name_from_uid (uid m)) (text m)
                               PURPLE_MESSAGE_RECV (timestamp m)) l) = []) as ->.
  { intros l. by induction l. }
  unfold mark_message_as_read. by repeat case_match.
Qed.

Lemma download_thumbnail_no_get (r : MessageReceiver) (message thumbnail : nat) :
  api_calls "messages.get" (download_thumbnail r message thumbnail).2 = [].
Proof.
  destruct (RecvFacts.download_thumbnail_cases r message thumbnail)
    as [->|(m & t & url & ->)]; [apply finish_no_get|done].
Qed.

(** The number of items [process_result] returns: that of the items array
    of a page that has one and has a numeric count, whatever the count is;
    zero for any other page. *)
Lemma process_result_count (result : value) (ms : list ReceivedMessage) :
  (process_result result ms).1.2
  = match field_double result "count", field_array result "items" with
    | Some _, Some items => to_int (Z.of_nat (length items))
    | _, _ => 0
    end.
Proof.
  unfold process_result.
  destruct (field_double result "count"); [|done].
  destruct (field_array result "items") as [items|]; [|done].
  by destruct (process_items result items ms).
Qed.

Lemma to_int_small (z : Z) : - 2 ^ 31 <= z <= INT_MAX -> to_int z = z.
Proof.
  unfold to_int, INT_MAX. intros Hz.
  rewrite Z.mod_small; lia.
Qed.

End Pagination.

(** C2, as the code has it: in unread mode a further messages.get call
    follows a page exactly when the page has a numeric count field and an
    items array with at least one entry; the call then asks for the offset
    increased by the number of items of the page.  The value of the count
    plays no part.  A page that lacks the count or the items array ends the
    pagination whatever else it holds, and so does a failed call. *)
Theorem C2_next_page_iff_items `{Host}
    (ms : list MessageRecv.ReceivedMessage) (cb : bool) (offset : Z)
    (result error : value) :
  0 <= offset ->
  (forall items, field_array result "items" = Some items ->
                 offset + Z.of_nat (length items) <= INT_MAX) ->
  let r := {| MessageRecv.m_messages := ms; MessageRecv.m_received_cb := cb;
              MessageRecv.waits := MessageRecv.wait_get offset |} in
  api_calls "messages.get" (MessageRecv.step r (api_result result)).2
  = match field_double result "count", field_array result "items" with
    | Some _, Some ((_ :: _) as items) =>
        [[("out", "0"); ("filters", "1");
          ("offset", pretty (offset + Z.of_nat (length items)))]]
    | _, _ => []
    end
  /\ api_calls "messages.get" (MessageRecv.step r (api_error error)).2 = [].
Proof.
  intros Hoff Hmax r. split; [|apply finish_no_get].
  unfold MessageRecv.step; cbn [MessageRecv.waits r].
  pose proof (process_result_count result ms) as Hcount.
  pose proof (RecvFacts.process_result_log result ms) as Hlog.
  cbn [MessageRecv.m_messages r].
  destruct (MessageRecv.process_result result ms) as [[ms' n] log].
  simpl in Hcount, Hlog. subst n.
  destruct (field_double result "count") as [count|]; cycle 1.
  { simpl.
    pose proof (download_thumbnail_no_get (MessageRecv.with_messages r ms') 0 0).
    destruct (MessageRecv.download_thumbnail _ _ _) as [r' acts]; cbn [snd] in *.
    by rewrite api_calls_app, (log_api_calls _ log). }
  destruct (field_array result "items") as [items|] eqn:Hitems; cycle 1.
  { simpl.
    pose proof (download_thumbnail_no_get (MessageRecv.with_messages r ms') 0 0).
    destruct (MessageRecv.download_thumbnail _ _ _) as [r' acts]; cbn [snd] in *.
    by rewrite api_calls_app, (log_api_calls _ log). }
  specialize (Hmax items eq_refl).
  rewrite (to_int_small (Z.of_nat (length items))) by (unfold INT_MAX in *; lia).
  destruct items as [|v items].
  { simpl.
    pose proof (download_thumbnail_no_get (MessageRecv.with_messages r ms') 0 0).
    destruct (MessageRecv.download_thumbnail _ _ _) as [r' acts]; cbn [snd] in *.
    by rewrite api_calls_app, (log_api_calls _ log). }
  destruct (Z.eqb_spec (Z.of_nat (length (v :: items))) 0) as [Hz|_].
  { simpl in Hz. lia. }
  rewrite to_int_small by (unfold INT_MAX in *; lia).
  unfold MessageRecv.run_unread_from; cbn [snd].
  by rewrite api_calls_app, (log_api_calls _ log).
Qed.

(** An application of C2: after a page of two items at offset 0 the next
    page is asked for at offset 2. *)
Lemma C2_next_page_witness :
  let r := {| MessageRecv.m_messages := []; MessageRecv.m_received_cb := true;
              MessageRecv.waits := MessageRecv.wait_get 0 |} in
  let result := Examples.page 50 [Examples.item 11 200 5 "hi" [];
                                  Examples.item 12 100 6 "yo" []] in
  api_calls "messages.get"
    (MessageRecv.step (H := plain_host) r (api_result result)).2
  = [[("out", "0"); ("filters", "1"); ("offset", "2")]]
  /\ api_calls "messages.get"
       (MessageRecv.step (H := plain_host) r (api_error null)).2 = [].
Proof.
  refine (C2_next_page_iff_items (H := plain_host) [] true 0 _ null _ _).
  - lia.
  - intros items [= <-]. vm_compute. discriminate.
Defined.

(** C2 fails as stated: a page that holds an item but comes without its
    count ends the pagination; no further messages.get call is made and the
    receiver finishes. *)
Lemma C2_page_without_count_ends_pagination :
  let result := Examples.page_without_count [Examples.item 11 200 5 "hi" []] in
  let run := exec (MessageRecv.step (H := plain_host))
                  (MessageRecv.run_unread true).1 [api_result result] in
  field_array result "items" = Some [Examples.item 11 200 5 "hi" []]
  /\ api_calls "messages.get" run.2 = []
  /\ MessageRecv.waits run.1 = MessageRecv.deleted.
Proof. by vm_compute. Qed.

(** ** Rendering of attachments *)






(** ** Items that lack a field *)

Section Items.
Context `{Host}.
Import MessageRecv.

Lemma process_items_app (result : value) (l1 l2 : list value)
    (ms : list ReceivedMessage) :
  process_items result (l1 ++ l2) ms
  = ((process_items result l2 (process_items result l1 ms).1).1,
     (process_items result l1 ms).2
     ++ (process_items result l2 (process_items result l1 ms).1).2).
Proof.
  revert ms. induction l1 as [|v l1 IH]; intros ms.
  { simpl. by destruct (process_items result l2 ms). }
  cbn [app process_items].
  destruct (field_double v "user_id"), (field_double v "date"),
    (field_string v "body"), (field_double v "id");
    try (rewrite IH; destruct (process_items result l1 ms); done).
  match goal with
  | |- context [match ?x with (_, _) => _ end] => destruct x as [m1 log1]
  end.
  rewrite IH. destruct (process_items result l1 (ms ++ [m1])); simpl.
  by rewrite app_assoc.
Qed.

Lemma process_items_malformed (result v : value) (items : list value)
    (ms : list ReceivedMessage) :
  well_formed v = false ->
  process_items result (v :: items) ms
  = ((process_items result items ms).1,
     strange_response result :: (process_items result items ms).2).
Proof.
  unfold well_formed. intros Hv. cbn [process_items].
  destruct (field_double v "user_id"), (field_double v "date"),
    (field_string v "body"), (field_double v "id");
    by destruct (process_items result items ms).
Qed.

(** [process_result] skips an item that lacks a field and goes on: the
    page gives the messages of its other items, counts all its items, and
    logs the response once more. *)
Lemma process_result_skips_malformed (result : value) (count : Z)
    (before after : list value) (v : value) (ms : list ReceivedMessage) :
  field_double result "count" = Some count ->
  field_array result "items" = Some (before ++ v :: after) ->
  well_formed v = false ->
  (process_result result ms).1.1 = (process_items result (before ++ after) ms).1
  /\ (process_result result ms).1.2
     = to_int (Z.of_nat (length (before ++ v :: after)))
  /\ strange_response result ∈ (process_result result ms).2.
Proof.
  intros Hcount Hitems Hv. unfold process_result. rewrite Hcount, Hitems.
  rewrite !process_items_app, process_items_malformed by done.
  destruct (process_items result before ms) as [ms1 log1]; cbn [fst snd].
  destruct (process_items result after ms1) as [ms2 log2]; cbn [fst snd].
  split_and!; [done..|]. set_solver.
Qed.

End Items.

(** C8 on the earlier receiver: an item without its date ends [receive]
    for the whole page; the well-formed item after it is not accumulated,
    nothing is delivered and no further page is asked for.  On the same
    page [process_result] of vk-message-recv skips the item and keeps the
    message after it. *)
Theorem C8_legacy_receive_drops_page :
  let result := Examples.page 2 [Examples.item_without_date 11 5 "hi";
                                 Examples.item 12 100 6 "yo" []] in
  let run := exec MessageLegacy.step (MessageLegacy.run true).1 [api_result result] in
  MessageLegacy.m_messages run.1 = []
  /\ MessageLegacy.waits run.1 = MessageLegacy.deleted
  /\ deliveries run.2 = []
  /\ api_calls "messages.get" run.2 = []
  /\ MessageRecv.text
       <$> (MessageRecv.process_result (H := plain_host) result []).1.1 = ["yo"].
Proof. by vm_compute. Qed.

(** An application of [process_result_skips_malformed]: the page of C8. *)
Lemma process_result_skips_malformed_witness :
  let v := Examples.item_without_date 11 5 "hi" in
  let result := Examples.page 2 [v; Examples.item 12 100 6 "yo" []] in
  (MessageRecv.process_result (H := plain_host) result []).1.1
  = (MessageRecv.process_items (H := plain_host) result
       ([] ++ [Examples.item 12 100 6 "yo" []]) []).1
  /\ (MessageRecv.process_result (H := plain_host) result []).1.2
     = to_int (Z.of_nat (length ([] ++ v :: [Examples.item 12 100 6 "yo" []])))
  /\ MessageRecv.strange_response result
     ∈ (MessageRecv.process_result (H := plain_host) result []).2.
Proof.
  intros v result.
  exact (process_result_skips_malformed (H := plain_host) result 2 [] _ v []
           eq_refl eq_refl eq_refl).
Defined.

(** ** The active set of buddies *)

Section ActiveSet.
Context `{Host}.
Variable new_info : Buddy.VkUserInfo.
Import Buddy.

Lemma field_double_get (fields : value) (key : string) (d : Z) :
  field_double fields key = Some d -> get fields key = returns (number d).
Proof.
  unfold field_double, field, get. destruct fields; try done.
  destruct (find key o) as [[]|]; naive_solver.
Qed.

Lemma refused_returns_zero (user_infos : gmap Z VkUserInfo) (fields : value) :
  refused fields -> (on_update_user_info new_info user_infos fields).2 = returns 0.
Proof.
  intros Href. unfold on_update_user_info.
  destruct (field_double fields "id"); [|done].
  destruct (field_string fields "first_name"); [|done].
  destruct (field_string fields "last_name"); [|done].
  destruct (field_string fields "deactivated") eqn:Hdeact; [done|].
  destruct Href as [Hd|(d & Hd & Hne)].
  { rewrite Hdeact in Hd. by destruct Hd. }
  rewrite (field_double_get _ _ _ Hd). cbn [get_double].
  destruct (Z.eqb_spec d 1); done.
Qed.

(** What [on_update_user_info] returns does not depend on the infos kept
    so far. *)
Lemma on_update_user_info_returns (ui1 ui2 : gmap Z VkUserInfo) (fields : value) :
  (on_update_user_info new_info ui1 fields).2
  = (on_update_user_info new_info ui2 fields).2.
Proof.
  unfold on_update_user_info.
  destruct (field_double fields "id"); [|done].
  destruct (field_string fields "first_name"); [|done].
  destruct (field_string fields "last_name"); [|done].
  destruct (field_string fields "deactivated"); [done|].
  destruct (get fields "can_write_private_message") as [cw|]; [|done].
  destruct (get_double cw) as [d|]; [|done].
  destruct (negb (d =? 1)); [done|].
  destruct (get fields "last_seen") as [ls|]; [|done].
  destruct (get ls "time") as [t|]; [|done].
  by destruct (get_double t).
Qed.

Lemma update_items_returns (ui1 ui2 : gmap Z VkUserInfo) (items : list value)
    (buddy_uids : gset Z) :
  (update_items new_info ui1 items buddy_uids).2
  = (update_items new_info ui2 items buddy_uids).2.
Proof.
  revert ui1 ui2 buddy_uids.
  induction items as [|v items IH]; intros ui1 ui2 buddy_uids; [done|].
  cbn [update_items]. destruct v; try apply IH.
  pose proof (on_update_user_info_returns ui1 ui2 (object o)) as Hret.
  destruct (on_update_user_info new_info ui1 (object o)) as [ui1' r1],
    (on_update_user_info new_info ui2 (object o)) as [ui2' r2].
  simpl in Hret. subst r2. destruct r1; [apply IH|done].
Qed.

Lemma update_items_without_refused (user_infos : gmap Z VkUserInfo)
    (before after : list value) (fields : value) (buddy_uids : gset Z) :
  refused fields ->
  (update_items new_info user_infos (before ++ fields :: after) buddy_uids).2
  = (update_items new_info user_infos (before ++ after) buddy_uids).2.
Proof.
  intros Href. revert user_infos buddy_uids.
  induction before as [|v before IH]; intros user_infos buddy_uids.
  - cbn [app update_items].
    pose proof (refused_returns_zero user_infos fields Href) as Hret.
    destruct fields as [|b|d0|s0|a|o];
      try (exfalso; destruct Href as [Hd|(d & Hd & _)]; [by destruct Hd|done]).
    destruct (on_update_user_info new_info user_infos (object o)) as [ui' r].
    simpl in Hret. subst r. apply update_items_returns.
  - cbn [app update_items]. destruct v; try apply IH.
    destruct (on_update_user_info new_info user_infos (object o)) as [ui' [uid|]];
      [apply IH|done].
Qed.

End ActiveSet.



(** The active set of that response holds the two other users. *)
Example active_set_of_three_users :
  (Buddy.on_update_user_infos (H := plain_host) Examples.new_info ∅
     (array [Examples.user 1 1; Examples.user 2 0; Examples.user 3 1]) false).2
  = Buddy.returns ({[1; 3]} : gset Z).
Proof. by vm_compute. Qed.

(** ** CAPTCHA on send *)

Lemma send_params_captcha `{Host} (m : MessageSend.SendMessage)
    (captcha_sid captcha_key : string) :
  MessageSend.send_params m captcha_sid captcha_key
  = MessageSend.send_params m EmptyString EmptyString
    ++ captcha_params captcha_sid captcha_key.
Proof.
  reflexivity.
Qed.




(** ** Long messages *)

Lemma substring_all (s : string) : String.substring 0 (String.length s) s = s.
Proof. induction s as [|c s IH]; [done|]. simpl. by rewrite IH. Qed.

Lemma substring_split (k : nat) (s : string) :
  (k <= String.length s)%nat ->
  String.substring 0 k s +:+ String.substring k (String.length s - k) s = s.
Proof.
  revert s. induction k as [|k IH]; intros s Hk.
  - rewrite Nat.sub_0_r, substring_all. by destruct s.
  - destruct s as [|c s]; [simpl in Hk; lia|].
    simpl in Hk. cbn [String.substring String.length Nat.sub].
    rewrite string_app_cons, IH by lia. done.
Qed.

Lemma substring_rest_length (k : nat) (s : string) :
  (k <= String.length s)%nat ->
  String.length (String.substring k (String.length s - k) s)
  = (String.length s - k)%nat.
Proof.
  revert s. induction k as [|k IH]; intros s Hk.
  - by rewrite Nat.sub_0_r, substring_all.
  - destruct s as [|c s]; [simpl in Hk; lia|].
    simpl in Hk. cbn [String.substring String.length Nat.sub]. apply IH. lia.
Qed.

Lemma sent_texts_app (l1 l2 : list action) :
  sent_texts (l1 ++ l2) = sent_texts l1 ++ sent_texts l2.
Proof. unfold sent_texts. by rewrite api_calls_app, omap_app. Qed.

Section Chunks.
Context `{Host}.
Hypothesis prefix_le :
  forall s, (max_urlencoded_prefix s <= String.length s)%nat.
Hypothesis prefix_pos :
  forall s, s <> EmptyString -> (0 < max_urlencoded_prefix s)%nat.
Import MessageSend.

Lemma exec_done (m : SendMessage) (ids : gset Z) (evs : list event) :
  (exec step {| message := m; sent_msg_ids := ids; waits := done |} evs).2 = [].
Proof.
  induction evs as [|ev evs IH]; [done|].
  rewrite exec_cons_2. unfold step at 1 2. cbn [waits fst snd app]. exact IH.
Qed.

Lemma chunks_make_text (n : nat) :
  forall (m : SendMessage) (ids : gset Z) (sid key : string) (replies : list Z)
         (w : pending),
    String.length (text m) = n ->
    (n <= length replies)%nat ->
    let s := {| message := m; sent_msg_ids := ids; waits := w |} in
    concat_texts
      (sent_texts
         ((send_message_internal s sid key).2
          ++ (exec step (send_message_internal s sid key).1
                ((fun d => api_result (number d)) <$> replies)).2))
    = text m.
Proof.
  induction (lt_wf n) as [n _ IH];
    intros m ids sid key replies w Hn Hlen s.
  subst s. unfold send_message_internal at 1 2.
  cbn [fst snd message sent_msg_ids].
  rewrite sent_texts_app.
  set (text_len := max_urlencoded_prefix (text m)).
  pose proof (prefix_le (text m)) as Hle. fold text_len in Hle.
  assert (sent_texts [vk_call_api "messages.send" (send_params m sid key)]
          = [if (text_len =? String.length (text m))%nat then text m
             else String.substring 0 text_len (text m)]) as ->.
  { unfold sent_texts, send_params. cbn. by destruct (negb (user_id m =? 0)). }
  destruct replies as [|d replies].
  - simpl in Hlen.
    assert (text m = EmptyString) as Hm
      by (destruct (text m); [done|simpl in *; lia]).
    rewrite Hm in *. simpl in Hle.
    by assert (text_len = 0%nat) as -> by lia.
  - cbn [fmap list_fmap]. rewrite exec_cons_2.
    unfold step at 1 3; cbn [waits message sent_msg_ids].
    destruct (Nat.eqb_spec text_len (String.length (text m))) as [Heq|Hne].
    + cbn [fst snd].
      rewrite sent_texts_app, exec_done.
      assert (sent_texts (if success_cb m then [call_success_cb] else []) = [])
        as -> by (by destruct (success_cb m)).
      cbn. apply string_app_nil_r.
    + set (rest := String.substring text_len
                     (String.length (text m) - text_len) (text m)).
      assert (text m <> EmptyString) as Hnonempty.
      { intros Hm. rewrite Hm in *. simpl in *. lia. }
      pose proof (prefix_pos _ Hnonempty) as Hpos. fold text_len in Hpos.
      assert (String.length rest = (String.length (text m) - text_len)%nat)
        as Hrest by (by apply substring_rest_length).
      simpl in Hlen.
      specialize (IH (String.length rest) ltac:(lia) (with_text rest m)
                    ({[to_uint64 d]} ∪ ids) sid key replies
                    (wait_send sid key text_len) eq_refl ltac:(lia)).
      cbv zeta in IH.
      etrans; [|apply (substring_split text_len (text m) Hle)].
      cbn [concat_texts foldr app]. f_equal. exact IH.
Qed.

End Chunks.

(** A message too long for one call is sent in parts, one call after the
    reply to the other, and the parts in the order of the calls make up the
    text: no character is lost, repeated or moved.  The host's
    [max_urlencoded_prefix] is taken to give a length within the text, and
    not 0 for a text that is not empty. *)
Theorem long_message_sent_in_order `{Host} (m : MessageSend.SendMessage)
    (ids : gset Z) (sid key : string) (replies : list Z) :
  (forall s, (max_urlencoded_prefix s <= String.length s)%nat) ->
  (forall s, s <> EmptyString -> (0 < max_urlencoded_prefix s)%nat) ->
  (String.length (MessageSend.text m) <= length replies)%nat ->
  let s := {| MessageSend.message := m; MessageSend.sent_msg_ids := ids;
              MessageSend.waits := MessageSend.done |} in
  concat_texts
    (sent_texts
       ((MessageSend.send_message_internal s sid key).2
        ++ (exec MessageSend.step (MessageSend.send_message_internal s sid key).1
              ((fun d => api_result (number d)) <$> replies)).2))
  = MessageSend.text m.
Proof.
  intros Hle Hpos Hlen. by eapply chunks_make_text.
Qed.

(** An application: a text of eleven characters with calls of three
    characters. *)
Lemma long_message_sent_in_order_witness :
  let m := {| MessageSend.user_id := 9; MessageSend.chat_id := 0;
              MessageSend.text := "hello world";
              MessageSend.attachments := EmptyString;
              MessageSend.success_cb := true; MessageSend.error_cb := true |} in
  let s := {| MessageSend.message := m; MessageSend.sent_msg_ids := ∅;
              MessageSend.waits := MessageSend.done |} in
  let replies := [1; 2; 3; 4; 5; 6; 7; 8; 9; 10; 11] in
  concat_texts
    (sent_texts
       ((MessageSend.send_message_internal (H := short_host) s
           EmptyString EmptyString).2
        ++ (exec (MessageSend.step (H := short_host))
              (MessageSend.send_message_internal (H := short_host) s
                 EmptyString EmptyString).1
              ((fun d => api_result (number d)) <$> replies)).2))
  = "hello world".
Proof.
  intros m s replies.
  apply (long_message_sent_in_order (H := short_host) m ∅ EmptyString
           EmptyString replies).
  - intros t. apply Nat.le_min_r.
  - intros [|c t] Ht; [done|].
    unfold max_urlencoded_prefix, short_host. cbn [String.length]. lia.
  - cbn. lia.
Defined.

(** The parts of that text. *)
Example parts_of_hello_world :
  let m := {| MessageSend.user_id := 9; MessageSend.chat_id := 0;
              MessageSend.text := "hello world";
              MessageSend.attachments := EmptyString;
              MessageSend.success_cb := true; MessageSend.error_cb := true |} in
  let s := {| MessageSend.message := m; MessageSend.sent_msg_ids := ∅;
              MessageSend.waits := MessageSend.done |} in
  sent_texts
    ((MessageSend.send_message_internal (H := short_host) s
        EmptyString EmptyString).2
     ++ (exec (MessageSend.step (H := short_host))
           (MessageSend.send_message_internal (H := short_host) s
              EmptyString EmptyString).1
           ((fun d => api_result (number d)) <$> [1; 2; 3; 4])).2)
  = ["hel"; "lo "; "wor"; "ld"].
Proof. by vm_compute. Qed.

(** ** Upload of the images of a message *)

Section Upload.
Context `{Host}.
Import MessageSend.

Lemma uploads_app (l1 l2 : list action) :
  uploads (l1 ++ l2) = uploads l1 ++ uploads l2.
Proof. apply omap_app. Qed.

Lemma images_uploaded_calls (s : Sender) (img_attachments : string) :
  (images_uploaded s img_attachments).2
  = [vk_call_api "messages.send"
       (send_params (with_images (message s) img_attachments)
                    EmptyString EmptyString)].
Proof.
  unfold images_uploaded, with_images, send_message_internal, add_attachment.
  cbn [message snd with_attachments attachments text].
  by destruct (negb (empty img_attachments)).
Qed.

(** The uploads from [offset] on, all of them successful: one upload per
    reply but the last, at the offsets that follow, and then the call of
    messages.send with the attachments in the order of the replies. *)
Lemma upload_loop (vs : list value) (ps : list (Z * Z)) :
  Forall2 saves vs ps ->
  forall (m : SendMessage) (ids : gset Z) (images : UploadImgstoreImages)
         (offset : Z),
    vs <> [] ->
    0 <= offset ->
    offset + Z.of_nat (length vs) = Z.of_nat (length (img_ids images)) ->
    Z.of_nat (length (img_ids images)) <= INT_MAX ->
    let s := {| message := m; sent_msg_ids := ids;
                waits := wait_upload images offset |} in
    uploads (exec step s (upload_done <$> vs)).2
    = img_at images <$> seqZ (offset + 1) (Z.of_nat (length vs) - 1)
    /\ api_calls "messages.send" (exec step s (upload_done <$> vs)).2
       = [send_params
            (with_images m (join_attachments (uploaded images)
                                             (photo_attachment <$> ps)))
            EmptyString EmptyString].
Proof.
  induction 1 as [|v p vs ps (fields & rest & -> & Howner & Hid) Hvs IH];
    intros m ids images offset Hne Hoff Hlen Hmax s; [done|].
  cbn [fmap list_fmap]. rewrite exec_cons_2.
  set (images' := {| img_ids := img_ids images;
                     uploaded := add_attachment (uploaded images)
                                                (photo_attachment p) |}).
  destruct vs as [|v' vs].
  - (* the last upload *)
    apply Forall2_nil_inv_l in Hvs as ->. simpl in Hlen.
    assert (step s (upload_done (array (fields :: rest)))
            = images_uploaded s (uploaded images')) as ->.
    { unfold step; cbn [waits s]. unfold photo_uploaded.
      rewrite Howner, Hid. cbn [img_ids].
      by destruct (Z.eqb_spec offset (Z.of_nat (length (img_ids images)) - 1));
        [|lia]. }
    cbn [fmap list_fmap exec snd]. rewrite app_nil_r, images_uploaded_calls.
    by split.
  - (* an upload with more to follow *)
    cbn [length] in Hlen.
    assert (step s (upload_done (array (fields :: rest)))
            = ({| message := m; sent_msg_ids := ids;
                  waits := wait_upload images' (offset + 1) |},
               [upload_photo_for_im (img_at images (offset + 1))])) as ->.
    { unfold step; cbn [waits s]. unfold photo_uploaded.
      rewrite Howner, Hid. cbn [img_ids].
      destruct (Z.eqb_spec offset (Z.of_nat (length (img_ids images)) - 1));
        [lia|].
      rewrite to_int_small by (unfold INT_MAX in *; lia). done. }
    cbn [fst snd].
    specialize (IH m ids images' (offset + 1)).
    destruct IH as [IH1 IH2];
      [done|lia|unfold images'; cbn [length img_ids]; lia|done|].
    split.
    + rewrite uploads_app, IH1. cbn [uploads omap app].
      replace (Z.of_nat (length (array (fields :: rest) :: v' :: vs)) - 1)
        with (Z.succ (Z.of_nat (length (v' :: vs)) - 1))
        by (cbn [length]; lia).
      rewrite (seqZ_cons (offset + 1)) by (cbn [length]; lia).
      rewrite Z.pred_succ. cbn [fmap list_fmap]. f_equal.
    + by rewrite api_calls_app, IH2.
Qed.

Lemma img_at_reverse (images : UploadImgstoreImages) :
  img_at images <$> seqZ 0 (Z.of_nat (length (img_ids images)))
  = reverse (img_ids images).
Proof.
  apply list_eq. intros i.
  rewrite list_lookup_fmap.
  destruct (decide (i < length (img_ids images))%nat) as [Hi|Hi].
  - rewrite lookup_seqZ_lt by lia. simpl.
    rewrite reverse_lookup by done.
    unfold img_at.
    replace (Z.to_nat (Z.of_nat (length (img_ids images)) - (0 + Z.of_nat i) - 1))
      with (length (img_ids images) - S i)%nat by lia.
    destruct (lookup_lt_is_Some_2 (img_ids images)
                (length (img_ids images) - S i)%nat) as [x Hx]; [lia|].
    rewrite Hx. by rewrite (list_lookup_total_correct _ _ _ Hx).
  - rewrite lookup_seqZ_ge by lia. simpl.
    symmetry. apply lookup_ge_None. rewrite length_reverse. lia.
Qed.

End Upload.

Section UploadOrder.
Context `{Host}.
Import MessageSend.

Lemma empty_app (s1 s2 : string) : empty (s1 +:+ s2) = empty s1 && empty s2.
Proof. by destruct s1. Qed.

Lemma join_attachments_not_empty (acc : string) (ps : list (Z * Z)) :
  ps <> [] -> empty (join_attachments acc (photo_attachment <$> ps)) = false.
Proof.
  revert acc. induction ps as [|p ps IH]; intros acc Hne; [done|].
  destruct ps as [|p' ps].
  - change (empty (add_attachment acc (photo_attachment p)) = false).
    unfold add_attachment. rewrite empty_app. apply andb_false_r.
  - by apply (IH (add_attachment acc (photo_attachment p))).
Qed.

Lemma show_error_uploads (s : Sender) : uploads (show_error s).2 = [].
Proof. unfold show_error. simpl. by destruct (error_cb (message s)). Qed.

Lemma images_uploaded_uploads (s : Sender) (img_attachments : string) :
  uploads (images_uploaded s img_attachments).2 = [].
Proof. by rewrite images_uploaded_calls. Qed.

(** An upload is started only when the one before it is done. *)
Lemma step_uploads (s : Sender) (ev : event) :
  uploads (step s ev).2 = []
  \/ exists v images offset img_id,
       ev = upload_done v /\ waits s = wait_upload images offset
       /\ uploads (step s ev).2 = [img_id].
Proof.
  unfold step.
  destruct (waits s) as [images offset|sid key text_len|sid|] eqn:Hw,
    ev as [result|error|img_id| v | | captcha_key |]; try by left.
  - unfold photo_uploaded.
    destruct v as [| | | |[|fields rest]|];
      try (left; destruct (show_error s) eqn:Hs; simpl;
           by rewrite <-(show_error_uploads s), Hs).
    destruct (field_double fields "owner_id"), (field_double fields "id");
      try (left; destruct (show_error s) eqn:Hs; simpl;
           by rewrite <-(show_error_uploads s), Hs).
    destruct (_ =? _).
    + left. apply images_uploaded_uploads.
    + right. eauto 10.
  - left. apply show_error_uploads.
  - left. destruct result;
      try (destruct (show_error s) eqn:Hs; simpl;
           by rewrite <-(show_error_uploads s), Hs).
    cbn [message]. by repeat case_match.
  - left. unfold process_im_error.
    repeat case_match; simplify_eq/=; try done;
      try apply show_error_uploads;
      by match goal with
         | Hs : show_error s = _ |- _ =>
             rewrite <-(show_error_uploads s), Hs
         end.
  - left. apply show_error_uploads.
Qed.

End UploadOrder.

(** C4, as the code has it: the images of a message are uploaded one at a
    time, each upload started by the reply to the one before it, beginning
    with the last image reference of the text and ending with the first;
    when all uploads succeed, the attachment parameter of messages.send
    lists the saved photos in the order of the uploads, after the
    attachments found in the text: the reverse of the order in which the
    image references appeared. *)
Theorem C4_images_uploaded_last_first `{Host} (user_id chat_id : Z)
    (raw_message : string) (success_cb error_cb : bool)
    (vs : list value) (ps : list (Z * Z)) :
  let img_ids := (MessageSend.remove_img_tags raw_message).2 in
  let text := purple_markup_strip_html (MessageSend.remove_img_tags raw_message).1 in
  img_ids <> [] ->
  Z.of_nat (length img_ids) <= INT_MAX ->
  length vs = length img_ids ->
  Forall2 saves vs ps ->
  let start :=
    MessageSend.send_message user_id chat_id raw_message success_cb error_cb in
  let run := exec MessageSend.step start.1 (upload_done <$> vs) in
  uploads (start.2 ++ run.2) = reverse img_ids
  /\ (exists params,
        api_calls "messages.send" (start.2 ++ run.2)
        = [("attachment",
            add_attachment (parse_vkcom_attachments text)
              (join_attachments EmptyString (photo_attachment <$> ps)))
           :: params])
  /\ forall s ev,
       uploads (MessageSend.step s ev).2 = []
       \/ exists v images offset img_id,
            ev = upload_done v
            /\ MessageSend.waits s = MessageSend.wait_upload images offset
            /\ uploads (MessageSend.step s ev).2 = [img_id].
Proof.
  intros img_ids text Hne Hmax Hlen Hsaves start run.
  split_and!; [| |apply step_uploads].
  all: subst start run; unfold MessageSend.send_message.
  all: destruct (MessageSend.remove_img_tags raw_message)
         as [clean ids] eqn:Hrm; cbn [fst snd] in *; subst img_ids text.
  all: unfold MessageSend.upload_imgstore_images.
  all: rewrite bool_decide_eq_false_2 by done.
  all: unfold MessageSend.upload_imgstore_images_impl;
         cbn [fst snd MessageSend.message MessageSend.sent_msg_ids].
  all: set (images := {| MessageSend.img_ids := ids;
                         MessageSend.uploaded := EmptyString |}).
  all: set (m := {| MessageSend.user_id := user_id |}).
  all: destruct (upload_loop vs ps Hsaves m ∅ images 0) as [Hup Hsend];
         [by intros ->; destruct ids|done|cbn [MessageSend.img_ids images]; lia
         |done|].
  - rewrite !uploads_app, Hup. cbn [uploads omap].
    assert (uploads (if negb (user_id =? 0)
                     then [add_buddy_if_needed user_id] else []) = []) as ->.
    { by destruct (negb _). }
    rewrite app_nil_r. cbn [app].
    etrans; [|exact (img_at_reverse images)].
    assert (0 < length vs)%nat by (destruct ids; [done|simpl in Hlen; lia]).
    replace (Z.of_nat (length (MessageSend.img_ids images)))
      with (Z.succ (Z.of_nat (length vs) - 1))
      by (cbn [MessageSend.img_ids images]; lia).
    rewrite (seqZ_cons 0) by lia.
    by rewrite Z.pred_succ.
  - rewrite !api_calls_app, Hsend. cbn [api_calls omap].
    assert (api_calls "messages.send"
              (if negb (user_id =? 0)
               then [add_buddy_if_needed user_id] else []) = []) as ->.
    { by destruct (negb _). }
    unfold with_images.
    rewrite join_attachments_not_empty
      by (intros ->; apply Forall2_nil_inv_r in Hsaves as ->; by destruct ids).
    eexists. reflexivity.
Qed.

(** An application of C4: the text with the images 1 and 22, in this
    order, whose uploads are saved as the photos 22 and 1 of owner 7. *)
Lemma C4_images_uploaded_witness :
  let img_ids := (MessageSend.remove_img_tags Examples.two_images).2 in
  let text :=
    purple_markup_strip_html (Host := plain_host)
      (MessageSend.remove_img_tags Examples.two_images).1 in
  let vs := [Examples.saved 7 22; Examples.saved 7 1] in
  let ps := [(7, 22); (7, 1)] in
  let start :=
    MessageSend.send_message (H := plain_host) 9 0 Examples.two_images true true in
  let run := exec (MessageSend.step (H := plain_host)) start.1 (upload_done <$> vs) in
  uploads (start.2 ++ run.2) = reverse img_ids
  /\ (exists params,
        api_calls "messages.send" (start.2 ++ run.2)
        = [("attachment",
            add_attachment (parse_vkcom_attachments (Host := plain_host) text)
              (join_attachments EmptyString (photo_attachment <$> ps)))
           :: params])
  /\ forall s ev,
       uploads (MessageSend.step (H := plain_host) s ev).2 = []
       \/ exists v images offset img_id,
            ev = upload_done v
            /\ MessageSend.waits s = MessageSend.wait_upload images offset
            /\ uploads (MessageSend.step (H := plain_host) s ev).2 = [img_id].
Proof.
  intros img_ids text vs ps start run.
  apply (C4_images_uploaded_last_first (H := plain_host) 9 0 Examples.two_images
           true true vs ps).
  - by vm_compute.
  - by vm_compute.
  - reflexivity.
  - repeat constructor; eexists _, _; split_and!; reflexivity.
Defined.

(** C4 fails as stated: of the images 1 and 22 of the text, 22 is uploaded
    first, and the photo it is saved as comes first in the attachments. *)
Lemma C4_attachments_in_reverse_order :
  let start :=
    MessageSend.send_message (H := plain_host) 9 0 Examples.two_images true true in
  let run :=
    exec (MessageSend.step (H := plain_host)) start.1
         [upload_done (Examples.saved 7 22); upload_done (Examples.saved 7 1)] in
  MessageSend.remove_img_tags Examples.two_images = ("ab", [1; 22])
  /\ uploads (start.2 ++ run.2) = [22; 1]
  /\ api_calls "messages.send" (start.2 ++ run.2)
     = [[("attachment", "photo7_22,photo7_1"); ("type", "1");
         ("message", "ab"); ("user_id", "9")]].
Proof. by vm_compute. Qed.

(** ** Substitution of the thumbnail placeholders *)

Lemma has_app (c : ascii) (s1 s2 : string) :
  has c (s1 +:+ s2) = has c s1 || has c s2.
Proof.
  induction s1 as [|a s1 IH]; [done|].
  rewrite string_app_cons. simpl. by rewrite IH, orb_assoc.
Qed.

Lemma prefix_cons (a b : ascii) (p s : string) :
  String.prefix (String a p) (String b s) = Ascii.eqb a b && String.prefix p s.
Proof.
  simpl. destruct (Ascii.ascii_dec a b) as [->|Hne].
  - by rewrite Ascii.eqb_refl.
  - by apply Ascii.eqb_neq in Hne as ->.
Qed.

Lemma prefix_nil (s : string) : String.prefix EmptyString s = true.
Proof. by destruct s. Qed.

Lemma prefix_app (p s : string) : String.prefix p (p +:+ s) = true.
Proof.
  induction p as [|a p IH]; [apply prefix_nil|].
  by rewrite string_app_cons, prefix_cons, Ascii.eqb_refl, IH.
Qed.

Lemma prefix_app_iff (p s : string) :
  String.prefix p s = true <-> exists r, s = p +:+ r.
Proof.
  split; [|intros [r ->]; apply prefix_app].
  revert s. induction p as [|a p IH]; intros s Hp.
  { by exists s. }
  destruct s as [|b s]; [done|].
  rewrite prefix_cons in Hp. apply andb_true_iff in Hp as [Hab Hp].
  apply Ascii.eqb_eq in Hab as ->. destruct (IH s Hp) as [r ->]. by exists r.
Qed.

Lemma occurs_prefix (p s : string) : String.prefix p s = true -> occurs p s = true.
Proof. intros Hp. destruct s; simpl in *; by rewrite Hp. Qed.

Lemma occurs_cons (p : string) (c : ascii) (s : string) :
  occurs p (String c s) = String.prefix p (String c s) || occurs p s.
Proof. done. Qed.

Lemma occurs_app_r (p x s : string) : occurs p s = true -> occurs p (x +:+ s) = true.
Proof.
  intros Hs. induction x as [|a x IH]; [done|].
  rewrite string_app_cons, occurs_cons, IH. apply orb_true_r.
Qed.

(** A text that starts with [<] does not start inside a text without [<]. *)
Lemma occurs_after (p u s : string) :
  has "<" u = false -> occurs (String "<" p) (u +:+ s) = occurs (String "<" p) s.
Proof.
  induction u as [|a u IH]; [done|]. intros Hu. simpl in Hu.
  apply orb_false_iff in Hu as [Ha Hu].
  rewrite string_app_cons, occurs_cons, prefix_cons, IH by done.
  by rewrite Ascii.eqb_sym, Ha.
Qed.

(** Two tags of which one is a prefix of a text that starts with the
    other are the same tag. *)
Lemma tag_body_prefix (g t s : string) :
  has ">" g = false -> has ">" t = false ->
  String.prefix (g +:+ ">") (t +:+ ">" +:+ s) = true -> g = t.
Proof.
  revert t. induction g as [|a g IH]; intros t Hg Ht Hp.
  - destruct t as [|b t]; [done|]. exfalso.
    rewrite string_app_nil_l, string_app_cons, prefix_cons in Hp.
    simpl in Ht. apply orb_false_iff in Ht as [Hb _].
    apply andb_true_iff in Hp as [Hp _]. by rewrite Ascii.eqb_sym, Hb in Hp.
  - simpl in Hg. apply orb_false_iff in Hg as [Ha Hg].
    destruct t as [|b t].
    + exfalso. rewrite string_app_cons, string_app_nil_l in Hp.
      change (">" +:+ s) with (String ">" s) in Hp.
      rewrite prefix_cons in Hp. apply andb_true_iff in Hp as [Hp _].
      by rewrite Ha in Hp.
    + simpl in Ht. apply orb_false_iff in Ht as [Hb Ht].
      rewrite !string_app_cons, prefix_cons in Hp.
      apply andb_true_iff in Hp as [Hab Hp].
      apply Ascii.eqb_eq in Hab as ->. f_equal. by apply IH.
Qed.

Section Replace.
Variables from to : string.

Lemma str_replace_nil : str_replace EmptyString from to = EmptyString.
Proof. done. Qed.

Lemma str_replace_dropped (x s : string) :
  str_replace_from from to (String.length x) (x +:+ s) = str_replace s from to.
Proof.
  induction x as [|a x IH]; [done|].
  by rewrite string_app_cons.
Qed.

Lemma str_replace_match (a : ascii) (f s : string) :
  from = String a f ->
  str_replace (from +:+ s) from to = to +:+ str_replace s from to.
Proof.
  intros Hfrom. unfold str_replace at 1.
  rewrite Hfrom at 2. rewrite string_app_cons. cbn [str_replace_from].
  rewrite <-string_app_cons, <-Hfrom, prefix_app.
  rewrite Hfrom at 2. cbn [String.length Nat.pred].
  by rewrite str_replace_dropped.
Qed.

Lemma str_replace_other (c : ascii) (s : string) :
  String.prefix from (String c s) = false ->
  str_replace (String c s) from to = String c (str_replace s from to).
Proof. intros Hp. unfold str_replace. cbn [str_replace_from]. by rewrite Hp. Qed.

(** The two shapes of a text that is not empty. *)
Lemma str_replace_cases (s : string) :
  s = EmptyString
  \/ (exists s', s = from +:+ s' /\ String.prefix from s = true)
  \/ (exists c s', s = String c s' /\ String.prefix from s = false).
Proof.
  destruct s as [|c s]; [by left|]. right.
  destruct (String.prefix from (String c s)) eqn:Hp.
  - left. apply prefix_app_iff in Hp as [r Hr]. eauto.
  - right. eauto.
Qed.

End Replace.

Section ReplaceTags.
Variables from to : string.
Hypothesis from_starts : exists f, from = String "<" f.
Hypothesis to_tag : tag to.

(** A text without [<] at the head of the result was at the head of the
    source. *)
Lemma prefix_replaced (u s : string) :
  has "<" u = false ->
  String.prefix u (str_replace s from to) = true -> String.prefix u s = true.
Proof.
  destruct from_starts as [f Hf]. destruct to_tag as (t & Ht & _).
  revert s. induction u as [|a u IH]; intros s Hu Hp; [apply prefix_nil|].
  simpl in Hu. apply orb_false_iff in Hu as [Ha Hu].
  destruct (str_replace_cases from s) as [->|[(s' & -> & _)|(c & s' & -> & Hn)]].
  - done.
  - rewrite (str_replace_match _ _ _ _ _ Hf), Ht, string_app_cons, prefix_cons in Hp.
    by rewrite Ha in Hp.
  - rewrite str_replace_other, prefix_cons in Hp by done.
    apply andb_true_iff in Hp as [Hac Hp].
    rewrite prefix_cons, Hac. by apply IH.
Qed.

(** A tag other than [to] that is in the result was in the source, and it
    is not [from]. *)
Lemma occurs_replaced (g : string) :
  has "<" g = false -> has ">" g = false ->
  String "<" (g +:+ ">") <> to ->
  forall s,
    occurs (String "<" (g +:+ ">")) (str_replace s from to) = true ->
    occurs (String "<" (g +:+ ">")) s = true /\ String "<" (g +:+ ">") <> from.
Proof.
  intros Hg1 Hg2 Hne s.
  destruct from_starts as [f Hf]. destruct to_tag as (t & Ht & Ht1 & Ht2).
  remember (String.length s) as n eqn:Hn.
  revert s Hn. induction (lt_wf n) as [n _ IH]; intros s -> Ho.
  destruct (str_replace_cases from s) as [->|[(s' & -> & _)|(c & s' & -> & Hp)]].
  - done.
  - rewrite (str_replace_match _ _ _ _ _ Hf) in Ho.
    rewrite Ht, string_app_cons, occurs_cons, prefix_cons in Ho.
    apply orb_true_iff in Ho as [Ho|Ho].
    { exfalso. apply andb_true_iff in Ho as [_ Ho].
      rewrite string_app_assoc in Ho.
      apply tag_body_prefix in Ho; [|done..]. subst t. by apply Hne. }
    rewrite occurs_after in Ho
      by (rewrite has_app, Ht1; done).
    destruct (IH (String.length s')) with (s := s') as [Hs' Hfrom];
      [|done|by rewrite Ht|].
    { rewrite string_app_length, Hf. simpl. lia. }
    split; [by apply occurs_app_r|done].
  - rewrite str_replace_other, occurs_cons in Ho by done.
    apply orb_true_iff in Ho as [Ho|Ho].
    + rewrite prefix_cons in Ho. apply andb_true_iff in Ho as [Hc Ho].
      apply prefix_replaced in Ho; [|by rewrite has_app, Hg1].
      assert (String.prefix (String "<" (g +:+ ">")) (String c s') = true) as Hpre.
      { by rewrite prefix_cons, Hc, Ho. }
      split; [by apply occurs_prefix|].
      intros Heq. by rewrite <-Heq, Hpre in Hp.
    + destruct (IH (String.length s')) with (s := s') as [Hs' Hfrom];
        [simpl; lia|done..|].
      split; [|done]. rewrite occurs_cons, Hs'. apply orb_true_r.
Qed.

End ReplaceTags.

(** Substituting a tag for the tag [from] leaves no [from] in the text. *)
Lemma str_replace_removes (s from to : string) :
  tag from -> tag to -> from <> to ->
  occurs from (str_replace s from to) = false.
Proof.
  intros (f & Hf & Hf1 & Hf2) Hto Hne.
  destruct (occurs from (str_replace s from to)) eqn:Ho; [|done].
  exfalso. rewrite Hf in Ho at 1.
  apply occurs_replaced in Ho as [_ Ho]; [by rewrite <-Hf in Ho|eauto|done..|].
  by rewrite <-Hf.
Qed.

(** It brings in no tag but [to]. *)
Lemma str_replace_keeps_absent (s from to x : string) :
  tag from -> tag to -> tag x -> x <> to ->
  occurs x s = false -> occurs x (str_replace s from to) = false.
Proof.
  intros (f & Hf & _) Hto (g & Hg & Hg1 & Hg2) Hne Hs.
  destruct (occurs x (str_replace s from to)) eqn:Ho; [|done].
  exfalso. rewrite Hg in Ho at 1.
  apply occurs_replaced in Ho as [Ho _]; [|eauto|done..|by rewrite <-Hg].
  by rewrite <-Hg, Hs in Ho.
Qed.

(** A printed number has neither [<] nor [>]. *)
Lemma pretty_N_go_bracket (c : ascii) (x : N) (s : string) :
  c = "<"%char \/ c = ">"%char ->
  has c s = false -> has c (pretty_N_go x s) = false.
Proof.
  intros Hc. revert s. induction (N.lt_wf_0 x) as [x _ IH]; intros s Hs.
  assert (x = 0 \/ 0 < x)%N as [->|Hx] by lia.
  - by rewrite pretty_N_go_0.
  - rewrite pretty_N_go_step by done. apply IH.
    { by apply N.div_lt. }
    simpl. rewrite Hs, orb_false_r.
    unfold pretty_N_char. destruct Hc as [->| ->]; by repeat case_match.
Qed.

Lemma pretty_Z_bracket (c : ascii) (z : Z) :
  c = "<"%char \/ c = ">"%char -> has c (pretty z) = false.
Proof.
  intros Hc.
  assert (forall p : positive, has c (pretty (N.pos p)) = false) as Hpos.
  { intros p. unfold pretty, pretty_N. case_decide; [done|].
    by apply pretty_N_go_bracket. }
  destruct z as [|p|p]; unfold pretty, pretty_Z.
  - by destruct Hc as [->| ->].
  - apply Hpos.
  - rewrite has_app. unfold pretty, pretty_positive. rewrite Hpos.
    by destruct Hc as [->| ->].
Qed.

Lemma img_placeholder_tag (thumbnail : nat) :
  tag (MessageRecv.img_placeholder thumbnail).
Proof.
  exists ("thumbnail-placeholder-" +:+ pretty (to_int (Z.of_nat thumbnail))).
  split_and!.
  - unfold MessageRecv.img_placeholder. by rewrite string_app_assoc.
  - rewrite has_app, pretty_Z_bracket by auto. done.
  - rewrite has_app, pretty_Z_bracket by auto. done.
Qed.

Lemma printed_before_bracket (z1 z2 : Z) :
  pretty z1 +:+ ">" = pretty z2 +:+ ">" -> z1 = z2.
Proof.
  intros Heq. apply (inj pretty).
  pose proof (pretty_Z_bracket ">" z1 (or_intror eq_refl)) as H1.
  pose proof (pretty_Z_bracket ">" z2 (or_intror eq_refl)) as H2.
  revert H1 H2 Heq. generalize (pretty z1) (pretty z2). clear.
  induction s as [|a s IH]; intros [|b s0] H1 H2 Heq; try done.
  - rewrite string_app_nil_l, string_app_cons in Heq. simplify_eq/=.
  - rewrite string_app_nil_l, string_app_cons in Heq. simplify_eq/=.
  - rewrite !string_app_cons in Heq. simpl in H1, H2.
    apply orb_false_iff in H1 as [_ H1]. apply orb_false_iff in H2 as [_ H2].
    injection Heq as -> Heq. f_equal. by apply IH.
Qed.

(** The placeholders of the thumbnails of a message differ from one
    another: a placeholder names the index of its thumbnail. *)
Lemma img_placeholders_differ (t1 t2 : nat) :
  Z.of_nat t1 <= INT_MAX -> Z.of_nat t2 <= INT_MAX -> t1 <> t2 ->
  MessageRecv.img_placeholder t1 <> MessageRecv.img_placeholder t2.
Proof.
  intros Ht1 Ht2 Hne Heq. unfold MessageRecv.img_placeholder in Heq.
  apply (inj (String.app _)) in Heq. apply printed_before_bracket in Heq.
  rewrite !to_int_small in Heq by (unfold INT_MAX in *; lia). lia.
Qed.

(** An application of [img_placeholders_differ]: the first two
    placeholders of a message. *)
Lemma img_placeholders_differ_witness :
  MessageRecv.img_placeholder 0 <> MessageRecv.img_placeholder 1.
Proof.
  apply img_placeholders_differ; [by vm_compute|by vm_compute|lia].
Defined.

Lemma img_tag_tag (img_id : Z) : tag (MessageRecv.img_tag img_id).
Proof.
  exists ("img id=" +:+ dquote +:+ pretty img_id +:+ dquote).
  split_and!.
  - unfold MessageRecv.img_tag. by rewrite !string_app_assoc.
  - rewrite !has_app, pretty_Z_bracket by auto. done.
  - rewrite !has_app, pretty_Z_bracket by auto. done.
Qed.

Lemma img_placeholder_not_img_tag (thumbnail : nat) (img_id : Z) :
  MessageRecv.img_placeholder thumbnail <> MessageRecv.img_tag img_id.
Proof. unfold MessageRecv.img_placeholder, MessageRecv.img_tag. intros [=]. Qed.

Section Thumbnails.
Context `{Host}.
Import MessageRecv.

Lemma next_thumbnail_inv (ms rest : list ReceivedMessage) (message thumbnail : nat) :
  rest = drop message ms ->
  (forall j m, (j < message)%nat -> ms !! j = Some m -> resolved m) ->
  (forall m, ms !! message = Some m -> resolved_upto m thumbnail) ->
  match next_thumbnail rest message thumbnail with
  | Some (message', thumbnail', _) =>
      (forall j m, (j < message')%nat -> ms !! j = Some m -> resolved m)
      /\ (forall m, ms !! message' = Some m -> resolved_upto m thumbnail')
  | None => Forall resolved ms
  end.
Proof.
  revert message thumbnail.
  induction rest as [|m rest IH]; intros message thumbnail Hrest Hbefore Hat.
  - simpl. apply Forall_lookup. intros j m Hj. apply (Hbefore j); [|done].
    symmetry in Hrest. apply drop_nil_inv in Hrest.
    apply lookup_lt_Some in Hj. lia.
  - assert (ms !! message = Some m) as Hm.
    { rewrite <-(Nat.add_0_r message), <-lookup_drop, <-Hrest. done. }
    cbn [next_thumbnail].
    destruct (thumbnail_urls m !! thumbnail) as [url|] eqn:Hurl; [done|].
    apply lookup_ge_None in Hurl.
    apply IH.
    + rewrite (drop_S _ _ _ Hm) in Hrest. by simplify_eq.
    + intros j m' Hj Hm'.
      destruct (decide (j = message)) as [->|]; [|apply (Hbefore j); [lia|done]].
      rewrite Hm in Hm'. injection Hm' as <-.
      intros t Ht. apply (Hat m Hm). lia.
    + intros m' _ t Ht. lia.
Qed.

Lemma finish_inv (r : MessageReceiver) :
  Forall resolved (m_messages r) -> thumbnails_inv (finish r).1.
Proof.
  intros Hr. unfold thumbnails_inv, finish; cbn [fst waits m_messages].
  by rewrite (std_sort_Permutation timestamp).
Qed.

Lemma download_thumbnail_inv (r : MessageReceiver) (message thumbnail : nat) :
  (forall j m, (j < message)%nat -> m_messages r !! j = Some m -> resolved m) ->
  (forall m, m_messages r !! message = Some m -> resolved_upto m thumbnail) ->
  thumbnails_inv (download_thumbnail r message thumbnail).1.
Proof.
  intros Hbefore Hat.
  pose proof (next_thumbnail_inv (m_messages r) _ message thumbnail
                eq_refl Hbefore Hat) as Hnext.
  unfold download_thumbnail.
  destruct (next_thumbnail _ _ _) as [[[m t] url]|]; [done|].
  by apply finish_inv.
Qed.

Lemma substituted_upto (m : ReceivedMessage) (thumbnail : nat) (img_id : Z) :
  resolved_upto m thumbnail ->
  resolved_upto
    (set_text (str_replace (text m) (img_placeholder thumbnail) (img_tag img_id)) m)
    (S thumbnail).
Proof.
  intros Hm t Ht. cbn [text set_text].
  destruct (decide (t = thumbnail)) as [->|Hne].
  - apply str_replace_removes;
      auto using img_placeholder_tag, img_tag_tag, img_placeholder_not_img_tag.
  - apply str_replace_keeps_absent;
      auto using img_placeholder_tag, img_tag_tag, img_placeholder_not_img_tag.
    apply Hm. lia.
Qed.

Lemma step_inv (r : MessageReceiver) (ev : event) :
  succeeds ev = true -> thumbnails_inv r -> thumbnails_inv (step r ev).1.
Proof.
  intros Hev Hr. unfold step.
  destruct (waits r) as [|offset|message thumbnail|] eqn:Hw,
    ev as [result|error|[img_id|]| | | |];
    try done; try (by unfold thumbnails_inv; rewrite Hw).
  - destruct (process_result result (m_messages r)) as [[ms n] log].
    pose proof (download_thumbnail_inv (with_messages r ms) 0 0) as Hd.
    destruct (download_thumbnail _ _ _) as [r' acts]. apply Hd.
    + intros j m Hj. lia.
    + intros m _ t Ht. lia.
  - destruct (process_result result (m_messages r)) as [[ms n] log].
    destruct (n =? 0); [|done].
    pose proof (download_thumbnail_inv (with_messages r ms) 0 0) as Hd.
    destruct (download_thumbnail _ _ _) as [r' acts]. apply Hd.
    + intros j m Hj. lia.
    + intros m _ t Ht. lia.
  - unfold thumbnails_inv in Hr. rewrite Hw in Hr. destruct Hr as [Hbefore Hat].
    apply download_thumbnail_inv; cbn [with_messages m_messages].
    + intros j m Hj Hm. rewrite list_lookup_alter_ne in Hm by lia.
      by apply (Hbefore j).
    + intros m Hm. rewrite list_lookup_alter_eq in Hm.
      destruct (m_messages r !! message) as [m0|] eqn:Hm0; simplify_eq/=.
      apply substituted_upto. by apply Hat.
Qed.

Lemma exec_inv (r : MessageReceiver) (evs : list event) :
  Forall (fun ev => succeeds ev = true) evs ->
  thumbnails_inv r -> thumbnails_inv (exec step r evs).1.
Proof.
  intros Hevs. revert r. induction Hevs as [|ev evs Hev _ IH]; intros r Hr; [done|].
  rewrite exec_cons_1. apply IH. by apply step_inv.
Qed.

End Thumbnails.

Section Delivery.
Context `{Host}.
Import MessageRecv.

(** The placeholder [process_attachments] appends for a thumbnail is the
    one [download_thumbnail] looks for, by the index of the thumbnail. *)
Lemma br_placeholder_img_placeholder (message : ReceivedMessage) :
  br_placeholder message
  = "<br>" +:+ img_placeholder (length (thumbnail_urls message)).
Proof. reflexivity. Qed.

(** What is delivered is the text of the messages as [finish] finds them. *)
Lemma finish_delivers_texts (r : MessageReceiver) :
  deliveries (finish r).2
  = (fun m => (buddy_name_from_uid (uid m), text m, timestamp m))
    <$> m_messages (finish r).1.
Proof.
  unfold finish; cbv zeta; cbn [fst snd m_messages].
  set (l := std_sort _ _).
  rewrite deliveries_app.
  assert (deliveries (mark_message_as_read (map mid l) ++
            (if m_received_cb r then [call_received_cb] else [])) = []) as ->.
  { unfold mark_message_as_read. by repeat case_match. }
  rewrite app_nil_r. clear. induction l as [|m l IH]; [done|].
  simpl. by rewrite IH.
Qed.

Lemma exec_delivers_texts (r : MessageReceiver) (evs : list event) :
  waits r <> deleted ->
  waits (exec step r evs).1 = deleted ->
  deliveries (exec step r evs).2
  = (fun m => (buddy_name_from_uid (uid m), text m, timestamp m))
    <$> m_messages (exec step r evs).1.
Proof.
  intros Hr Hdel.
  destruct (RecvFacts.exec_shape r evs) as (pre & fin & -> & Hpre & Hfin).
  destruct Hfin as [[_ Hfin]|(rx & -> & ->)]; [by apply Hfin in Hdel|].
  rewrite deliveries_app, (quiet_deliveries pre) by done.
  apply finish_delivers_texts.
Qed.

(** A failed download changes no message. *)
Lemma failed_download_keeps_messages (r : MessageReceiver) (message thumbnail : nat) :
  waits r = wait_thumbnail message thumbnail ->
  m_messages (step r (http_response None)).1 ≡ₚ m_messages r.
Proof.
  intros Hw. unfold step. rewrite Hw.
  destruct (RecvFacts.download_thumbnail_cases r message (S thumbnail))
    as [->|(m & t & url & ->)]; [|done].
  unfold finish; cbn [fst m_messages].
  apply (std_sort_Permutation timestamp).
Qed.

End Delivery.




(** The text delivered in that run. *)
Example thumbnail_substituted_in_text :
  let result := Examples.page 1 [Examples.item 11 200 5 "hi" [Examples.photo []]] in
  deliveries
    (exec (MessageRecv.step (H := plain_host)) (MessageRecv.run [5] true).1
          [api_result result; http_response (Some 42)]).2
  = [("id11",
      "hi<br><a href='http://vk.com/photo-3_7'>http://vk.com/photo-3_7</a><br>"
      +:+ MessageRecv.img_tag 42, 200)].
Proof. by vm_compute. Qed.

#[local] Set Warnings "-clear-no-such-hyp".

(** ** Printed numbers *)

Lemma pretty_N_char_digit (x : N) : MessageSend.is_digit (pretty_N_char x) = true.
Proof. unfold pretty_N_char. by repeat case_match. Qed.

Lemma pretty_N_char_value (x : N) :
  (x < 10)%N -> Z.of_nat (nat_of_ascii (pretty_N_char x)) - 48 = Z.of_N x.
Proof.
  intros Hx.
  assert (x = 0 \/ x = 1 \/ x = 2 \/ x = 3 \/ x = 4 \/ x = 5 \/ x = 6
          \/ x = 7 \/ x = 8 \/ x = 9)%N as Hcases by lia.
  by repeat destruct Hcases as [->|Hcases]; [..|subst].
Qed.

Lemma pretty_N_go_digits (x : N) (s : string) :
  all_digits s = true -> all_digits (pretty_N_go x s) = true.
Proof.
  revert s. induction (N.lt_wf_0 x) as [x _ IH]; intros s Hs.
  assert (x = 0 \/ 0 < x)%N as [->|Hx] by lia.
  - by rewrite pretty_N_go_0.
  - rewrite pretty_N_go_step by done. apply IH.
    { by apply N.div_lt. }
    cbn [all_digits]. by rewrite pretty_N_char_digit, Hs.
Qed.

Lemma pretty_N_go_length (x : N) (s : string) :
  (String.length s <= String.length (pretty_N_go x s))%nat.
Proof.
  revert s. induction (N.lt_wf_0 x) as [x _ IH]; intros s.
  assert (x = 0 \/ 0 < x)%N as [->|Hx] by lia.
  - by rewrite pretty_N_go_0.
  - rewrite pretty_N_go_step by done.
    etrans; [|apply IH; by apply N.div_lt]. simpl. lia.
Qed.

Lemma pretty_N_digits (x : N) : all_digits (pretty x) = true.
Proof.
  unfold pretty, pretty_N. case_decide; [done|]. by apply pretty_N_go_digits.
Qed.

Lemma pretty_N_not_empty (x : N) : pretty x <> EmptyString.
Proof.
  unfold pretty, pretty_N. case_decide; [done|].
  assert (0 < x)%N as Hx by lia.
  rewrite pretty_N_go_step by done. intros Heq.
  pose proof (pretty_N_go_length (x `div` 10)
                (String (pretty_N_char (x `mod` 10)) EmptyString)) as Hl.
  rewrite Heq in Hl. simpl in Hl. lia.
Qed.

Lemma pretty_Z_not_empty (z : Z) : pretty z <> EmptyString.
Proof.
  destruct z as [|p|p]; unfold pretty, pretty_Z; [done| |done].
  apply (pretty_N_not_empty (N.pos p)).
Qed.

Lemma digits_value_cons (acc : Z) (c : ascii) (s : string) :
  digits_value acc (String c s)
  = digits_value (10 * acc + (Z.of_nat (nat_of_ascii c) - 48)) s.
Proof. reflexivity. Qed.

Lemma digits_value_pretty_N_go (x : N) (s : string) :
  exists k : Z, 0 <= k /\ forall acc,
    digits_value acc (pretty_N_go x s) = digits_value (acc * 10 ^ k + Z.of_N x) s.
Proof.
  revert s. induction (N.lt_wf_0 x) as [x _ IH]; intros s.
  assert (x = 0 \/ 0 < x)%N as [->|Hx] by lia.
  - exists 0. split; [done|]. intros acc. rewrite pretty_N_go_0. f_equal. lia.
  - destruct (IH (x `div` 10)%N ltac:(by apply N.div_lt)
                (String (pretty_N_char (x `mod` 10)) s)) as (k & Hk & IHk).
    exists (k + 1). split; [lia|]. intros acc.
    rewrite pretty_N_go_step, IHk, digits_value_cons by done.
    rewrite pretty_N_char_value by (apply N.mod_lt; lia).
    f_equal. rewrite Z.pow_add_r by lia.
    rewrite (N.div_mod x 10) at 3 by lia. 
    rewrite N2Z.inj_add, N2Z.inj_mul. lia.
Qed.

Lemma digits_value_pretty_N (x : N) : digits_value 0 (pretty x) = Z.of_N x.
Proof.
  unfold pretty, pretty_N. case_decide as Hx; [by subst|].
  destruct (digits_value_pretty_N_go x EmptyString) as (k & _ & Hk).
  rewrite Hk. unfold digits_value. simpl. lia.
Qed.

Lemma pretty_Z_of_N (z : Z) : 0 <= z -> pretty z = pretty (Z.to_N z).
Proof. intros Hz. by destruct z as [|p|p]; [| |lia]. Qed.

Lemma atoi_pretty (n : Z) :
  0 <= n <= INT_MAX -> MessageSend.atoi (pretty n) = n.
Proof.
  intros Hn. unfold MessageSend.atoi. fold (digits_value 0 (pretty n)).
  rewrite pretty_Z_of_N, digits_value_pretty_N, Z2N.id by lia.
  unfold to_int, INT_MAX in *. rewrite Z.mod_small by lia. lia.
Qed.

(** ** Lists of ids *)

Lemma concat_cons (sep x : string) (l : list string) :
  String.concat sep (x :: l) = x +:+ concat_texts ((fun y => sep +:+ y) <$> l).
Proof.
  revert x. induction l as [|y l IH]; intros x.
  - simpl. by rewrite string_app_nil_r.
  - change (String.concat sep (x :: y :: l))
      with (x +:+ sep +:+ String.concat sep (y :: l)).
    rewrite IH. cbn [fmap list_fmap concat_texts foldr].
    by rewrite string_app_assoc.
Qed.

Lemma empty_false (s : string) : s <> EmptyString -> empty s = false.
Proof. by destruct s. Qed.

Lemma app_not_empty_r (s1 s2 : string) : s2 <> EmptyString -> s1 +:+ s2 <> EmptyString.
Proof. destruct s1; [done|]. by rewrite string_app_cons. Qed.

Lemma str_concat_int_from (sep acc : string) (c : list Z) :
  acc <> EmptyString ->
  foldl (fun s it => (if empty s then s else s +:+ sep) +:+ pretty (to_int64 it)) acc c
  = acc +:+ concat_texts ((fun it => sep +:+ pretty (to_int64 it)) <$> c).
Proof.
  revert acc. induction c as [|it c IH]; intros acc Hacc.
  - simpl. by rewrite string_app_nil_r.
  - cbn [foldl fmap list_fmap concat_texts foldr].
    rewrite (empty_false acc Hacc), IH.
    + by rewrite !string_app_assoc.
    + apply app_not_empty_r, pretty_Z_not_empty.
Qed.

(** [str_concat_int] gives the numbers of the list, printed as [long long],
    with the separator between every two of them and nowhere else: the test
    for the empty string in its loop tells the first number from the
    others, since a printed number is never empty. *)
Theorem str_concat_int_join (sep : string) (c : list Z) :
  str_concat_int sep c = String.concat sep ((fun it => pretty (to_int64 it)) <$> c).
Proof.
  destruct c as [|it c]; [done|].
  unfold str_concat_int. cbn [foldl fmap list_fmap empty].
  rewrite string_app_nil_l, str_concat_int_from by apply pretty_Z_not_empty.
  rewrite concat_cons. f_equal. by rewrite <-list_fmap_compose.
Qed.

Lemma all_digits_has (c : ascii) (s : string) :
  all_digits s = true -> MessageSend.is_digit c = false -> has c s = false.
Proof.
  intros Hs Hc. induction s as [|a s IH]; [done|].
  cbn [all_digits has] in *. apply andb_true_iff in Hs as [Ha Hs].
  rewrite (IH Hs), orb_false_r.
  destruct (Ascii.eqb_spec a c) as [->|]; [congruence|done].
Qed.

Lemma pretty_Z_has (c : ascii) (z : Z) :
  MessageSend.is_digit c = false -> c <> "-"%char -> has c (pretty z) = false.
Proof.
  intros Hc Hdash.
  assert (forall p : positive, has c (pretty (N.pos p)) = false) as Hpos.
  { intros p. apply all_digits_has; [apply pretty_N_digits|done]. }
  destruct z as [|p|p]; unfold pretty, pretty_Z.
  - apply (all_digits_has c "0"); [by vm_compute|done].
  - apply Hpos.
  - rewrite has_app. unfold pretty, pretty_positive. rewrite Hpos.
    change (has c "-") with (Ascii.eqb "-" c || false).
    destruct (Ascii.eqb_spec "-"%char c); [congruence|done].
Qed.

Lemma split_at_sep (c : ascii) (a b r1 r2 : string) :
  has c a = false -> has c b = false ->
  a +:+ String c r1 = b +:+ String c r2 -> a = b /\ r1 = r2.
Proof.
  revert b. induction a as [|x a IH]; intros [|y b] Ha Hb Heq.
  - rewrite !string_app_nil_l in Heq. by simplify_eq.
  - rewrite string_app_nil_l, string_app_cons in Heq. simplify_eq.
    simpl in Hb. by rewrite Ascii.eqb_refl in Hb.
  - rewrite string_app_nil_l, string_app_cons in Heq. simplify_eq.
    simpl in Ha. by rewrite Ascii.eqb_refl in Ha.
  - rewrite !string_app_cons in Heq. simpl in Ha, Hb.
    apply orb_false_iff in Ha as [_ Ha]. apply orb_false_iff in Hb as [_ Hb].
    injection Heq as -> Heq. destruct (IH b Ha Hb Heq) as [-> ->]. done.
Qed.

Lemma has_app_sep (c : ascii) (a r : string) : has c (a +:+ String c r) = true.
Proof.
  rewrite has_app. simpl. rewrite Ascii.eqb_refl. apply orb_true_r.
Qed.

Lemma to_int64_inj (z1 z2 : Z) :
  0 <= z1 < 2 ^ 64 -> 0 <= z2 < 2 ^ 64 -> to_int64 z1 = to_int64 z2 -> z1 = z2.
Proof.
  unfold to_int64. intros H1 H2 Heq.
  assert (forall z, 0 <= z < 2 ^ 64 ->
            (z + 2 ^ 63) `mod` 2 ^ 64 = z + 2 ^ 63 \/
            (z + 2 ^ 63) `mod` 2 ^ 64 = z + 2 ^ 63 - 2 ^ 64) as Hmod.
  { intros z Hz. destruct (decide (z < 2 ^ 63)).
    - left. apply Z.mod_small. lia.
    - right. rewrite <-(Z.mod_small (z + 2 ^ 63 - 2 ^ 64) (2 ^ 64)) by lia.
      replace (z + 2 ^ 63) with (z + 2 ^ 63 - 2 ^ 64 + 1 * 2 ^ 64) at 1 by lia.
      by rewrite Z.mod_add. }
  pose proof (Z.mod_pos_bound (z1 + 2 ^ 63) (2 ^ 64) ltac:(lia)).
  pose proof (Z.mod_pos_bound (z2 + 2 ^ 63) (2 ^ 64) ltac:(lia)).
  destruct (Hmod z1 H1) as [E1|E1], (Hmod z2 H2) as [E2|E2]; lia.
Qed.

Lemma printed_ids_inj (l1 l2 : list string) :
  Forall (fun s => has "," s = false /\ s <> EmptyString) l1 ->
  Forall (fun s => has "," s = false /\ s <> EmptyString) l2 ->
  String.concat "," l1 = String.concat "," l2 -> l1 = l2.
Proof.
  intros H1. revert l2. induction H1 as [|x l1 [Hx Hxe] Hl1 IH]; intros l2 H2 Heq.
  - destruct H2 as [|y l2 [Hy Hye] Hl2]; [done|].
    rewrite concat_cons in Heq. simpl in Heq. destruct y; [done|].
    by rewrite string_app_cons in Heq.
  - destruct H2 as [|y l2 [Hy Hye] Hl2].
    { rewrite concat_cons in Heq. simpl in Heq. destruct x; [done|].
      by rewrite string_app_cons in Heq. }
    destruct l1 as [|x' l1], l2 as [|y' l2].
    + simpl in Heq. by subst.
    + exfalso. change (x = y +:+ String "," (String.concat "," (y' :: l2))) in Heq.
      rewrite Heq, has_app_sep in Hx. done.
    + exfalso. change (x +:+ String "," (String.concat "," (x' :: l1)) = y) in Heq.
      rewrite <-Heq, has_app_sep in Hy. done.
    + change (x +:+ String "," (String.concat "," (x' :: l1))
              = y +:+ String "," (String.concat "," (y' :: l2))) in Heq.
      apply split_at_sep in Heq as [-> Heq]; [|done..].
      f_equal. by apply IH.
Qed.

(** The comma-separated list of ids that messages.getById and
    messages.markAsRead are called with names the ids: two different lists
    of [uint64] ids give two different texts. *)
Theorem str_concat_int_differs (l1 l2 : list Z) :
  Forall (fun x => 0 <= x < 2 ^ 64) l1 ->
  Forall (fun x => 0 <= x < 2 ^ 64) l2 ->
  l1 <> l2 -> str_concat_int "," l1 <> str_concat_int "," l2.
Proof.
  intros H1 H2 Hne Heq. apply Hne. clear Hne.
  assert (forall l : list Z,
            str_concat_int "," l
            = String.concat "," ((fun it => pretty (to_int64 it)) <$> l)) as Hjoin.
  { intros [|it l]; [done|].
    unfold str_concat_int. cbn [foldl fmap list_fmap empty].
    rewrite string_app_nil_l, str_concat_int_from by apply pretty_Z_not_empty.
    rewrite concat_cons. f_equal. by rewrite <-list_fmap_compose. }
  rewrite !Hjoin in Heq. clear Hjoin.
  apply printed_ids_inj in Heq.
  - revert l2 H2 Heq. induction H1 as [|x l1 Hx _ IH]; intros l2 H2 Heq.
    + by destruct l2.
    + destruct H2 as [|y l2 Hy H2]; [done|]. simpl in Heq.
      injection Heq as Hxy Heq. apply (inj pretty) in Hxy.
      f_equal; [by apply to_int64_inj|by apply IH].
  - apply Forall_fmap, Forall_true. intros x. simpl.
    split; [by apply pretty_Z_has|apply pretty_Z_not_empty].
  - apply Forall_fmap, Forall_true. intros x. simpl.
    split; [by apply pretty_Z_has|apply pretty_Z_not_empty].
Qed.

(** An application: the ids 1 and 23, and the ids 12 and 3. *)
Lemma str_concat_int_differs_witness :
  str_concat_int "," [1; 23] <> str_concat_int "," [12; 3].
Proof.
  apply str_concat_int_differs.
  - repeat constructor; lia.
  - repeat constructor; lia.
  - discriminate.
Defined.

(** ** Image references in a text to send *)

Section ImgTags.
Import MessageSend.

Lemma after_prefix_app (p s : string) : after_prefix p (p +:+ s) = Some s.
Proof.
  induction p as [|a p IH]; [by destruct s|].
  rewrite string_app_cons. cbn [after_prefix]. by rewrite Ascii.eqb_refl.
Qed.

Lemma span_digits_app (ds rest : string) :
  all_digits ds = true ->
  match rest with EmptyString => true | String c _ => negb (is_digit c) end = true ->
  span_digits (ds +:+ rest) = (ds, rest).
Proof.
  intros Hds Hrest. induction ds as [|c ds IH].
  - rewrite string_app_nil_l. destruct rest as [|c r]; [done|].
    cbn [span_digits]. by apply negb_true_iff in Hrest as ->.
  - cbn [all_digits] in Hds. apply andb_true_iff in Hds as [Hc Hds].
    rewrite string_app_cons. cbn [span_digits]. by rewrite Hc, (IH Hds).
Qed.

Lemma pretty_nonneg_digits (n : Z) : 0 <= n -> all_digits (pretty n) = true.
Proof. intros Hn. rewrite pretty_Z_of_N by done. apply pretty_N_digits. Qed.

Lemma match_img_img_tag (n : Z) (b : string) :
  0 <= n -> match_img (MessageRecv.img_tag n +:+ b) = Some (pretty n, b).
Proof.
  intros Hn. unfold match_img, MessageRecv.img_tag.
  replace (("<img id=" +:+ dquote +:+ pretty n +:+ dquote +:+ ">") +:+ b)
    with (("<img id=" +:+ dquote) +:+ (pretty n +:+ ((dquote +:+ ">") +:+ b)))
    by (by rewrite !string_app_assoc).
  rewrite after_prefix_app.
  rewrite span_digits_app; [|by apply pretty_nonneg_digits|done].
  rewrite (empty_false _ (pretty_Z_not_empty n)).
  by rewrite after_prefix_app.
Qed.

Lemma to_lower_lt (c : ascii) :
  Ascii.eqb c "<" = false -> Ascii.eqb "<" (to_lower c) = false.
Proof.
  destruct c as [[] [] [] [] [] [] [] []]; by vm_compute.
Qed.

Lemma match_img_other (c : ascii) (s : string) :
  Ascii.eqb c "<" = false -> match_img (String c s) = None.
Proof.
  intros Hc. unfold match_img.
  change ("<img id=" +:+ dquote) with (String "<" ("img id=" +:+ dquote)).
  cbn [after_prefix]. change (to_lower "<") with "<"%char.
  by rewrite (to_lower_lt c Hc).
Qed.

Lemma scan_img_tags_skip (t b : string) :
  scan_img_tags (String.length t) (t +:+ b) = scan_img_tags O b.
Proof.
  induction t as [|c t IH]; [done|].
  rewrite string_app_cons. cbn [String.length scan_img_tags]. exact IH.
Qed.

Lemma scan_img_tags_before (a s : string) :
  has "<" a = false ->
  scan_img_tags O (a +:+ s) = ((scan_img_tags O s).1, a +:+ (scan_img_tags O s).2).
Proof.
  intros Ha. induction a as [|c a IH].
  - rewrite !string_app_nil_l. by destruct (scan_img_tags O s).
  - cbn [has] in Ha. apply orb_false_iff in Ha as [Hc Ha].
    rewrite !string_app_cons. cbn [scan_img_tags].
    rewrite (match_img_other c _ Hc), (IH Ha). done.
Qed.

Lemma scan_img_tags_img_tag (n : Z) (b : string) :
  0 <= n <= INT_MAX ->
  scan_img_tags O (MessageRecv.img_tag n +:+ b)
  = (n :: (scan_img_tags O b).1, (scan_img_tags O b).2).
Proof.
  intros Hn.
  pose proof (match_img_img_tag n b (proj1 Hn)) as Hm.
  unfold MessageRecv.img_tag in *.
  set (t := "img id=" +:+ dquote +:+ pretty n +:+ dquote +:+ ">").
  change ("<img id=" +:+ dquote +:+ pretty n +:+ dquote +:+ ">")
    with (String "<" t) in *.
  rewrite string_app_cons in *. cbn [scan_img_tags]. rewrite Hm.
  rewrite string_app_length.
  replace (String.length t + String.length b - String.length b)%nat
    with (String.length t) by lia.
  rewrite scan_img_tags_skip, atoi_pretty by done.
  by destruct (scan_img_tags O b).
Qed.

Lemma remove_img_tags_plain (a : string) :
  has "<" a = false -> remove_img_tags a = (a, []).
Proof.
  intros Ha. unfold remove_img_tags.
  rewrite <-(string_app_nil_r a) at 1.
  rewrite scan_img_tags_before by done. simpl. by rewrite string_app_nil_r.
Qed.

End ImgTags.

(** The image reference the receiving code writes for the image [n] of the
    image store, [<img id="n">], is one [remove_img_tags] finds: of a text
    with the reference after a part [a] that has no [<], it keeps [a], gives
    [n] as the first img id, and goes on with the text after the
    reference. *)
Theorem img_tag_removed (a b : string) (n : Z) :
  has "<" a = false -> 0 <= n <= INT_MAX ->
  MessageSend.remove_img_tags (a +:+ MessageRecv.img_tag n +:+ b)
  = (a +:+ (MessageSend.remove_img_tags b).1, n :: (MessageSend.remove_img_tags b).2).
Proof.
  intros Ha Hn. unfold MessageSend.remove_img_tags.
  rewrite scan_img_tags_before, scan_img_tags_img_tag by done.
  by destruct (MessageSend.scan_img_tags O b).
Qed.

(** An application: a text with one image reference. *)
Lemma img_tag_removed_witness :
  MessageSend.remove_img_tags ("see " +:+ MessageRecv.img_tag 7 +:+ " here")
  = ("see " +:+ (MessageSend.remove_img_tags " here").1,
     7 :: (MessageSend.remove_img_tags " here").2).
Proof.
  apply img_tag_removed; [reflexivity|].
  unfold INT_MAX. lia.
Defined.

(** The text and the img ids of that text. *)
Example text_with_one_image :
  MessageSend.remove_img_tags ("see " +:+ MessageRecv.img_tag 7 +:+ " here")
  = ("see  here", [7]).
Proof. by vm_compute. Qed.

(** ** Callbacks of a machine *)

Section Machines.
Context {S : Type} (step : S -> event -> S * list action) (final : S -> Prop).
Hypothesis final_stops : forall s ev, final s -> step s ev = (s, []).
Hypothesis step_calls_back : forall s ev,
  Forall (fun a => is_callback a = false) (step s ev).2
  \/ (final (step s ev).1 /\ calls_back_last (step s ev).2).

Lemma exec_final (s : S) (evs : list event) : final s -> exec step s evs = (s, []).
Proof.
  intros Hs. induction evs as [|ev evs IH]; [done|].
  cbn [exec]. by rewrite (final_stops s ev Hs), IH.
Qed.

Lemma exec_calls_back_last (s : S) (evs : list event) :
  calls_back_last (exec step s evs).2.
Proof.
  revert s. induction evs as [|ev evs IH]; intros s; [by left|].
  rewrite exec_cons_2.
  destruct (step_calls_back s ev) as [Hno|[Hfin Hlast]].
  - destruct (IH (step s ev).1) as [Hno'|(pre & cb & -> & Hpre & Hcb)].
    + left. by apply Forall_app.
    + right. exists ((step s ev).2 ++ pre), cb.
      split_and!; [by rewrite app_assoc|by apply Forall_app|done].
  - rewrite (exec_final _ evs Hfin). cbn [snd]. by rewrite app_nil_r.
Qed.

End Machines.

(** ** Callbacks of the sender *)

Section Sender.
Context `{Host}.
Import MessageSend.

Lemma show_error_calls_back (s : Sender) :
  waits (show_error s).1 = done /\ calls_back_last (show_error s).2.
Proof.
  split; [done|]. unfold show_error; cbn [snd].
  destruct (error_cb (message s)).
  - right. eexists [_; _], _. split_and!; [done|by repeat constructor|done].
  - left. rewrite app_nil_r. by repeat constructor.
Qed.

Lemma logged_calls_back (a : action) (acts : list action) :
  is_callback a = false -> calls_back_last acts -> calls_back_last (a :: acts).
Proof.
  intros Ha [Hno|(pre & cb & -> & Hpre & Hcb)].
  - left. by constructor.
  - right. exists (a :: pre), cb. split_and!; [done|by constructor|done].
Qed.

Lemma images_uploaded_no_callback (s : Sender) (img_attachments : string) :
  Forall (fun a => is_callback a = false) (images_uploaded s img_attachments).2.
Proof. by repeat constructor. Qed.

Lemma sender_step_calls_back (s : Sender) (ev : event) :
  Forall (fun a => is_callback a = false) (step s ev).2
  \/ (waits (step s ev).1 = done /\ calls_back_last (step s ev).2).
Proof.
  unfold step.
  destruct (waits s) as [images offset|sid key text_len|sid|] eqn:Hw,
    ev as [result|error|img_id| v | | captcha_key |];
    try (left; by repeat constructor);
    try (right; apply show_error_calls_back).
  - unfold photo_uploaded.
    assert (forall v0,
              let '(s', acts) := show_error s in
              waits (s', unknown_save_result v0 :: acts).1 = done
              /\ calls_back_last (s', unknown_save_result v0 :: acts).2) as Herr.
    { intros v0. pose proof (show_error_calls_back s) as [Hd Hc].
      destruct (show_error s) as [s' acts]. split; [done|].
      by apply logged_calls_back. }
    destruct v as [| | | |[|fields rest]|]; try (right; apply Herr).
    destruct (field_double fields "owner_id"), (field_double fields "id");
      try (right; apply Herr).
    destruct (_ =? _); left; by repeat constructor.
  - destruct result as [| |msg_id| | |];
      try (right; pose proof (show_error_calls_back s) as [Hd Hc];
           destruct (show_error s) as [s' acts]; split; [done|];
           by apply logged_calls_back).
    cbn [message sent_msg_ids waits].
    destruct (_ =? _)%nat.
    + right. split; [done|]. destruct (success_cb (message s)).
      * right. by exists [], call_success_cb.
      * by left.
    + left. by repeat constructor.
  - unfold process_im_error.
    destruct (field_double error "error_code") as [code|];
      [|right; apply show_error_calls_back].
    destruct (negb _); [right; apply show_error_calls_back|].
    destruct (field_string error "captcha_sid"), (field_string error "captcha_img");
      try (left; by repeat constructor);
      right; pose proof (show_error_calls_back s) as [Hd Hc];
      destruct (show_error s) as [s' acts]; split; try done;
      by apply logged_calls_back.
Qed.

Lemma sender_done_stops (s : Sender) (ev : event) :
  waits s = done -> step s ev = (s, []).
Proof. intros Hs. unfold step. rewrite Hs. by destruct ev. Qed.

Lemma sender_exec_calls_back (s : Sender) (evs : list event) :
  calls_back_last (exec step s evs).2.
Proof.
  apply (exec_calls_back_last step (fun s => waits s = done)).
  - apply sender_done_stops.
  - apply sender_step_calls_back.
Qed.

End Sender.

Lemma calls_back_last_once (acts : list action) :
  calls_back_last acts -> (length (filter (fun a => is_callback a = true) acts) <= 1)%nat.
Proof.
  assert (forall l, Forall (fun a => is_callback a = false) l ->
                    filter (fun a => is_callback a = true) l = []) as Hnone.
  { intros l Hl. induction Hl as [|a l Ha _ IH]; [done|].
    rewrite filter_cons_False by congruence. done. }
  intros [Hno|(pre & cb & -> & Hpre & Hcb)].
  - rewrite Hnone by done. simpl. lia.
  - rewrite filter_app, Hnone by done. simpl.
    rewrite filter_cons_True by done. simpl. lia.
Qed.

(** Whatever the replies, sending a message calls back once at most,
    through [success_cb] or through [error_cb] and never through both, and
    the callback is the last thing the sender does. *)
Theorem sender_calls_back_once_and_last `{Host} (user_id chat_id : Z)
    (raw_message : string) (success_cb error_cb : bool) (evs : list event) :
  let start :=
    MessageSend.send_message user_id chat_id raw_message success_cb error_cb in
  let run := exec MessageSend.step start.1 evs in
  calls_back_last (start.2 ++ run.2)
  /\ (length (filter (fun a => is_callback a = true) (start.2 ++ run.2)) <= 1)%nat.
Proof.
  intros start run.
  assert (calls_back_last (start.2 ++ run.2)) as Hlast.
  { assert (Forall (fun a => is_callback a = false) start.2) as Hstart.
    { subst start. unfold MessageSend.send_message.
      destruct (MessageSend.remove_img_tags raw_message) as [clean ids].
      unfold MessageSend.upload_imgstore_images.
      case_bool_decide; cbn [snd]; apply Forall_app; split;
        try (by repeat constructor); by destruct (negb _); repeat constructor. }
    destruct (sender_exec_calls_back start.1 evs)
      as [Hno|(pre & cb & Hrun & Hpre & Hcb)].
    - left. by apply Forall_app.
    - right. exists (start.2 ++ pre), cb. subst run. rewrite Hrun.
      split_and!; [by rewrite app_assoc|by apply Forall_app|done]. }
  split; [done|by apply calls_back_last_once].
Qed.

(** ** A failed upload *)

Section FailedUpload.
Context `{Host}.
Import MessageSend.

Lemma show_error_gives_up (s : Sender) : gives_up (message s) (show_error s).2.
Proof.
  unfold show_error, gives_up; cbn [snd]. split_and!.
  - by destruct (error_cb (message s)).
  - destruct (error_cb (message s)); set_solver.
  - set_solver.
  - intros ->. set_solver.
Qed.

Lemma gives_up_logged (m : SendMessage) (a : action) (acts : list action) :
  is_log a = true -> gives_up m acts -> gives_up m (a :: acts).
Proof.
  intros Ha (Hsend & Hsucc & Hwrite & Herr). destruct a; try done.
  split_and!; [done|set_solver|set_solver|set_solver].
Qed.

Lemma gives_up_app_l (m : SendMessage) (pre acts : list action) :
  api_calls "messages.send" pre = [] -> call_success_cb ∉ pre ->
  gives_up m acts -> gives_up m (pre ++ acts).
Proof.
  intros Hpre Hno (Hsend & Hsucc & Hwrite & Herr). split_and!.
  - by rewrite api_calls_app, Hpre, Hsend.
  - set_solver.
  - set_solver.
  - set_solver.
Qed.

(** Uploads that leave at least one image to upload, and then a failure. *)
Lemma failed_upload_loop (vs : list value) (rest : list event) :
  forall (m : SendMessage) (ids : gset Z) (images : UploadImgstoreImages)
         (offset : Z),
    0 <= offset ->
    offset + Z.of_nat (length vs) < Z.of_nat (length (img_ids images)) ->
    Z.of_nat (length (img_ids images)) <= INT_MAX ->
    let s := {| message := m; sent_msg_ids := ids;
                waits := wait_upload images offset |} in
    gives_up m (exec step s ((upload_done <$> vs) ++ upload_failed :: rest)).2.
Proof.
  induction vs as [|v vs IH]; intros m ids images offset Hoff Hlen Hmax s.
  - cbn [fmap list_fmap app]. rewrite exec_cons_2.
    change (step s upload_failed) with (show_error s).
    rewrite (exec_final step (fun s => waits s = done) sender_done_stops)
      by done.
    cbn [snd]. rewrite app_nil_r. apply (show_error_gives_up s).
  - cbn [fmap list_fmap app]. rewrite exec_cons_2.
    cbn [length] in Hlen.
    assert (forall v0, gives_up m
              ((let '(s', acts) := show_error s in
                (s', unknown_save_result v0 :: acts)).2
               ++ (exec step (let '(s', acts) := show_error s in
                              (s', unknown_save_result v0 :: acts)).1
                     ((upload_done <$> vs) ++ upload_failed :: rest)).2))
      as Herr.
    { intros v0. pose proof (show_error_gives_up s) as Hg.
      pose proof (show_error_calls_back s) as [Hd _].
      destruct (show_error s) as [s' acts]. cbn [fst snd] in *.
      rewrite (exec_final step (fun s => waits s = done) sender_done_stops)
        by done.
      cbn [snd]. rewrite app_nil_r. by apply gives_up_logged. }
    unfold step at 1 3; cbn [waits s]. unfold photo_uploaded.
    destruct v as [| | | |[|fields tail]|]; try apply Herr.
    destruct (field_double fields "owner_id") as [owner_id|],
      (field_double fields "id") as [id|]; try apply Herr.
    cbn [img_ids].
    destruct (Z.eqb_spec offset (Z.of_nat (length (img_ids images)) - 1)); [lia|].
    rewrite to_int_small by (unfold INT_MAX in *; lia).
    unfold upload_imgstore_images_impl; cbn [fst snd message sent_msg_ids].
    apply gives_up_app_l; [done|set_solver|].
    apply IH; cbn [img_ids]; lia.
Qed.

End FailedUpload.


(** ** The parts of a long message *)

Section Parts.
Context `{Host}.
Import MessageSend.

Lemma without_message_send_params (m : SendMessage) (sid key : string) :
  without "message" (send_params m sid key)
  = [("attachment", attachments m); ("type", "1")]
    ++ [if negb (user_id m =? 0) then ("user_id", pretty (user_id m))
        else ("chat_id", pretty (chat_id m))]
    ++ captcha_params sid key.
Proof.
  unfold send_params, without, captcha_params.
  destruct (negb (user_id m =? 0)), (negb (empty sid)), (negb (empty key));
    reflexivity.
Qed.

Lemma show_error_no_send (s : Sender) :
  api_calls "messages.send" (show_error s).2 = [].
Proof. unfold show_error; cbn [snd]. by destruct (error_cb (message s)). Qed.

Lemma parts_loop (replies : list value) :
  forall (m : SendMessage) (ids : gset Z) (sid key : string) (w : pending),
    let s := {| message := m; sent_msg_ids := ids; waits := w |} in
    Forall (fun params =>
              without "message" params = without "message" (send_params m sid key))
      (api_calls "messages.send"
         ((send_message_internal s sid key).2
          ++ (exec step (send_message_internal s sid key).1
                (api_result <$> replies)).2)).
Proof.
  induction replies as [|v replies IH]; intros m ids sid key w s; subst s.
  - cbn. by repeat constructor.
  - unfold send_message_internal at 1 2. cbn [fst snd message sent_msg_ids].
    cbn [fmap list_fmap]. rewrite exec_cons_2, api_calls_app.
    apply Forall_app. split; [by repeat constructor|].
    set (s := {| message := m; sent_msg_ids := ids;
                 waits := wait_send sid key (max_urlencoded_prefix (text m)) |}).
    assert (forall log : action,
              is_log log = true ->
              Forall (fun params =>
                        without "message" params
                        = without "message" (send_params m sid key))
                (api_calls "messages.send"
                   ((let '(s', acts) := show_error s in (s', log :: acts)).2
                    ++ (exec step (let '(s', acts) := show_error s in
                                   (s', log :: acts)).1
                          (api_result <$> replies)).2))) as Herr.
    { intros log Hlog. pose proof (show_error_no_send s) as Hno.
      pose proof (show_error_calls_back s) as [Hd _].
      destruct (show_error s) as [s' acts]. cbn [fst snd] in *.
      rewrite (exec_final step (fun s => waits s = done) sender_done_stops)
        by done.
      cbn [snd]. rewrite app_nil_r. destruct log; try done.
      change (api_calls "messages.send" (purple_debug_error format arg :: acts))
        with (api_calls "messages.send" acts).
      rewrite Hno. constructor. }
    unfold step at 1 3; cbn [waits s message sent_msg_ids].
    destruct v as [| |msg_id| | |]; try (by apply Herr).
    destruct (max_urlencoded_prefix (text m) =? String.length (text m))%nat.
    + cbn [fst snd].
      rewrite (exec_final step (fun s => waits s = done) sender_done_stops)
        by done.
      cbn [snd]. rewrite app_nil_r. destruct (success_cb m); constructor.
    + set (rest := String.substring (max_urlencoded_prefix (text m)) _ _).
      specialize (IH (with_text rest m) ({[to_uint64 msg_id]} ∪ ids) sid key
                    (wait_send sid key (max_urlencoded_prefix (text m)))).
      cbv zeta in IH. rewrite !without_message_send_params in *. exact IH.
Qed.

End Parts.

(** The parts of a long message are all sent to the same recipient and
    with the same attachments and CAPTCHA parameters: the calls of
    messages.send that follow one another on numeric replies differ in the
    message parameter only.  The attachments of the message go with each of
    its parts. *)
Theorem parts_carry_same_parameters `{Host} (s : MessageSend.Sender)
    (sid key : string) (replies : list value) :
  let start := MessageSend.send_message_internal s sid key in
  let run := exec MessageSend.step start.1 (api_result <$> replies) in
  Forall (fun params =>
            without "message" params
            = [("attachment", MessageSend.attachments (MessageSend.message s));
               ("type", "1")]
              ++ [if negb (MessageSend.user_id (MessageSend.message s) =? 0)
                  then ("user_id", pretty (MessageSend.user_id (MessageSend.message s)))
                  else ("chat_id", pretty (MessageSend.chat_id (MessageSend.message s)))]
              ++ captcha_params sid key)
    (api_calls "messages.send" (start.2 ++ run.2)).
Proof.
  intros start run. subst start run. destruct s as [m ids w].
  rewrite <-without_message_send_params. apply parts_loop.
Qed.


(** ** Runs in two parts *)

Lemma exec_app_1 {S : Type} (step : S -> event -> S * list action)
    (s : S) (evs evs' : list event) :
  (exec step s (evs ++ evs')).1 = (exec step (exec step s evs).1 evs').1.
Proof.
  revert s. induction evs as [|ev evs IH]; intros s; [done|].
  cbn [app]. by rewrite !exec_cons_1, IH.
Qed.

Lemma exec_app_2 {S : Type} (step : S -> event -> S * list action)
    (s : S) (evs evs' : list event) :
  (exec step s (evs ++ evs')).2
  = (exec step s evs).2 ++ (exec step (exec step s evs).1 evs').2.
Proof.
  revert s. induction evs as [|ev evs IH]; intros s; [done|].
  cbn [app]. by rewrite !exec_cons_2, exec_cons_1, IH, app_assoc.
Qed.

(** ** Offsets of the pages *)

Section Offsets.
Context `{Host}.
Import MessageRecv.

Lemma process_result_page (p : value) (items : list value) (ms : list ReceivedMessage) :
  is_Some (field_double p "count") -> field_array p "items" = Some items ->
  process_result p ms
  = ((process_items p items ms).1, to_int (Z.of_nat (length items)),
     (process_items p items ms).2).
Proof.
  intros [count Hcount] Hitems. unfold process_result. rewrite Hcount, Hitems.
  by destruct (process_items p items ms).
Qed.

Lemma get_loop (pages : list value) (itemss : list (list value)) :
  Forall2 page_with pages itemss ->
  forall (r : MessageReceiver) (offset : Z),
    waits r = wait_get offset ->
    0 <= offset ->
    offset + Z.of_nat (length (concat itemss)) <= INT_MAX ->
    api_calls "messages.get" (exec step r (api_result <$> pages)).2
    = get_params <$> tail (running_totals offset
                             ((fun items => Z.of_nat (length items)) <$> itemss)).
Proof.
  induction 1 as [|p items pages itemss (Hcount & Hitems & Hne & Hmax) _ IH];
    intros r offset Hw Hoff Hsum; [done|].
  cbn [fmap list_fmap running_totals tail concat] in *.
  rewrite length_app in Hsum.
  assert (0 < length items)%nat by (destruct items; [done|simpl; lia]).
  rewrite exec_cons_2. unfold step at 1 3. rewrite Hw.
  rewrite (process_result_page p items) by done.
  rewrite (to_int_small (Z.of_nat (length items))) by (unfold INT_MAX in *; lia).
  destruct (Z.eqb_spec (Z.of_nat (length items)) 0) as [|_]; [lia|].
  rewrite to_int_small by (unfold INT_MAX in *; lia).
  unfold run_unread_from. cbn [fst snd].
  rewrite !api_calls_app.
  rewrite (log_api_calls _ _ (RecvFacts.process_items_log p items (m_messages r))).
  rewrite (IH _ (offset + Z.of_nat (length items))); [|done|lia|lia].
  by destruct itemss.
Qed.

End Offsets.

(** The receiver asks for each page of unread messages at the offset that
    is the number of items of the pages before it, whatever the count field
    of a page says and whether or not an item has the fields of a message:
    no item is asked for twice and none is left out. *)
Theorem run_unread_offsets `{Host} (received_cb : bool)
    (pages : list value) (itemss : list (list value)) :
  Forall2 page_with pages itemss ->
  Z.of_nat (length (concat itemss)) <= INT_MAX ->
  let start := MessageRecv.run_unread received_cb in
  let run := exec MessageRecv.step start.1 (api_result <$> pages) in
  api_calls "messages.get" (start.2 ++ run.2)
  = get_params <$> running_totals 0 ((fun items => Z.of_nat (length items)) <$> itemss).
Proof.
  intros Hpages Hsum start run. subst start run.
  rewrite api_calls_app.
  rewrite (get_loop pages itemss Hpages _ 0) by (done || lia).
  by destruct itemss.
Qed.

(** ** Messages without attachments *)

Section Plain.
Context `{Host}.
Import MessageRecv.

Lemma process_items_plain (p : value) (items : list value) (ms : list ReceivedMessage) :
  Forall (fun v => field_array v "attachments" = None) items ->
  (process_items p items ms).1 = ms ++ omap message_of items.
Proof.
  intros Hitems. revert ms.
  induction Hitems as [|v items Hv _ IH]; intros ms.
  { simpl. by rewrite app_nil_r. }
  cbn [process_items omap list_omap]. unfold message_of at 1.
  destruct (field_double v "user_id") as [user_id|],
    (field_double v "date") as [date|], (field_string v "body") as [body|],
    (field_double v "id") as [id|];
    try (specialize (IH ms); by destruct (process_items p items ms)).
  rewrite Hv.
  specialize (IH (ms ++ [{| uid := to_uint64 user_id; mid := to_uint64 id;
                           text := purple_markup_escape_text body;
                           timestamp := to_uint64 date; thumbnail_urls := [] |}])).
  destruct (process_items p items _) as [ms' log]. cbn [fst] in *.
  by rewrite IH, <-app_assoc.
Qed.

Lemma message_of_no_thumbnails (items : list value) :
  Forall (fun m => thumbnail_urls m = []) (omap message_of items).
Proof.
  induction items as [|v items IH]; [constructor|].
  cbn [omap list_omap].
  destruct (message_of v) as [m|] eqn:Hm; [|done].
  constructor; [|done].
  unfold message_of in Hm. by repeat case_match; simplify_eq.
Qed.

Lemma next_thumbnail_none (rest : list ReceivedMessage) (message thumbnail : nat) :
  Forall (fun m => thumbnail_urls m = []) rest ->
  next_thumbnail rest message thumbnail = None.
Proof.
  intros Hrest. revert message thumbnail.
  induction Hrest as [|m rest Hm _ IH]; intros message thumbnail; [done|].
  cbn [next_thumbnail]. rewrite Hm. by rewrite lookup_nil.
Qed.

Lemma download_thumbnail_none (r : MessageReceiver) :
  Forall (fun m => thumbnail_urls m = []) (m_messages r) ->
  download_thumbnail r 0 0 = finish r.
Proof.
  intros Hr. unfold download_thumbnail. by rewrite drop_0, next_thumbnail_none.
Qed.

Lemma get_pages (pages : list value) (itemss : list (list value)) :
  Forall2 page_with pages itemss ->
  Forall (fun v => field_array v "attachments" = None) (concat itemss) ->
  forall (r : MessageReceiver) (offset : Z),
    waits r = wait_get offset ->
    let run := exec step r (api_result <$> pages) in
    (exists offset', waits run.1 = wait_get offset')
    /\ m_messages run.1 = m_messages r ++ omap message_of (concat itemss)
    /\ m_received_cb run.1 = m_received_cb r
    /\ deliveries run.2 = [].
Proof.
  induction 1 as [|p items pages itemss (Hcount & Hitems & Hne & Hmax) _ IH];
    intros Hplain r offset Hw run; subst run.
  { cbn. rewrite app_nil_r. eauto. }
  cbn [concat] in Hplain. apply Forall_app in Hplain as [Hplain1 Hplain2].
  cbn [fmap list_fmap]. rewrite exec_cons_1, exec_cons_2.
  assert (0 < length items)%nat by (destruct items; [done|simpl; lia]).
  assert (step r (api_result p)
          = ((run_unread_from (with_messages r (m_messages r ++ omap message_of items))
                (to_int (offset + Z.of_nat (length items)))).1,
             (process_items p items (m_messages r)).2
             ++ (run_unread_from (with_messages r (m_messages r ++ omap message_of items))
                   (to_int (offset + Z.of_nat (length items)))).2)) as ->.
  { unfold step. rewrite Hw.
    rewrite (process_result_page p items) by done.
    rewrite (to_int_small (Z.of_nat (length items))) by (unfold INT_MAX in *; lia).
    destruct (Z.eqb_spec (Z.of_nat (length items)) 0) as [|_]; [lia|].
    by rewrite process_items_plain. }
  cbn [fst snd].
  destruct (IH Hplain2 (run_unread_from
                          (with_messages r (m_messages r ++ omap message_of items))
                          (to_int (offset + Z.of_nat (length items)))).1
               (to_int (offset + Z.of_nat (length items))) eq_refl)
    as (Hw' & Hms & Hcb & Hdel).
  split_and!; [done| |done|].
  - rewrite Hms. cbn [run_unread_from fst m_messages with_messages concat].
    by rewrite omap_app, app_assoc.
  - rewrite !deliveries_app, Hdel.
    rewrite (quiet_deliveries _
               (log_quiet _ (RecvFacts.process_items_log p items (m_messages r)))).
    done.
Qed.

Lemma deliveries_finish (r : MessageReceiver) :
  deliveries (finish r).2 ≡ₚ delivery <$> m_messages r.
Proof.
  rewrite finish_delivers_texts. cbn [finish fst m_messages].
  apply fmap_Permutation, (std_sort_Permutation timestamp).
Qed.

End Plain.

(** Receiving the unread messages delivers them all, once each and in the
    order of their times: for pages of items without attachments, followed
    by the page without items that ends the pagination, the receiver
    finishes, and what it hands to libpurple are the messages of the items
    that have the four fields of a message, up to their order, which is
    ascending in time. *)
Theorem unread_messages_delivered `{Host} (received_cb : bool)
    (pages : list value) (itemss : list (list value)) (last : value) :
  Forall2 page_with pages itemss ->
  Forall (fun v => field_array v "attachments" = None) (concat itemss) ->
  last_page last ->
  let start := MessageRecv.run_unread received_cb in
  let run := exec MessageRecv.step start.1 (api_result <$> pages ++ [last]) in
  MessageRecv.waits run.1 = MessageRecv.deleted
  /\ deliveries (start.2 ++ run.2)
     ≡ₚ delivery <$> omap message_of (concat itemss)
  /\ ascending (delivered_times (start.2 ++ run.2)).
Proof.
  intros Hpages Hplain [Hcount Hitems] start run.
  destruct (get_pages pages itemss Hpages Hplain start.1 0 eq_refl)
    as ((offset & Hw) & Hms & Hcb & Hdel).
  set (r := (exec MessageRecv.step start.1 (api_result <$> pages)).1) in *.
  assert (MessageRecv.step r (api_result last)
          = MessageRecv.finish r) as Hlast.
  { unfold MessageRecv.step. rewrite Hw.
    rewrite (process_result_page last []) by done.
    cbn [MessageRecv.process_items fst snd length].
    change (to_int (Z.of_nat 0) =? 0) with true. cbv iota.
    rewrite download_thumbnail_none.
    - reflexivity.
    - cbn [MessageRecv.with_messages MessageRecv.m_messages].
      rewrite Hms. apply message_of_no_thumbnails. }
  assert (run = ((MessageRecv.finish r).1,
                 (exec MessageRecv.step start.1 (api_result <$> pages)).2
                 ++ (MessageRecv.finish r).2)) as ->.
  { subst run. rewrite fmap_app. apply injective_projections; cbn [fst snd].
    - rewrite exec_app_1. fold r. cbn [fmap list_fmap].
      by rewrite exec_cons_1, Hlast.
    - rewrite exec_app_2. fold r. cbn [fmap list_fmap].
      rewrite exec_cons_2, Hlast. cbn [exec snd]. by rewrite app_nil_r. }
  cbn [fst snd]. split_and!; [done| |].
  - rewrite !deliveries_app, Hdel. cbn [app start MessageRecv.run_unread
      MessageRecv.run_unread_from snd deliveries omap list_omap].
    rewrite deliveries_finish, Hms. done.
  - unfold delivered_times. rewrite !deliveries_app, Hdel.
    cbn [app start MessageRecv.run_unread
      MessageRecv.run_unread_from snd deliveries omap list_omap].
    fold (delivered_times (MessageRecv.finish r).2).
    rewrite RecvFacts.finish_deliveries.
    apply (std_sort_ascending MessageRecv.timestamp).
Qed.

(** ** The thumbnails *)

Section ThumbnailOrder.
Context `{Host}.
Import MessageRecv.

Lemma http_gets_app (l1 l2 : list action) :
  http_gets (l1 ++ l2) = http_gets l1 ++ http_gets l2.
Proof. apply omap_app. Qed.

Lemma pending_urls_0 (urlss : list (list string)) :
  pending_urls urlss 0 = concat urlss.
Proof. by destruct urlss. Qed.

Lemma next_thumbnail_spec (rest : list ReceivedMessage) (message thumbnail : nat) :
  match next_thumbnail rest message thumbnail with
  | None => pending_urls (thumbnail_urls <$> rest) thumbnail = []
  | Some (message', thumbnail', url) =>
      exists k : nat,
        message' = (message + k)%nat
        /\ pending_urls (thumbnail_urls <$> rest) thumbnail
           = url :: pending_urls (thumbnail_urls <$> drop k rest) (S thumbnail')
  end.
Proof.
  revert message thumbnail.
  induction rest as [|m rest IH]; intros message thumbnail; [done|].
  cbn [next_thumbnail fmap list_fmap pending_urls].
  destruct (thumbnail_urls m !! thumbnail) as [url|] eqn:Hurl.
  - exists 0%nat. split; [lia|]. rewrite drop_0. cbn [fmap list_fmap pending_urls].
    by rewrite (drop_S _ _ _ Hurl).
  - apply lookup_ge_None in Hurl. rewrite drop_ge by done. cbn [app].
    specialize (IH (S message) 0%nat). rewrite pending_urls_0 in IH.
    destruct (next_thumbnail rest (S message) 0) as [[[m' t'] url]|]; [|done].
    destruct IH as (k & -> & IH). exists (S k). split; [lia|]. by rewrite IH.
Qed.

Lemma finish_http_gets (r : MessageReceiver) : http_gets (finish r).2 = [].
Proof.
  unfold finish; cbv zeta; cbn [snd]. rewrite !http_gets_app.
  assert (forall l : list ReceivedMessage,
            http_gets
              (map (fun m => serv_got_im (buddy_name_from_uid (uid m)) (text m)
                               PURPLE_MESSAGE_RECV (timestamp m)) l) = []) as ->.
  { intros l. by induction l. }
  unfold mark_message_as_read. by repeat case_match.
Qed.

Lemma thumbnail_urls_alter (f : ReceivedMessage -> ReceivedMessage) (i : nat)
    (ms : list ReceivedMessage) :
  (forall m, thumbnail_urls (f m) = thumbnail_urls m) ->
  thumbnail_urls <$> alter f i ms = thumbnail_urls <$> ms.
Proof.
  intros Hf. revert i. induction ms as [|m ms IH]; intros [|i]; try done.
  - cbn. by rewrite Hf.
  - cbn. f_equal. apply IH.
Qed.

Lemma download_thumbnail_spec (r : MessageReceiver) (message thumbnail : nat) :
  (download_thumbnail r message thumbnail = finish r
   /\ pending_urls (drop message (thumbnail_urls <$> m_messages r)) thumbnail = [])
  \/ exists message' thumbnail' url,
       download_thumbnail r message thumbnail
       = ({| m_messages := m_messages r; m_received_cb := m_received_cb r;
             waits := wait_thumbnail message' thumbnail' |}, [http_get url])
       /\ pending_urls (drop message (thumbnail_urls <$> m_messages r)) thumbnail
          = url :: pending_urls (drop message' (thumbnail_urls <$> m_messages r))
                     (S thumbnail').
Proof.
  unfold download_thumbnail.
  pose proof (next_thumbnail_spec (drop message (m_messages r)) message thumbnail)
    as Hspec.
  destruct (next_thumbnail _ _ _) as [[[m' t'] url]|].
  - right. destruct Hspec as (k & -> & Hk).
    eexists _, _, _. split; [done|]. by rewrite <-!fmap_drop, Hk, drop_drop.
  - left. by rewrite <-fmap_drop.
Qed.

Lemma step_thumbnail (r : MessageReceiver) (message thumbnail : nat) (o : option Z) :
  waits r = wait_thumbnail message thumbnail ->
  exists (r' : MessageReceiver) (log : list action),
    thumbnail_urls <$> m_messages r' = thumbnail_urls <$> m_messages r
    /\ Forall (fun a => is_log a = true) log
    /\ step r (http_response o)
       = ((download_thumbnail r' message (S thumbnail)).1,
          log ++ (download_thumbnail r' message (S thumbnail)).2).
Proof.
  intros Hw. unfold step. rewrite Hw. destruct o as [img_id|].
  - exists (with_messages r
              (alter (fun m => set_text (str_replace (text m) (img_placeholder thumbnail)
                                           (img_tag (to_int img_id))) m)
                     message (m_messages r))), [].
    split_and!; [|constructor|].
    + by apply thumbnail_urls_alter.
    + by destruct (download_thumbnail _ _ _).
  - exists r, [purple_debug_error "Unable to download thumbnail: %s\n" None].
    split_and!; [done|by repeat constructor|].
    by destruct (download_thumbnail _ _ _).
Qed.

Lemma log_http_gets (l : list action) :
  Forall (fun a => is_log a = true) l -> http_gets l = [].
Proof. induction 1 as [|a l Ha _ IH]; [done|]. by destruct a. Qed.

Lemma thumbnail_loop (resp : list (option Z)) :
  forall (r : MessageReceiver) (message thumbnail : nat),
    let pending :=
      pending_urls (drop message (thumbnail_urls <$> m_messages r)) thumbnail in
    let start := download_thumbnail r message thumbnail in
    let run := exec step start.1 (http_response <$> resp) in
    (length resp <= length pending)%nat ->
    http_gets (start.2 ++ run.2) = take (S (length resp)) pending
    /\ ((length resp < length pending)%nat -> deliveries (start.2 ++ run.2) = [])
    /\ (length resp = length pending -> waits run.1 = deleted).
Proof.
  induction resp as [|o resp IH]; intros r message thumbnail pending start run Hlen;
    subst start run pending.
  - cbn [fmap list_fmap exec snd fst length] in *. rewrite app_nil_r.
    destruct (download_thumbnail_spec r message thumbnail)
      as [[-> ->]|(m' & t' & url & -> & ->)].
    + rewrite finish_http_gets. split_and!; [done|simpl; lia|done].
    + cbn [snd fst length]. split_and!; [done|done|lia].
  - cbn [fmap list_fmap length] in *.
    destruct (download_thumbnail_spec r message thumbnail)
      as [[-> Hp]|(m' & t' & url & -> & Hp)]; rewrite Hp in *.
    { simpl in Hlen. lia. }
    cbn [length fst snd] in *. rewrite exec_cons_1, exec_cons_2.
    destruct (step_thumbnail
                {| m_messages := m_messages r; m_received_cb := m_received_cb r;
                   waits := wait_thumbnail m' t' |} m' t' o eq_refl)
      as (r' & log & Hurls & Hlog & ->).
    cbn [m_messages fst snd] in *.
    specialize (IH r' m' (S t')). cbv zeta in IH. rewrite Hurls in IH.
    destruct IH as (IH1 & IH2 & IH3); [lia|].
    split_and!.
    + rewrite <-app_assoc, !http_gets_app, (log_http_gets log) by done.
      rewrite <-http_gets_app, IH1. done.
    + intros Hlt. rewrite <-app_assoc, !deliveries_app.
      rewrite (quiet_deliveries log) by (by apply log_quiet).
      rewrite <-deliveries_app, IH2 by lia. done.
    + intros Heq. apply IH3. lia.
Qed.

End ThumbnailOrder.

(** The thumbnails are fetched one at a time, those of a message in the
    order of its attachments and the messages in the order they were
    received: each reply, successful or not, is followed by the request for
    the next thumbnail; nothing is delivered while a thumbnail is left, and
    the reply to the last request finishes the receiver. *)
Theorem thumbnails_fetched_in_order `{Host} (r : MessageRecv.MessageReceiver)
    (resp : list (option Z)) :
  let urls := concat (MessageRecv.thumbnail_urls <$> MessageRecv.m_messages r) in
  (length resp <= length urls)%nat ->
  let start := MessageRecv.download_thumbnail r 0 0 in
  let run := exec MessageRecv.step start.1 (http_response <$> resp) in
  http_gets (start.2 ++ run.2) = take (S (length resp)) urls
  /\ ((length resp < length urls)%nat -> deliveries (start.2 ++ run.2) = [])
  /\ (length resp = length urls ->
      MessageRecv.waits run.1 = MessageRecv.deleted).
Proof.
  intros urls Hlen start run.
  pose proof (thumbnail_loop resp r 0 0) as Hloop. cbv zeta in Hloop.
  rewrite drop_0, pending_urls_0 in Hloop. by apply Hloop.
Qed.

(** An application of [run_unread_offsets]: a page of two items and a page
    of one item. *)
Lemma run_unread_offsets_witness :
  let pages :=
    [Examples.page 3 [Examples.item 11 200 5 "a" []; Examples.item 12 100 6 "b" []];
     Examples.page 3 [Examples.item_without_date 11 7 "c"]] in
  let start := MessageRecv.run_unread true in
  let run := exec (MessageRecv.step (H := plain_host)) start.1 (api_result <$> pages) in
  api_calls "messages.get" (start.2 ++ run.2)
  = get_params <$> running_totals 0 [2; 1].
Proof.
  apply (run_unread_offsets (H := plain_host) true _
           [[Examples.item 11 200 5 "a" []; Examples.item 12 100 6 "b" []];
            [Examples.item_without_date 11 7 "c"]]).
  - repeat constructor; try (by eexists); try done; by vm_compute.
  - by vm_compute.
Defined.

(** An application of [unread_messages_delivered]: two pages, the second
    with an item that lacks its date. *)
Lemma unread_messages_delivered_witness :
  let itemss :=
    [[object [("user_id", number 11); ("date", number 200); ("body", str "a");
              ("id", number 5)];
      object [("user_id", number 12); ("date", number 100); ("body", str "b");
              ("id", number 6)]];
     [Examples.item_without_date 11 7 "c"]] in
  let pages := Examples.page 3 <$> itemss in
  let start := MessageRecv.run_unread true in
  let run :=
    exec (MessageRecv.step (H := plain_host)) start.1
         (api_result <$> pages ++ [Examples.page 3 []]) in
  MessageRecv.waits run.1 = MessageRecv.deleted
  /\ deliveries (start.2 ++ run.2)
     ≡ₚ delivery (H := plain_host)
        <$> omap (message_of (H := plain_host)) (concat itemss)
  /\ ascending (delivered_times (start.2 ++ run.2)).
Proof.
  intros itemss pages.
  apply (unread_messages_delivered (H := plain_host) true pages itemss
           (Examples.page 3 [])).
  - repeat constructor; try (by eexists); try done; by vm_compute.
  - by repeat constructor.
  - split; [by eexists|done].
Defined.

(** The two messages of those pages, the earlier one first. *)
Example unread_messages_in_time_order :
  let start := MessageRecv.run_unread true in
  let run :=
    exec (MessageRecv.step (H := plain_host)) start.1
         [api_result
            (Examples.page 3
               [object [("user_id", number 11); ("date", number 200);
                        ("body", str "a"); ("id", number 5)];
                object [("user_id", number 12); ("date", number 100);
                        ("body", str "b"); ("id", number 6)]]);
          api_result (Examples.page 3 [Examples.item_without_date 11 7 "c"]);
          api_result (Examples.page 3 [])] in
  deliveries (start.2 ++ run.2) = [("id12", "b", 100); ("id11", "a", 200)].
Proof. by vm_compute. Qed.

(** An application of [thumbnails_fetched_in_order]: two messages with
    two thumbnails and one thumbnail, and the replies to the first two
    requests. *)
Lemma thumbnails_fetched_in_order_witness :
  let r :=
    {| MessageRecv.m_messages :=
         [{| MessageRecv.uid := 11; MessageRecv.mid := 5;
             MessageRecv.text := "a"; MessageRecv.timestamp := 200;
             MessageRecv.thumbnail_urls := ["http://t/1.jpg"; "http://t/2.jpg"] |};
          {| MessageRecv.uid := 12; MessageRecv.mid := 6;
             MessageRecv.text := "b"; MessageRecv.timestamp := 100;
             MessageRecv.thumbnail_urls := ["http://t/3.jpg"] |}];
       MessageRecv.m_received_cb := true;
       MessageRecv.waits := MessageRecv.wait_getById |} in
  let resp := [Some 1; None] in
  let urls := concat (MessageRecv.thumbnail_urls <$> MessageRecv.m_messages r) in
  let start := MessageRecv.download_thumbnail (H := plain_host) r 0 0 in
  let run := exec (MessageRecv.step (H := plain_host)) start.1 (http_response <$> resp) in
  http_gets (start.2 ++ run.2) = take (S (length resp)) urls
  /\ ((length resp < length urls)%nat -> deliveries (start.2 ++ run.2) = [])
  /\ (length resp = length urls ->
      MessageRecv.waits run.1 = MessageRecv.deleted).
Proof.
  intros r resp.
  apply (thumbnails_fetched_in_order (H := plain_host) r resp).
  vm_compute. lia.
Defined.

(** ** The callback of the receiver *)

Section ReceiverCallback.
Context `{Host}.
Import MessageRecv.

Lemma log_no_callback (l : list action) :
  Forall (fun a => is_log a = true) l -> Forall (fun a => is_callback a = false) l.
Proof. intros Hl. eapply Forall_impl; [exact Hl|]. by intros []. Qed.

Lemma finish_calls_back (r : MessageReceiver) :
  exists pre,
    (finish r).2 = pre ++ (if m_received_cb r then [call_received_cb] else [])
    /\ Forall (fun a => is_callback a = false) pre.
Proof.
  unfold finish; cbv zeta; cbn [snd]. eexists. split; [by rewrite app_assoc|].
  apply Forall_app. split.
  - apply Forall_forall. intros a Ha. apply list_elem_of_fmap in Ha as (m & -> & _).
    done.
  - unfold mark_message_as_read. case_bool_decide; by repeat constructor.
Qed.

Lemma download_thumbnail_calls_back (r : MessageReceiver) (message thumbnail : nat)
    (log : list action) :
  Forall (fun a => is_log a = true) log ->
  let res := download_thumbnail r message thumbnail in
  (waits res.1 <> deleted /\ m_received_cb res.1 = m_received_cb r
   /\ Forall (fun a => is_callback a = false) (log ++ res.2))
  \/ (waits res.1 = deleted
      /\ exists pre,
           log ++ res.2 = pre ++ (if m_received_cb r then [call_received_cb] else [])
           /\ Forall (fun a => is_callback a = false) pre).
Proof.
  intros Hlog res. subst res.
  destruct (RecvFacts.download_thumbnail_cases r message thumbnail)
    as [->|(m & t & url & ->)].
  - right. split; [done|].
    destruct (finish_calls_back r) as (pre & -> & Hpre).
    exists (log ++ pre). split; [by rewrite app_assoc|].
    apply Forall_app. split; [by apply log_no_callback|done].
  - left. split_and!; [done|done|].
    apply Forall_app. split; [by apply log_no_callback|by repeat constructor].
Qed.

Lemma receiver_step_calls_back (r : MessageReceiver) (ev : event) :
  waits r <> deleted ->
  (waits (step r ev).1 <> deleted /\ m_received_cb (step r ev).1 = m_received_cb r
   /\ Forall (fun a => is_callback a = false) (step r ev).2)
  \/ (waits (step r ev).1 = deleted
      /\ exists pre,
           (step r ev).2 = pre ++ (if m_received_cb r then [call_received_cb] else [])
           /\ Forall (fun a => is_callback a = false) pre).
Proof.
  intros Hr. unfold step.
  destruct (waits r) as [|offset|message thumbnail|] eqn:Hw; [| | |done];
    destruct ev as [result|error|[img_id|]| | | |];
    try (left; split_and!; [cbn [fst]; congruence|done|constructor]);
    try (right; split; [done|]; apply finish_calls_back).
  - pose proof (RecvFacts.process_result_log result (m_messages r)) as Hlog.
    destruct (process_result result (m_messages r)) as [[ms n] log].
    pose proof (download_thumbnail_calls_back (with_messages r ms) 0 0 log Hlog) as Hd.
    by destruct (download_thumbnail _ _ _).
  - pose proof (RecvFacts.process_result_log result (m_messages r)) as Hlog.
    destruct (process_result result (m_messages r)) as [[ms n] log].
    destruct (n =? 0).
    + pose proof (download_thumbnail_calls_back (with_messages r ms) 0 0 log Hlog)
        as Hd.
      by destruct (download_thumbnail _ _ _).
    + left. split_and!; [done|done|].
      apply Forall_app. split; [by apply log_no_callback|by repeat constructor].
  - pose proof (download_thumbnail_calls_back
                  (with_messages r
                     (alter (fun m => set_text
                               (str_replace (text m) (img_placeholder thumbnail)
                                  (img_tag (to_int img_id))) m)
                            message (m_messages r)))
                  message (S thumbnail) [] ltac:(constructor)) as Hd.
    done.
  - pose proof (download_thumbnail_calls_back r message (S thumbnail)
                  [purple_debug_error "Unable to download thumbnail: %s\n" None]
                  ltac:(by repeat constructor)) as Hd.
    by destruct (download_thumbnail _ _ _).
Qed.

End ReceiverCallback.

(** The callback given to [receive_messages] or [receive_unread_messages]
    is called when the receiver finishes and not before: a run that has
    not finished has called nothing back, and the calls of a run that has
    finished end with the callback, if one was given, with no callback
    before it. *)
Theorem receiver_calls_back_when_done `{Host} (r : MessageRecv.MessageReceiver)
    (evs : list event) :
  MessageRecv.waits r <> MessageRecv.deleted ->
  let run := exec MessageRecv.step r evs in
  (MessageRecv.waits run.1 <> MessageRecv.deleted ->
   Forall (fun a => is_callback a = false) run.2)
  /\ (MessageRecv.waits run.1 = MessageRecv.deleted ->
      exists pre,
        run.2 = pre ++ (if MessageRecv.m_received_cb r then [call_received_cb] else [])
        /\ Forall (fun a => is_callback a = false) pre).
Proof.
  revert r. induction evs as [|ev evs IH]; intros r Hr run; subst run.
  { cbn. split; [constructor|done]. }
  rewrite exec_cons_1, exec_cons_2.
  destruct (receiver_step_calls_back r ev Hr)
    as [(Hw & Hcb & Hno)|(Hw & pre & Hacts & Hpre)].
  - destruct (IH (MessageRecv.step r ev).1 Hw) as [IH1 IH2]. split.
    + intros Hrun. apply Forall_app. split; [done|by apply IH1].
    + intros Hrun. destruct (IH2 Hrun) as (pre & -> & Hpre).
      exists ((MessageRecv.step r ev).2 ++ pre).
      rewrite Hcb. split; [by rewrite app_assoc|by apply Forall_app].
  - rewrite RecvFacts.exec_deleted by done. cbn [fst snd]. rewrite app_nil_r.
    split; [done|]. intros _. eauto.
Qed.

(** ** What is marked as read *)

Section MarkedRead.
Context `{Host}.
Import MessageRecv.

Lemma finish_marks_read (r : MessageReceiver) :
  api_calls "messages.markAsRead" (finish r).2
  = if bool_decide (m_messages (finish r).1 = []) then []
    else [[("message_ids", str_concat_int "," (mid <$> m_messages (finish r).1))]].
Proof.
  unfold finish; cbv zeta; cbn [fst snd m_messages].
  set (l := std_sort _ _).
  rewrite !api_calls_app.
  assert (api_calls "messages.markAsRead"
            (map (fun m => serv_got_im (buddy_name_from_uid (uid m)) (text m)
                             PURPLE_MESSAGE_RECV (timestamp m)) l) = []) as ->.
  { clear. by induction l. }
  assert (api_calls "messages.markAsRead"
            (if m_received_cb r then [call_received_cb] else []) = []) as ->.
  { by destruct (m_received_cb r). }
  rewrite app_nil_r, app_nil_l. unfold mark_message_as_read.
  destruct l as [|m l]; [done|].
  rewrite !bool_decide_eq_false_2 by done. done.
Qed.

End MarkedRead.

(** A receiver that finishes marks as read what it delivered: the
    messages it hands to libpurple are those it holds at the end, in their
    order, and the one call of messages.markAsRead, made if there is a
    message, lists their ids in the same order. *)
Theorem marks_read_what_it_delivers `{Host} (r : MessageRecv.MessageReceiver)
    (evs : list event) :
  MessageRecv.waits r <> MessageRecv.deleted ->
  let run := exec MessageRecv.step r evs in
  MessageRecv.waits run.1 = MessageRecv.deleted ->
  deliveries run.2 = delivery <$> MessageRecv.m_messages run.1
  /\ api_calls "messages.markAsRead" run.2
     = if bool_decide (MessageRecv.m_messages run.1 = []) then []
       else [[("message_ids",
               str_concat_int "," (MessageRecv.mid <$> MessageRecv.m_messages run.1))]].
Proof.
  intros Hr run Hdel. subst run.
  destruct (RecvFacts.exec_shape r evs) as (pre & fin & Hacts & Hpre & Hfin).
  destruct Hfin as [[_ Hfin]|(rx & -> & Hrx)]; [by apply Hfin in Hdel|].
  rewrite Hacts, Hrx. split.
  - rewrite deliveries_app, (quiet_deliveries pre) by done.
    apply finish_delivers_texts.
  - rewrite api_calls_app, (quiet_mark_read pre) by done.
    apply finish_marks_read.
Qed.

Section LegacyMarkedRead.
Import MessageLegacy.

Lemma legacy_finish_calls (r : MessageReceiver) :
  deliveries (finish r).2 = legacy_delivery <$> m_messages (finish r).1
  /\ api_calls "messages.markAsRead" (finish r).2
     = [[("message_ids", str_concat_int "," (mid <$> m_messages (finish r).1))]].
Proof.
  unfold finish; cbv zeta; cbn [fst snd m_messages].
  set (l := std_sort _ _). split.
  - rewrite deliveries_app.
    assert (deliveries (mark_message_as_read (map mid l) ++
              (if m_finished_cb r then [call_received_cb] else [])) = []) as ->.
    { by destruct (m_finished_cb r). }
    rewrite app_nil_r. clear. induction l as [|m l IH]; [done|].
    simpl. by rewrite IH.
  - rewrite !api_calls_app.
    assert (api_calls "messages.markAsRead"
              (map (fun m => serv_got_im
                               ("id" +:+ pretty (to_uint64 (to_int64 (uid m))))
                               (text m) PURPLE_MESSAGE_RECV (timestamp m)) l) = [])
      as ->.
    { clear. by induction l. }
    by destruct (m_finished_cb r).
Qed.

Lemma legacy_step_finishes (r : MessageReceiver) (ev : event) :
  waits r <> deleted ->
  (waits (step r ev).1 <> deleted /\ Forall (fun a => quiet a = true) (step r ev).2)
  \/ exists rx log,
       Forall (fun a => quiet a = true) log
       /\ step r ev = ((finish rx).1, log ++ (finish rx).2).
Proof.
  intros Hr. unfold step.
  destruct (waits r) as [offset|] eqn:Hw; [|done].
  destruct ev as [result|error|[img_id|]| | | |];
    try (left; split; [cbn [fst]; congruence|constructor]);
    try (right; exists r, []; split; [constructor|by destruct (finish r)]).
  destruct (field_double result "count") as [count|]; cycle 1.
  { right. exists r, [strange_response result].
    split; [by repeat constructor|by destruct (finish r)]. }
  destruct (field_array result "items") as [items|]; cycle 1.
  { right. exists r, [strange_response result].
    split; [by repeat constructor|by destruct (finish r)]. }
  case_bool_decide.
  { right. exists r, []. split; [constructor|by destruct (finish r)]. }
  destruct (receive_items items (m_messages r)) as [ms [|]].
  - left. split; [done|by repeat constructor].
  - right. exists (with_messages r ms), [strange_response result].
    split; [by repeat constructor|by destruct (finish _)].
Qed.

Lemma legacy_exec_finishes (r : MessageReceiver) (evs : list event) :
  waits r <> deleted ->
  waits (exec step r evs).1 = deleted ->
  exists rx pre,
    Forall (fun a => quiet a = true) pre
    /\ exec step r evs = ((finish rx).1, pre ++ (finish rx).2).
Proof.
  revert r. induction evs as [|ev evs IH]; intros r Hr Hdel; [done|].
  rewrite exec_cons_1 in Hdel.
  destruct (legacy_step_finishes r ev Hr) as [[Hw Hq]|(rx & log & Hlog & Hstep)].
  - destruct (IH _ Hw Hdel) as (rx & pre & Hpre & Hrun).
    exists rx, ((step r ev).2 ++ pre). split; [by apply Forall_app|].
    apply injective_projections; cbn [fst snd].
    + by rewrite exec_cons_1, Hrun.
    + rewrite exec_cons_2, Hrun. cbn [snd]. by rewrite app_assoc.
  - exists rx, log. split; [done|].
    apply injective_projections; cbn [fst snd].
    + rewrite exec_cons_1, Hstep. cbn [fst].
      by rewrite LegacyFacts.legacy_exec_deleted.
    + rewrite exec_cons_2, Hstep. cbn [fst snd].
      rewrite LegacyFacts.legacy_exec_deleted by done. cbn [snd].
      by rewrite app_nil_r.
Qed.

End LegacyMarkedRead.

(** The earlier receiver, whose [mark_message_as_read] has no test for
    the empty list, calls messages.markAsRead once whenever it finishes,
    with the ids of the messages it delivered, in their order; with no
    message the call is made with an empty list of ids. *)
Theorem legacy_marks_read_always (r : MessageLegacy.MessageReceiver)
    (evs : list event) :
  MessageLegacy.waits r <> MessageLegacy.deleted ->
  let run := exec MessageLegacy.step r evs in
  MessageLegacy.waits run.1 = MessageLegacy.deleted ->
  deliveries run.2 = legacy_delivery <$> MessageLegacy.m_messages run.1
  /\ api_calls "messages.markAsRead" run.2
     = [[("message_ids",
          str_concat_int "," (MessageLegacy.mid <$> MessageLegacy.m_messages run.1))]].
Proof.
  intros Hr run Hdel. subst run.
  destruct (legacy_exec_finishes r evs Hr Hdel) as (rx & pre & Hpre & ->).
  cbn [fst snd].
  rewrite deliveries_app, api_calls_app.
  rewrite (quiet_deliveries pre), (quiet_mark_read pre) by done.
  apply legacy_finish_calls.
Qed.

(** An application of [receiver_calls_back_when_done]: one page of
    messages.getById. *)
Lemma receiver_calls_back_when_done_witness :
  let r := (MessageRecv.run [5] true).1 in
  let run :=
    exec (MessageRecv.step (H := plain_host)) r
         [api_result (Examples.page 1 [Examples.item 11 200 5 "hi" []])] in
  (MessageRecv.waits run.1 <> MessageRecv.deleted ->
   Forall (fun a => is_callback a = false) run.2)
  /\ (MessageRecv.waits run.1 = MessageRecv.deleted ->
      exists pre,
        run.2 = pre ++ (if MessageRecv.m_received_cb r then [call_received_cb] else [])
        /\ Forall (fun a => is_callback a = false) pre).
Proof.
  apply (receiver_calls_back_when_done (H := plain_host)). discriminate.
Defined.

(** An application of [marks_read_what_it_delivers]: the same run. *)
Lemma marks_read_what_it_delivers_witness :
  let r := (MessageRecv.run [5] true).1 in
  let run :=
    exec (MessageRecv.step (H := plain_host)) r
         [api_result (Examples.page 1 [Examples.item 11 200 5 "hi" []])] in
  deliveries run.2 = delivery (H := plain_host) <$> MessageRecv.m_messages run.1
  /\ api_calls "messages.markAsRead" run.2
     = if bool_decide (MessageRecv.m_messages run.1 = []) then []
       else [[("message_ids",
               str_concat_int "," (MessageRecv.mid <$> MessageRecv.m_messages run.1))]].
Proof.
  apply (marks_read_what_it_delivers (H := plain_host)); [discriminate|reflexivity].
Defined.

(** An application of [legacy_marks_read_always]: a first page without
    items. *)
Lemma legacy_marks_read_always_witness :
  let r := (MessageLegacy.run true).1 in
  let run := exec MessageLegacy.step r [api_result (Examples.page 0 [])] in
  deliveries run.2 = legacy_delivery <$> MessageLegacy.m_messages run.1
  /\ api_calls "messages.markAsRead" run.2
     = [[("message_ids",
          str_concat_int "," (MessageLegacy.mid <$> MessageLegacy.m_messages run.1))]].
Proof.
  apply legacy_marks_read_always; [discriminate|reflexivity].
Defined.

(** The call of that run. *)
Example legacy_marks_nothing_read :
  api_calls "messages.markAsRead"
    (exec MessageLegacy.step (MessageLegacy.run true).1
          [api_result (Examples.page 0 [])]).2
  = [[("message_ids", EmptyString)]].
Proof. by vm_compute. Qed.

(** ** The infos kept about the users *)

Section UserInfos.
Context `{Host}.
Variable new_info : Buddy.VkUserInfo.
Import Buddy.

(** What one update does to the entries: it writes the entry of the uid
    the item names and no other, and it never sets [can_write]. *)
Lemma on_update_user_info_entries (ui : gmap Z VkUserInfo) (fields : value) :
  let res := on_update_user_info new_info ui fields in
  (forall k, named_uid fields <> Some k -> res.1 !! k = ui !! k)
  /\ (forall k info, ui !! k = Some info ->
        exists info', res.1 !! k = Some info'
                      /\ (can_write info = false -> can_write info' = false))
  /\ (forall uid, res.2 = returns uid -> uid <> 0 ->
        named_uid fields = Some uid /\ is_Some (res.1 !! uid)).
Proof.
  unfold on_update_user_info, named_uid.
  destruct (field_double fields "id") as [id|]; cycle 1.
  { cbn. split_and!; [done|eauto|]. intros uid [= <-]. done. }
  destruct (field_string fields "first_name") as [first_name|]; cycle 1.
  { cbn. split_and!; [done|eauto|]. intros uid [= <-]. done. }
  destruct (field_string fields "last_name") as [last_name|]; cycle 1.
  { cbn. split_and!; [done|eauto|]. intros uid [= <-]. done. }
  cbn [fmap option_fmap option_map].
  set (uid := to_uint64 id).
  assert (forall (info1 : VkUserInfo) (o : outcome Z),
            (can_write info1 = false
             \/ can_write info1 = can_write (default new_info (ui !! uid))) ->
            (forall u, o = returns u -> u <> 0 -> u = uid) ->
            let res := (<[uid := info1]> ui, o) in
            (forall k, Some uid <> Some k -> res.1 !! k = ui !! k)
            /\ (forall k info, ui !! k = Some info ->
                  exists info', res.1 !! k = Some info'
                                /\ (can_write info = false -> can_write info' = false))
            /\ (forall u, res.2 = returns u -> u <> 0 ->
                  Some uid = Some u /\ is_Some (res.1 !! u))) as Hcase.
  { intros info1 o Hcw Ho res. subst res. cbn [fst snd]. split_and!.
    - intros k Hk. apply lookup_insert_ne. congruence.
    - intros k info Hk. destruct (decide (k = uid)) as [->|Hne].
      + rewrite lookup_insert_eq. eexists. split; [done|].
        rewrite Hk in Hcw. cbn in Hcw. intros Hfalse. destruct Hcw; congruence.
      + rewrite lookup_insert_ne by done. eauto.
    - intros u Hu Hne. rewrite (Ho u Hu Hne). split; [done|].
      rewrite lookup_insert_eq. eauto. }
  destruct (field_string fields "deactivated");
    [apply Hcase; [by left|by intros u [= <-]]|].
  destruct (get fields "can_write_private_message") as [cw|];
    [|apply Hcase; [by right|done]].
  destruct (get_double cw) as [d|]; [|apply Hcase; [by right|done]].
  destruct (negb (d =? 1)); [apply Hcase; [by left|by intros u [= <-]]|].
  destruct (get fields "last_seen") as [ls|]; [|apply Hcase; [by right|done]].
  destruct (get ls "time") as [t|]; [|apply Hcase; [by right|done]].
  destruct (get_double t) as [seen|]; apply Hcase;
    try (by right); try done.
  by intros u [= <-].
Qed.

Lemma update_items_entries (items : list value) :
  forall (ui : gmap Z VkUserInfo) (buddy_uids : gset Z),
    let res := update_items new_info ui items buddy_uids in
    (forall k, Forall (fun v => named_uid v <> Some k) items -> res.1 !! k = ui !! k)
    /\ (forall k info, ui !! k = Some info ->
          exists info', res.1 !! k = Some info'
                        /\ (can_write info = false -> can_write info' = false))
    /\ (forall uids, res.2 = returns uids ->
          (forall uid, uid ∈ buddy_uids -> uid <> 0 /\ is_Some (ui !! uid)) ->
          forall uid, uid ∈ uids ->
            uid <> 0 /\ is_Some (res.1 !! uid)
            /\ (uid ∈ buddy_uids \/ Exists (fun v => named_uid v = Some uid) items)).
Proof.
  induction items as [|v items IH]; intros ui buddy_uids res; subst res.
  { cbn. split_and!; [done|eauto|]. intros uids [= <-] Hacc uid Huid.
    destruct (Hacc uid Huid). eauto. }
  cbn [update_items].
  assert (forall res0 : gmap Z VkUserInfo * outcome (gset Z),
            res0 = update_items new_info ui items buddy_uids ->
            (forall k, Forall (fun v => named_uid v <> Some k) items ->
               res0.1 !! k = ui !! k)
            /\ (forall k info, ui !! k = Some info ->
                  exists info', res0.1 !! k = Some info'
                          /\ (can_write info = false -> can_write info' = false))
            /\ (forall uids, res0.2 = returns uids ->
                  (forall uid, uid ∈ buddy_uids -> uid <> 0 /\ is_Some (ui !! uid)) ->
                  forall uid, uid ∈ uids ->
                    uid <> 0 /\ is_Some (res0.1 !! uid)
                    /\ (uid ∈ buddy_uids
                        \/ Exists (fun v => named_uid v = Some uid) items)))
    as Hskip by (intros res0 ->; apply IH).
  assert (forall x, named_uid x = None ->
            let res := update_items new_info ui items buddy_uids in
            (forall k, Forall (fun v => named_uid v <> Some k) (x :: items) ->
               res.1 !! k = ui !! k)
            /\ (forall k info, ui !! k = Some info ->
                  exists info', res.1 !! k = Some info'
                          /\ (can_write info = false -> can_write info' = false))
            /\ (forall uids, res.2 = returns uids ->
                  (forall uid, uid ∈ buddy_uids -> uid <> 0 /\ is_Some (ui !! uid)) ->
                  forall uid, uid ∈ uids ->
                    uid <> 0 /\ is_Some (res.1 !! uid)
                    /\ (uid ∈ buddy_uids
                        \/ Exists (fun v => named_uid v = Some uid) (x :: items))))
    as Hother.
  { intros x Hx res. destruct (Hskip res eq_refl) as (H1 & H2 & H3).
    split_and!; [|done|].
    - intros k Hk. apply H1. by apply Forall_cons in Hk as [_ Hk].
    - intros uids Hres Hacc uid Huid.
      destruct (H3 uids Hres Hacc uid Huid) as (? & ? & [?|?]); eauto. }
  destruct v as [|b|d|s|a|o]; try (by apply Hother).
  pose proof (on_update_user_info_entries ui (object o)) as (Hf & Hk & Hr).
  destruct (on_update_user_info new_info ui (object o)) as [ui1 [uid1|]];
    cbn [fst snd] in *; cycle 1.
  { split_and!; [|done|done].
    intros k Hall. apply Hf. by apply Forall_cons in Hall as [Hk1 _]. }
  set (acc := if negb (uid1 =? 0) then {[uid1]} ∪ buddy_uids else buddy_uids).
  destruct (IH ui1 acc) as (IH1 & IH2 & IH3). split_and!.
  - intros k Hall. apply Forall_cons in Hall as [Hk1 Hall].
    rewrite IH1 by done. by apply Hf.
  - intros k info Hlook. destruct (Hk k info Hlook) as (info1 & Hlook1 & Hcw1).
    destruct (IH2 k info1 Hlook1) as (info2 & Hlook2 & Hcw2).
    exists info2. split; [done|]. auto.
  - intros uids Hres Hacc uid Huid.
    destruct (IH3 uids Hres) with (uid := uid) as (Hne & Hsome & Hfrom); [|done|].
    { intros u Hu. subst acc. destruct (Z.eqb_spec uid1 0) as [->|Hne1]; cbn in Hu.
      - destruct (Hacc u Hu) as [? [info Hinfo]]. split; [done|].
        destruct (Hk u info Hinfo) as (info' & -> & _). eauto.
      - apply elem_of_union in Hu as [Hu|Hu].
        + apply elem_of_singleton in Hu as ->. split; [done|].
          by destruct (Hr uid1 eq_refl Hne1).
        + destruct (Hacc u Hu) as [? [info Hinfo]]. split; [done|].
          destruct (Hk u info Hinfo) as (info' & -> & _). eauto. }
    split_and!; [done|done|].
    destruct Hfrom as [Hin|Hex]; [|right; by apply Exists_cons_tl].
    subst acc. destruct (Z.eqb_spec uid1 0) as [->|Hne1]; cbn in Hin; [by left|].
    apply elem_of_union in Hin as [Hin|Hin]; [|by left].
    apply elem_of_singleton in Hin as ->. right. apply Exists_cons_hd.
    by destruct (Hr uid1 eq_refl Hne1).
Qed.

End UserInfos.

Section UserInfosResult.
Context `{Host}.
Variable new_info : Buddy.VkUserInfo.
Import Buddy.

Lemma on_update_user_infos_items (ui : gmap Z VkUserInfo) (result : value)
    (friends_get : bool) :
  on_update_user_infos new_info ui result friends_get
  = update_items new_info ui (user_items result friends_get) ∅.
Proof.
  unfold on_update_user_infos, user_items.
  destruct friends_get; [|by destruct result].
  destruct result as [| | | | |o]; try done.
  cbn [get field]. by destruct (default null (find "items" o)).
Qed.

End UserInfosResult.

(** The uids [on_update_user_infos] returns are uids of users the plugin
    knows: each is the uid, not zero, that an item of the result names, and
    has an entry in the user infos after the update. *)
Theorem active_set_known `{Host} (new_info : Buddy.VkUserInfo)
    (user_infos : gmap Z Buddy.VkUserInfo) (result : value) (friends_get : bool)
    (uids : gset Z) (uid : Z) :
  let res := Buddy.on_update_user_infos new_info user_infos result friends_get in
  res.2 = Buddy.returns uids ->
  uid ∈ uids ->
  uid <> 0 /\ is_Some (res.1 !! uid)
  /\ Exists (fun v => named_uid v = Some uid) (user_items result friends_get).
Proof.
  intros res Hres Huid. subst res. rewrite on_update_user_infos_items in *.
  destruct (update_items_entries new_info (user_items result friends_get)
              user_infos ∅) as (_ & _ & Hset).
  destruct (Hset uids Hres) with (uid := uid) as (? & ? & [?|?]);
    [set_solver|done|set_solver|done].
Qed.

(** An update forgets no user and gives no permission back: a user with
    an entry has one after the update, whatever the result holds and
    whether or not the update runs to its end; if the entry said that the
    user cannot be written to, it still says so; and the entry of a user
    that no item of the result names is not touched. *)
Theorem user_infos_kept `{Host} (new_info : Buddy.VkUserInfo)
    (user_infos : gmap Z Buddy.VkUserInfo) (result : value) (friends_get : bool)
    (uid : Z) (info : Buddy.VkUserInfo) :
  let res := Buddy.on_update_user_infos new_info user_infos result friends_get in
  user_infos !! uid = Some info ->
  (exists info', res.1 !! uid = Some info'
                 /\ (Buddy.can_write info = false -> Buddy.can_write info' = false))
  /\ (Forall (fun v => named_uid v <> Some uid) (user_items result friends_get) ->
      res.1 !! uid = Some info).
Proof.
  intros res Hinfo. subst res. rewrite on_update_user_infos_items.
  destruct (update_items_entries new_info (user_items result friends_get)
              user_infos ∅) as (Hframe & Hkept & _).
  split; [by apply Hkept|]. intros Hnot. by rewrite Hframe.
Qed.

(** ** The education string *)

Lemma app_empty_iff (s1 s2 : string) :
  s1 +:+ s2 = EmptyString <-> s1 = EmptyString /\ s2 = EmptyString.
Proof.
  split; [|by intros [-> ->]]. destruct s1; [done|]. by rewrite string_app_cons.
Qed.

(** The education of a user is shown only with the name of the
    university: the string is empty exactly when the university_name field
    is missing, is not a string, or is empty, whatever the faculty and the
    year of graduation are. *)
Theorem education_needs_university (v : value) :
  Buddy.make_education_string v = EmptyString
  <-> field_string v "university_name" = None
      \/ field_string v "university_name" = Some EmptyString.
Proof.
  unfold Buddy.make_education_string.
  destruct (field_string v "university_name") as [university_name|];
    [|naive_solver].
  destruct university_name as [|c u]; [cbn [empty]; naive_solver|]. cbn [empty].
  split; [|by intros [|]].
  intros Hempty. exfalso. revert Hempty.
  destruct (field_string v "faculty_name") as [faculty_name|],
    (field_double v "graduation") as [d|];
    repeat case_match; rewrite ?app_empty_iff; naive_solver.
Qed.

(** An application of [active_set_known]: the friends 1 and 3, and the
    user 2 who cannot be written to. *)
Lemma active_set_known_witness :
  let result :=
    array [Examples.user 1 1; Examples.user 2 0; Examples.user 3 1] in
  let res :=
    Buddy.on_update_user_infos (H := plain_host) Examples.new_info ∅ result false in
  3 <> 0 /\ is_Some (res.1 !! 3)
  /\ Exists (fun v => named_uid v = Some 3) (user_items result false).
Proof.
  intros result.
  apply (active_set_known (H := plain_host) Examples.new_info ∅ result false
           {[1; 3]} 3).
  - by vm_compute.
  - set_solver.
Defined.

(** An application of [user_infos_kept]: the user 2, known as one who
    cannot be written to, in an update that says he can. *)
Lemma user_infos_kept_witness :
  let info :=
    {| Buddy.name := "Ada B"; Buddy.can_write := false;
       Buddy.photo_min := EmptyString; Buddy.photo_max := EmptyString;
       Buddy.activity := EmptyString; Buddy.bdate := EmptyString;
       Buddy.education := EmptyString; Buddy.mobile_phone := EmptyString;
       Buddy.domain := EmptyString; Buddy.online := false;
       Buddy.is_mobile := false; Buddy.last_seen := 0 |} in
  let result := array [Examples.user 2 1] in
  let res :=
    Buddy.on_update_user_infos (H := plain_host) Examples.new_info {[2 := info]}
      result false in
  (exists info', res.1 !! 2 = Some info'
                 /\ (Buddy.can_write info = false -> Buddy.can_write info' = false))
  /\ (Forall (fun v => named_uid v <> Some 2) (user_items result false) ->
      res.1 !! 2 = Some info).
Proof.
  intros info result.
  apply (user_infos_kept (H := plain_host) Examples.new_info {[2 := info]}
           result false 2 info).
  apply lookup_singleton_eq.
Defined.

(** That user is in the active set of the update, and still marked as one
    who cannot be written to. *)
Example permission_not_given_back :
  let info :=
    {| Buddy.name := "Ada B"; Buddy.can_write := false;
       Buddy.photo_min := EmptyString; Buddy.photo_max := EmptyString;
       Buddy.activity := EmptyString; Buddy.bdate := EmptyString;
       Buddy.education := EmptyString; Buddy.mobile_phone := EmptyString;
       Buddy.domain := EmptyString; Buddy.online := false;
       Buddy.is_mobile := false; Buddy.last_seen := 0 |} in
  let res :=
    Buddy.on_update_user_infos (H := plain_host) Examples.new_info {[2 := info]}
      (array [Examples.user 2 1]) false in
  res.2 = Buddy.returns ({[2]} : gset Z)
  /\ Buddy.can_write <$> res.1 !! 2 = Some false.
Proof. by vm_compute. Qed.

(** ** The buddy list *)

Section BuddyListFacts.
Context `{Host} {account : BuddyList.Account}.
Variable new_info : Buddy.VkUserInfo.
Import BuddyList.

Lemma update_buddy_in_blist_buddies (uid : Z) (info : Buddy.VkUserInfo)
    (update_presence : bool) (b : gset string) (n : string) :
  n ∈ (update_buddy_in_blist uid info update_presence b).1
  <-> n = buddy_name_from_uid uid \/ n ∈ b.
Proof.
  unfold update_buddy_in_blist. case_bool_decide; cbn [fst]; set_solver.
Qed.

Lemma update_known_buddies (l : list (Z * Buddy.VkUserInfo)) (f : gset Z)
    (update_presence : bool) :
  forall (b : gset string) (n : string),
    n ∈ (update_known l f update_presence b).1
    <-> n ∈ b
        \/ exists uid info,
             (uid, info) ∈ l
             /\ (only_friends_in_blist = true ->
                 uid ∈ f \/ have_conversation_with uid = true)
             /\ n = buddy_name_from_uid uid.
Proof.
  induction l as [|[uid info] l IH]; intros b n.
  { cbn. split; [by left|]. intros [?|(uid & info & Hin & _)]; [done|].
    by apply elem_of_nil in Hin. }
  cbn [update_known].
  destruct (only_friends_in_blist
            && (negb (bool_decide (uid ∈ f)) && negb (have_conversation_with uid)))
    eqn:Hskip.
  - rewrite IH. apply andb_true_iff in Hskip as [Hfo Hskip].
    apply andb_true_iff in Hskip as [Hf Hc].
    apply negb_true_iff in Hf, Hc. apply bool_decide_eq_false in Hf.
    split; intros [?|(uid' & info' & Hin & Hshown & ->)]; try by left.
    + right. exists uid', info'. split_and!; [by right|done|done].
    + apply elem_of_cons in Hin as [[= -> ->]|Hin].
      * destruct (Hshown Hfo); [done|congruence].
      * right. eauto.
  - pose proof (update_buddy_in_blist_buddies uid info update_presence b) as Hb1.
    destruct (update_buddy_in_blist uid info update_presence b) as [b1 calls1].
    cbn [fst] in Hb1. specialize (IH b1 n).
    destruct (update_known l f update_presence b1) as [b2 calls2]. cbn [fst] in *.
    rewrite IH, Hb1.
    assert (only_friends_in_blist = true ->
            uid ∈ f \/ have_conversation_with uid = true) as Hshown.
    { intros Hfo. rewrite Hfo in Hskip. cbn in Hskip.
      apply andb_false_iff in Hskip as [Hf|Hc].
      - left. apply negb_false_iff in Hf. by apply bool_decide_eq_true in Hf.
      - right. by apply negb_false_iff in Hc. }
    split.
    + intros [[->|?]|(uid' & info' & Hin & Hs & ->)].
      * right. exists uid, info. split_and!; [by left|done|done].
      * by left.
      * right. exists uid', info'. split_and!; [by right|done|done].
    + intros [?|(uid' & info' & Hin & Hs & ->)]; [by left; right|].
      apply elem_of_cons in Hin as [[= -> ->]|Hin]; [by left; left|].
      right. eauto.
Qed.

Lemma remove_unlisted_buddies (l : list string) (ui : gmap Z Buddy.VkUserInfo)
    (f : gset Z) :
  forall (b : gset string) (n : string),
    n ∈ (remove_unlisted l ui f b).1
    <-> n ∈ b
        /\ (n ∈ l ->
            is_Some (ui !! uid_from_buddy_name n)
            /\ (only_friends_in_blist = true ->
                uid_from_buddy_name n ∈ f
                \/ have_conversation_with (uid_from_buddy_name n) = true)).
Proof.
  induction l as [|m l IH]; intros b n.
  { cbn. split; [intros ?; split; [done|by intros ?%elem_of_nil]|by intros [? _]]. }
  cbn [remove_unlisted].
  set (uid := uid_from_buddy_name m).
  destruct (bool_decide (is_Some (ui !! uid))
            && (negb only_friends_in_blist
                || only_friends_in_blist
                   && (bool_decide (uid ∈ f) || have_conversation_with uid)))
    eqn:Hkeep.
  - rewrite IH. apply andb_true_iff in Hkeep as [Hhas Hkeep].
    apply bool_decide_eq_true in Hhas.
    assert (only_friends_in_blist = true ->
            uid ∈ f \/ have_conversation_with uid = true) as Hshown.
    { intros Hfo. rewrite Hfo in Hkeep. cbn in Hkeep.
      apply orb_true_iff in Hkeep as [Hf|Hc]; [left|by right].
      by apply bool_decide_eq_true in Hf. }
    split; intros [Hb Hl]; (split; [done|]); intros Hin.
    + apply elem_of_cons in Hin as [->|Hin]; [done|by apply Hl].
    + apply Hl. by right.
  - specialize (IH (b ∖ {[m]}) n).
    destruct (remove_unlisted l ui f (b ∖ {[m]})) as [b2 calls]. cbn [fst] in *.
    rewrite IH.
    assert (~ (is_Some (ui !! uid)
               /\ (only_friends_in_blist = true ->
                   uid ∈ f \/ have_conversation_with uid = true))) as Hnot.
    { intros [Hhas Hshown]. apply andb_false_iff in Hkeep as [Hk|Hk].
      - by apply bool_decide_eq_false in Hk.
      - apply orb_false_iff in Hk as [Hfo Hk]. apply negb_false_iff in Hfo.
        rewrite Hfo in Hk. cbn in Hk. apply orb_false_iff in Hk as [Hf Hc].
        apply bool_decide_eq_false in Hf. destruct (Hshown Hfo); congruence. }
    split.
    + intros [Hb Hl]. apply elem_of_difference in Hb as [Hb Hm].
      split; [done|]. intros Hin.
      apply elem_of_cons in Hin as [->|Hin]; [set_solver|by apply Hl].
    + intros [Hb Hl]. destruct (decide (n = m)) as [->|Hne].
      { exfalso. apply Hnot, Hl. by left. }
      split; [set_solver|]. intros Hin. apply Hl. by right.
Qed.

Lemma update_buddy_list_buddies (update_presence : bool) (s : VkConnData)
    (n : string) :
  (forall uid, uid_from_buddy_name (buddy_name_from_uid uid) = uid) ->
  n ∈ buddies (update_buddy_list update_presence s).1
  <-> listed s (uid_from_buddy_name n) /\ (n ∈ buddies s \/ canonical n).
Proof.
  intros uid_of_name. unfold update_buddy_list, listed, canonical.
  pose proof (update_known_buddies (map_to_list (user_infos s)) (friend_uids s)
                update_presence (buddies s)) as H1.
  destruct (update_known _ _ _ _) as [b1 calls1]. cbn [fst] in H1.
  pose proof (remove_unlisted_buddies (elements b1) (user_infos s) (friend_uids s)
                b1 n) as H2.
  destruct (remove_unlisted _ _ _ _) as [b2 calls2]. cbn [fst buddies with_buddies] in *.
  rewrite H2, H1. rewrite elem_of_elements, H1. split.
  - intros [Hin Hkeep]. split; [by apply Hkeep|].
    destruct Hin as [?|(uid & info & Hin & Hs & ->)]; [by left|].
    right. by rewrite uid_of_name.
  - intros [[Hhas Hs] Hin]. split; [|done].
    destruct Hin as [?|Hcanon]; [by left|].
    right. destruct Hhas as [info Hinfo].
    exists (uid_from_buddy_name n), info.
    split_and!; [by apply elem_of_map_to_list|done|done].
Qed.

Lemma remove_not_needed_buddies (uids : list Z) (convo_closed : bool) (f : gset Z) :
  forall (b : gset string) (n : string),
    n ∈ (remove_not_needed uids convo_closed f b).1
    <-> n ∈ b
        /\ ~ (exists uid,
                uid ∈ uids /\ n = buddy_name_from_uid uid
                /\ only_friends_in_blist
                   && (bool_decide (uid ∈ f)
                       || (negb convo_closed && have_conversation_with uid))
                   = false).
Proof.
  induction uids as [|uid uids IH]; intros b n.
  { cbn. split; [|by intros [? _]]. intros Hn. split; [done|].
    intros (uid & Hin & _). by apply elem_of_nil in Hin. }
  cbn [remove_not_needed].
  destruct (only_friends_in_blist
            && (bool_decide (uid ∈ f)
                || (negb convo_closed && have_conversation_with uid))) eqn:Hskip.
  { rewrite IH. split; intros [Hb Hno]; (split; [done|]);
      intros (uid' & Hin & -> & Hrem); apply Hno.
    - apply elem_of_cons in Hin as [->|Hin]; [congruence|eauto].
    - exists uid'. split_and!; [by right|done|done]. }
  cbv zeta.
  destruct (decide (buddy_name_from_uid uid ∈ b)) as [Hin|Hin];
    [rewrite (bool_decide_eq_true_2 _ Hin)|rewrite (bool_decide_eq_false_2 _ Hin)];
    cbn [negb].
  - specialize (IH (b ∖ {[buddy_name_from_uid uid]}) n).
    destruct (remove_not_needed uids convo_closed f _) as [b2 calls].
    cbn [fst] in *. rewrite IH. split.
    + intros [Hb Hno]. apply elem_of_difference in Hb as [Hb Hne].
      split; [done|]. intros (uid' & Hin' & -> & Hrem).
      apply elem_of_cons in Hin' as [->|Hin']; [set_solver|].
      apply Hno. eauto.
    + intros [Hb Hno]. split.
      * apply elem_of_difference. split; [done|].
        intros ->%elem_of_singleton. apply Hno. exists uid.
        split_and!; [by left|done|done].
      * intros (uid' & Hin' & -> & Hrem). apply Hno.
        exists uid'. split_and!; [by right|done|done].
  - rewrite IH. split; intros [Hb Hno]; (split; [done|]);
      intros (uid' & Hin' & -> & Hrem).
    + apply elem_of_cons in Hin' as [->|Hin']; [done|]. apply Hno. eauto.
    + apply Hno. exists uid'. split_and!; [by right|done|done].
Qed.

Lemma update_buddy_list_for_spec (uids : list Z) (update_presence : bool) :
  forall s : VkConnData,
    let r := update_buddy_list_for new_info uids update_presence s in
    (forall n, n ∈ buddies r.1
               <-> n ∈ buddies s \/ exists uid, uid ∈ uids /\ n = buddy_name_from_uid uid)
    /\ (forall k, is_Some (user_infos r.1 !! k)
                  <-> is_Some (user_infos s !! k) \/ k ∈ uids)
    /\ friend_uids r.1 = friend_uids s /\ waits r.1 = waits s.
Proof.
  induction uids as [|uid uids IH]; intros s r; subst r.
  { cbn. split_and!; [|set_solver|done|done].
    intros n. split; [by left|]. intros [?|(uid & Hin & _)]; [done|].
    by apply elem_of_nil in Hin. }
  cbn [update_buddy_list_for].
  set (info := default new_info (user_infos s !! uid)).
  cbn [buddies with_user_infos].
  pose proof (update_buddy_in_blist_buddies uid info update_presence (buddies s))
    as Hb1.
  destruct (update_buddy_in_blist uid info update_presence (buddies s))
    as [b1 calls1]. cbn [fst] in Hb1.
  specialize (IH (with_buddies b1 (with_user_infos (<[uid:=info]> (user_infos s)) s))).
  cbv zeta in IH.
  destruct (update_buddy_list_for new_info uids update_presence _) as [s2 calls2].
  cbn [fst] in *. destruct IH as (IHb & IHu & IHf & IHw).
  cbn [buddies user_infos friend_uids waits with_buddies with_user_infos] in *.
  split_and!; [| |done|done].
  - intros n. rewrite IHb, Hb1. split.
    + intros [[->|?]|(uid' & Hin & ->)].
      * right. exists uid. split; [by left|done].
      * by left.
      * right. exists uid'. split; [by right|done].
    + intros [?|(uid' & Hin & ->)]; [by left; right|].
      apply elem_of_cons in Hin as [->|Hin]; [by left; left|]. right. eauto.
  - intros k. rewrite IHu. destruct (decide (k = uid)) as [->|Hne].
    + rewrite lookup_insert_eq. split; [intros _; right; by left|eauto].
    + rewrite lookup_insert_ne by done. rewrite elem_of_cons.
      split; [intros [?|?]; eauto|intros [?|[?|?]]; eauto; done].
Qed.

End BuddyListFacts.

(** The names of the example account are read back as they were made. *)
Lemma example_uid_from_buddy_name (uid : Z) :
  BuddyExamples.uid_from_buddy_name (buddy_name_from_uid (Host := plain_host) uid)
  = uid.
Proof.
  cbn [buddy_name_from_uid plain_host].
  change ("id" +:+ pretty uid) with (String "i" (String "d" (pretty uid))).
  destruct uid as [|p|p].
  - reflexivity.
  - unfold BuddyExamples.uid_from_buddy_name.
    pose proof (pretty_N_digits (N.pos p)) as Hd.
    pose proof (digits_value_pretty_N (N.pos p)) as Hv.
    change (pretty (Z.pos p)) with (pretty (N.pos p)).
    destruct (pretty (N.pos p)) as [|c ds] eqn:Hp.
    + by destruct (pretty_N_not_empty (N.pos p)).
    + cbn [all_digits] in Hd. apply andb_true_iff in Hd as [Hc _].
      destruct (Ascii.eqb_spec c "-") as [->|Hne]; [done|].
      rewrite Hv.
      destruct c as [[] [] [] [] [] [] [] []]; done.
  - unfold BuddyExamples.uid_from_buddy_name.
    change (pretty (Z.neg p)) with (String "-" (pretty (N.pos p))).
    cbv beta iota.
    by rewrite (digits_value_pretty_N (N.pos p)).
Qed.

(** After [update_buddy_list] the buddy list holds the users that belong
    in it and no others: a name is among the buddies exactly when the uid
    read from it is that of a listed user (one with an info and, if only
    friends are shown, a friend or a user with an open conversation) and
    the name was a buddy before or is the name the plugin gives to that
    uid.  The infos and the friends are as before.  Buddy names are taken
    to be read back as the uid they were made from. *)
Theorem update_buddy_list_lists `{Host} {account : BuddyList.Account}
    (update_presence : bool) (s : BuddyList.VkConnData) (n : string) :
  (forall uid, BuddyList.uid_from_buddy_name (buddy_name_from_uid uid) = uid) ->
  let s' := (BuddyList.update_buddy_list update_presence s).1 in
  (n ∈ BuddyList.buddies s'
   <-> listed s (BuddyList.uid_from_buddy_name n)
       /\ (n ∈ BuddyList.buddies s \/ canonical n))
  /\ BuddyList.user_infos s' = BuddyList.user_infos s
  /\ BuddyList.friend_uids s' = BuddyList.friend_uids s.
Proof.
  intros Hname s'. split; [by apply update_buddy_list_buddies|].
  subst s'. unfold BuddyList.update_buddy_list.
  destruct (BuddyList.update_known _ _ _ _) as [b1 calls1].
  by destruct (BuddyList.remove_unlisted _ _ _ _) as [b2 calls2].
Qed.

(** An application: the users 1 (a friend), 2 and 5 (who has an open
    conversation), and the buddies of the users 2 and 7. *)
Lemma update_buddy_list_lists_witness :
  let s := BuddyExamples.conn_data in
  let s' :=
    (BuddyList.update_buddy_list (H := plain_host) (account := BuddyExamples.account)
       true s).1 in
  ("id5" ∈ BuddyList.buddies s'
   <-> listed (account := BuddyExamples.account) s
         (BuddyList.uid_from_buddy_name (Account := BuddyExamples.account) "id5")
       /\ ("id5" ∈ BuddyList.buddies s
           \/ canonical (H := plain_host) (account := BuddyExamples.account) "id5"))
  /\ BuddyList.user_infos s' = BuddyList.user_infos s
  /\ BuddyList.friend_uids s' = BuddyList.friend_uids s.
Proof.
  apply (update_buddy_list_lists (H := plain_host) (account := BuddyExamples.account)
           true BuddyExamples.conn_data "id5").
  apply example_uid_from_buddy_name.
Defined.

(** The buddy list of that example afterwards: the friend and the user
    with the conversation. *)
Example buddies_after_update :
  BuddyList.buddies
    (BuddyList.update_buddy_list (H := plain_host) (account := BuddyExamples.account)
       true BuddyExamples.conn_data).1
  = {["id1"; "id5"]}.
Proof. by vm_compute. Qed.

(** [remove_from_buddy_list_if_not_needed] removes no buddy that
    [update_buddy_list] keeps, unless it is told that the conversation is
    closed: it never removes the buddy of a friend, it removes nothing
    when all users are shown, and when [convo_closed] is false a buddy
    that is in the list after [update_buddy_list] is in the list after
    it. *)
Theorem removes_only_unlisted `{Host} {account : BuddyList.Account}
    (uids : list Z) (convo_closed update_presence : bool)
    (s : BuddyList.VkConnData) (n : string) :
  (forall uid, BuddyList.uid_from_buddy_name (buddy_name_from_uid uid) = uid) ->
  n ∈ BuddyList.buddies s ->
  let s' := (BuddyList.remove_from_buddy_list_if_not_needed uids convo_closed s).1 in
  (BuddyList.uid_from_buddy_name n ∈ BuddyList.friend_uids s ->
   n ∈ BuddyList.buddies s')
  /\ (BuddyList.only_friends_in_blist = false -> n ∈ BuddyList.buddies s')
  /\ (convo_closed = false ->
      n ∈ BuddyList.buddies (BuddyList.update_buddy_list update_presence s).1 ->
      n ∈ BuddyList.buddies s').
Proof.
  intros Hname Hn s'. subst s'.
  unfold BuddyList.remove_from_buddy_list_if_not_needed.
  destruct BuddyList.only_friends_in_blist eqn:Hfo; cbn [negb]; [|done].
  pose proof (remove_not_needed_buddies uids convo_closed (BuddyList.friend_uids s)
                (BuddyList.buddies s) n) as Hrem.
  destruct (BuddyList.remove_not_needed _ _ _ _) as [b calls].
  cbn [fst BuddyList.buddies BuddyList.with_buddies] in *.
  rewrite Hrem, Hfo. cbn [andb]. split_and!.
  - intros Hfriend. split; [done|]. intros (uid & _ & -> & Hno).
    rewrite Hname in Hfriend.
    by rewrite (bool_decide_eq_true_2 _ Hfriend) in Hno.
  - done.
  - intros -> Hkept. split; [done|]. intros (uid & _ & -> & Hno).
    apply (update_buddy_list_buddies _ _ _ Hname) in Hkept as [[_ Hshown] _].
    rewrite Hname in Hshown. cbn [negb andb] in Hno.
    apply orb_false_iff in Hno as [Hf Hc]. apply bool_decide_eq_false in Hf.
    destruct (Hshown Hfo); congruence.
Qed.

(** An application: the friend 1 of the example, when the conversations
    with the users 1 and 2 are closed. *)
Lemma removes_only_unlisted_witness :
  let s :=
    BuddyList.with_buddies {["id1"; "id2"]} BuddyExamples.conn_data in
  let s' :=
    (BuddyList.remove_from_buddy_list_if_not_needed (H := plain_host)
       (account := BuddyExamples.account) [1; 2] true s).1 in
  (BuddyList.uid_from_buddy_name (Account := BuddyExamples.account) "id1"
     ∈ BuddyList.friend_uids s ->
   "id1" ∈ BuddyList.buddies s')
  /\ (BuddyList.only_friends_in_blist (Account := BuddyExamples.account) = false ->
      "id1" ∈ BuddyList.buddies s')
  /\ (true = false ->
      "id1" ∈ BuddyList.buddies
                (BuddyList.update_buddy_list (H := plain_host)
                   (account := BuddyExamples.account) true s).1 ->
      "id1" ∈ BuddyList.buddies s').
Proof.
  apply (removes_only_unlisted (H := plain_host) (account := BuddyExamples.account)
           [1; 2] true true
           (BuddyList.with_buddies {["id1"; "id2"]} BuddyExamples.conn_data) "id1").
  - apply example_uid_from_buddy_name.
  - by vm_compute.
Defined.

(** The buddy list of that example afterwards: the buddy of the user 2,
    who is no friend, is removed. *)
Example buddies_after_removal :
  BuddyList.buddies
    (BuddyList.remove_from_buddy_list_if_not_needed (H := plain_host)
       (account := BuddyExamples.account) [1; 2] true
       (BuddyList.with_buddies {["id1"; "id2"]} BuddyExamples.conn_data)).1
  = {["id1"]}.
Proof. by vm_compute. Qed.

(** ** The chains of requests *)

Section Chains.
Context `{Host} {account : BuddyList.Account}.
Variable new_info : Buddy.VkUserInfo.
Import BuddyList.

Lemma run_cons (s : VkConnData) (ev : event) (evs : list event) :
  run new_info s (ev :: evs)
  = ((run new_info (step new_info s ev).1 evs).1,
     (step new_info s ev).2 ++ (run new_info (step new_info s ev).1 evs).2).
Proof.
  cbn [run]. destruct (step new_info s ev) as [s1 calls1]. cbn [fst snd].
  by destruct (run new_info s1 evs).
Qed.

Lemma run_idle (s : VkConnData) (evs : list event) :
  waits s = idle -> run new_info s evs = (s, []).
Proof.
  intros Hs. induction evs as [|ev evs IH]; [done|].
  rewrite run_cons. unfold step. rewrite Hs.
  destruct ev; cbn [fst snd]; by rewrite IH.
Qed.

(** Whether an update runs to its end does not depend on the infos kept
    so far. *)
Lemma on_update_user_infos_outcome (ui : gmap Z Buddy.VkUserInfo) (result : value)
    (friends_get : bool) :
  (Buddy.on_update_user_infos new_info ui result friends_get).2
  = (Buddy.on_update_user_infos new_info ∅ result friends_get).2.
Proof.
  rewrite !on_update_user_infos_items. apply update_items_returns.
Qed.

Lemma continue_for (uids : list Z) (on_update_cb : bool) (s : VkConnData) :
  let r := continue new_info (then_update_buddy_list_for uids on_update_cb) s in
  (forall n, n ∈ buddies r.1
             <-> n ∈ buddies s \/ exists uid, uid ∈ uids /\ n = buddy_name_from_uid uid)
  /\ (forall k, is_Some (user_infos r.1 !! k)
                <-> is_Some (user_infos s !! k) \/ k ∈ uids)
  /\ friend_uids r.1 = friend_uids s /\ waits r.1 = waits s.
Proof.
  cbn [continue].
  pose proof (update_buddy_list_for_spec new_info uids true s) as Hspec.
  by destruct (update_buddy_list_for new_info uids true s) as [s' calls].
Qed.

End Chains.

(** [add_to_buddy_list] puts all the uids it is given into the buddy
    list, friends or not and known to the server or not: when users.get
    has answered, if it was called at all, and the update of the infos has
    run to its end, each of the uids has a buddy and an info, and no buddy
    was removed. *)
Theorem add_to_buddy_list_adds_all `{Host} {account : BuddyList.Account}
    (new_info : Buddy.VkUserInfo) (uids : list Z) (on_update_cb : bool)
    (s : BuddyList.VkConnData) (result : value) (uid : Z) :
  BuddyList.waits s = BuddyList.idle ->
  (Buddy.on_update_user_infos new_info ∅ result false).2 <> Buddy.throws ->
  uid ∈ uids ->
  let start := BuddyList.add_to_buddy_list new_info uids on_update_cb s in
  let r := BuddyList.run new_info start.1 [api_result result] in
  buddy_name_from_uid uid ∈ BuddyList.buddies r.1
  /\ is_Some (BuddyList.user_infos r.1 !! uid)
  /\ BuddyList.buddies s ⊆ BuddyList.buddies r.1
  /\ BuddyList.waits r.1 = BuddyList.idle.
Proof.
  intros Hidle Hruns Huid start r. subst start r.
  unfold BuddyList.add_to_buddy_list.
  rewrite bool_decide_eq_false_2 by (intros ->; by apply elem_of_nil in Huid).
  unfold BuddyList.add_or_update_user_infos.
  set (k := BuddyList.then_update_buddy_list_for uids on_update_cb).
  case_bool_decide as Hunknown.
  - (* no unknown uid: the list is updated at once *)
    cbv iota.
    destruct (continue_for new_info uids on_update_cb s) as (Hb & Hu & _ & Hw).
    fold k in Hb, Hu, Hw.
    rewrite (run_idle new_info _ _ (eq_trans Hw Hidle)). cbn [fst].
    split_and!; [|apply Hu; by right| |by rewrite Hw].
    + apply Hb. right. eauto.
    + intros n Hn. apply Hb. by left.
  - (* users.get is called *)
    cbv iota. cbn [fst].
    pose proof (on_update_user_infos_outcome new_info (BuddyList.user_infos s)
                  result false) as Hout.
    destruct (Buddy.on_update_user_infos new_info (BuddyList.user_infos s)
                result false) as [ui [set|]] eqn:Hupd; cbn [fst snd] in *;
      [|by rewrite <-Hout in Hruns].
    set (s1 := BuddyList.with_waits BuddyList.idle
                 (BuddyList.with_user_infos ui
                    (BuddyList.with_waits (BuddyList.wait_users k) s))).
    assert (BuddyList.step new_info
              (BuddyList.with_waits (BuddyList.wait_users k) s) (api_result result)
            = BuddyList.continue new_info k s1) as Hstep.
    { unfold BuddyList.step.
      cbn [BuddyList.waits BuddyList.with_waits BuddyList.user_infos].
      by rewrite Hupd. }
    rewrite run_cons, Hstep.
    destruct (continue_for new_info uids on_update_cb s1) as (Hb & Hu & _ & Hw).
    fold k in Hb, Hu, Hw.
    rewrite (run_idle new_info _ _ (eq_trans Hw eq_refl)). cbn [fst].
    split_and!; [|apply Hu; by right| |by rewrite Hw].
    + apply Hb. right. eauto.
    + intros n Hn. apply Hb. by left.
Qed.

Section UpdateBuddies.
Context `{Host} {account : BuddyList.Account}.
Variable new_info : Buddy.VkUserInfo.
Import BuddyList.

Lemma update_buddy_list_fields (update_presence : bool) (s : VkConnData) :
  user_infos (update_buddy_list update_presence s).1 = user_infos s
  /\ friend_uids (update_buddy_list update_presence s).1 = friend_uids s
  /\ waits (update_buddy_list update_presence s).1 = waits s.
Proof.
  unfold update_buddy_list.
  destruct (update_known _ _ _ _) as [b1 calls1].
  by destruct (remove_unlisted _ _ _ _) as [b2 calls2].
Qed.

(** The end of the chain of [update_buddies]: the buddy list is updated
    for the infos and the friends of [s]. *)
Lemma continue_list (update_presence on_update_cb : bool) (s : VkConnData) :
  (continue new_info (then_update_buddy_list update_presence on_update_cb) s).1
  = (update_buddy_list update_presence s).1.
Proof.
  cbn [continue]. by destruct (update_buddy_list update_presence s).
Qed.

(** What [received_users] and the reply of users.get, if it is called,
    leave: the buddy list updated for the friends of [s] and for infos
    that keep those of [s]. *)
Lemma received_users_run (update_presence on_update_cb : bool) (uids : gset Z)
    (s : VkConnData) (users : value) :
  waits s = idle ->
  (Buddy.on_update_user_infos new_info ∅ users false).2 <> Buddy.throws ->
  let start := received_users new_info update_presence on_update_cb uids s in
  let r := run new_info start.1 [api_result users] in
  exists ui,
    r.1 = (update_buddy_list update_presence (with_user_infos ui s)).1
    /\ (forall k, is_Some (user_infos s !! k) -> is_Some (ui !! k)).
Proof.
  intros Hidle Hruns start r. subst start r.
  unfold received_users, add_or_update_user_infos.
  set (k := then_update_buddy_list update_presence on_update_cb).
  set (nf := if negb only_friends_in_blist then _ else _).
  case_bool_decide as Hnf; cbv iota.
  - exists (user_infos s). split; [|done].
    rewrite run_idle.
    + cbn [fst]. subst k. rewrite continue_list. by destruct s.
    + subst k. rewrite continue_list.
      by destruct (update_buddy_list_fields update_presence s) as (_ & _ & ->).
  - cbn [fst]. rewrite run_cons. cbn [fst].
    pose proof (on_update_user_infos_outcome new_info (user_infos s) users false)
      as Hout.
    pose proof (update_items_entries new_info (user_items users false)
                  (user_infos s) ∅) as (_ & Hkept & _).
    rewrite <-on_update_user_infos_items in Hkept.
    destruct (Buddy.on_update_user_infos new_info (user_infos s) users false)
      as [ui [set|]] eqn:Hupd; cbn [fst snd] in *;
      [|by rewrite <-Hout in Hruns].
    assert (step new_info (with_waits (wait_users k) s) (api_result users)
            = continue new_info k
                (with_waits idle (with_user_infos ui (with_waits (wait_users k) s))))
      as Hstep.
    { unfold step. cbn [waits with_waits user_infos]. by rewrite Hupd. }
    rewrite Hstep. exists ui. split.
    + rewrite run_idle.
      * cbn [fst]. subst k. rewrite continue_list.
        destruct s as [u ui0 f b w]. cbn in Hidle. by subst w.
      * subst k. rewrite continue_list.
        by destruct (update_buddy_list_fields update_presence
                       (with_waits idle
                          (with_user_infos ui
                             (with_waits
                                (wait_users
                                   (then_update_buddy_list update_presence
                                      on_update_cb)) s)))) as (_ & _ & ->).
    + intros k0 [info Hinfo]. destruct (Hkept k0 info Hinfo) as (info' & -> & _).
      eauto.
Qed.

End UpdateBuddies.

(** [update_buddies] brings the friends into the buddy list: when
    friends.get, the dialogs and users.get (if it is called) have
    answered and the updates of the infos have run to their end, the
    friends kept are the uids the first update returned, each of them has
    a buddy, and every buddy is that of a listed user.  The dialogs may
    have ended in an error.  Buddy names are taken to be read back as the
    uid they were made from. *)
Theorem update_buddies_lists_friends `{Host} {account : BuddyList.Account}
    (new_info : Buddy.VkUserInfo) (update_presence on_update_cb : bool)
    (s : BuddyList.VkConnData) (friends users : value) (dialogs_reply : event)
    (uids : gset Z) :
  (forall uid, BuddyList.uid_from_buddy_name (buddy_name_from_uid uid) = uid) ->
  (Buddy.on_update_user_infos new_info (BuddyList.user_infos s) friends true).2
  = Buddy.returns uids ->
  (Buddy.on_update_user_infos new_info ∅ users false).2 <> Buddy.throws ->
  (exists dialogs, dialogs_reply = api_result (array dialogs))
  \/ (exists error, dialogs_reply = api_error error) ->
  let start := BuddyList.update_buddies update_presence on_update_cb s in
  let r :=
    BuddyList.run new_info start.1
      [api_result friends; dialogs_reply; api_result users] in
  BuddyList.waits r.1 = BuddyList.idle
  /\ BuddyList.friend_uids r.1 = uids
  /\ (forall uid, uid ∈ uids -> buddy_name_from_uid uid ∈ BuddyList.buddies r.1)
  /\ (forall n, n ∈ BuddyList.buddies r.1 ->
                listed r.1 (BuddyList.uid_from_buddy_name n)).
Proof.
  intros Hname Hfriends Husers Hdialogs start r. subst start r.
  unfold BuddyList.update_buddies. cbn [fst]. rewrite run_cons. cbn [fst].
  pose proof (update_items_entries new_info (user_items friends true)
                (BuddyList.user_infos s) ∅) as (_ & _ & Hset).
  rewrite <-on_update_user_infos_items in Hset.
  destruct (Buddy.on_update_user_infos new_info (BuddyList.user_infos s)
              friends true) as [ui1 o] eqn:Hupd.
  cbn [fst snd] in *. subst o.
  set (s1 := BuddyList.with_waits BuddyList.idle
               (BuddyList.with_friend_uids uids
                  (BuddyList.with_user_infos ui1
                     (BuddyList.with_waits
                        (BuddyList.wait_friends update_presence on_update_cb) s)))).
  assert ((BuddyList.step new_info
             (BuddyList.with_waits
                (BuddyList.wait_friends update_presence on_update_cb) s)
             (api_result friends)).1
          = BuddyList.with_waits
              (BuddyList.wait_dialogs update_presence on_update_cb) s1) as ->.
  { unfold BuddyList.step.
    cbn [BuddyList.waits BuddyList.with_waits BuddyList.user_infos].
    by rewrite Hupd. }
  rewrite run_cons. cbn [fst].
  assert (exists set,
            (BuddyList.step new_info
               (BuddyList.with_waits
                  (BuddyList.wait_dialogs update_presence on_update_cb) s1)
               dialogs_reply).1
            = (BuddyList.received_users new_info update_presence on_update_cb
                 set s1).1) as [set ->].
  { destruct Hdialogs as [[dialogs ->]|[error ->]]; unfold BuddyList.step;
      cbn [BuddyList.waits BuddyList.with_waits].
    - destruct (BuddyList.dialog_uids dialogs ∅) as [set log]. exists set.
      by destruct (BuddyList.received_users _ _ _ _ _).
    - by exists ∅. }
  destruct (received_users_run new_info update_presence on_update_cb set s1 users)
    as (ui & Hr & Hkept); [done|done|].
  cbv zeta in Hr. rewrite Hr.
  destruct (update_buddy_list_fields update_presence
              (BuddyList.with_user_infos ui s1)) as (Hui & Hf & Hw).
  split_and!; [by rewrite Hw|by rewrite Hf| |].
  - intros uid Huid.
    apply (update_buddy_list_buddies _ _ _ Hname). rewrite Hname.
    destruct (Hset uids eq_refl) with (uid := uid) as (_ & Hsome & _);
      [set_solver|done|].
    split; [split|].
    + by apply Hkept.
    + intros _. by left.
    + right. unfold canonical. by rewrite Hname.
  - intros n Hn. apply (update_buddy_list_buddies _ _ _ Hname) in Hn as [Hl _].
    unfold listed in *. by rewrite Hui, Hf.
Qed.

(** An application of [add_to_buddy_list_adds_all]: the users 2 and 7 are
    added; users.get knows the user 7 only. *)
Lemma add_to_buddy_list_adds_all_witness :
  let s := BuddyExamples.conn_data in
  let start :=
    BuddyList.add_to_buddy_list (H := plain_host) (account := BuddyExamples.account)
      Examples.new_info [2; 7] true s in
  let r :=
    BuddyList.run (H := plain_host) (account := BuddyExamples.account) Examples.new_info
      start.1 [api_result (array [Examples.user 7 1])] in
  buddy_name_from_uid (Host := plain_host) 7 ∈ BuddyList.buddies r.1
  /\ is_Some (BuddyList.user_infos r.1 !! 7)
  /\ BuddyList.buddies s ⊆ BuddyList.buddies r.1
  /\ BuddyList.waits r.1 = BuddyList.idle.
Proof.
  apply (add_to_buddy_list_adds_all (H := plain_host) (account := BuddyExamples.account)
           Examples.new_info [2; 7] true BuddyExamples.conn_data
           (array [Examples.user 7 1]) 7).
  - reflexivity.
  - by vm_compute.
  - set_solver.
Defined.

(** An application of [update_buddies_lists_friends]: friends.get gives the
    friends 1 and 3, and there is a dialog with the user 5. *)
Lemma update_buddies_lists_friends_witness :
  let s := BuddyExamples.conn_data in
  let friends := object [("items", array [Examples.user 1 1; Examples.user 3 1])] in
  let dialogs := array [object [("user_id", number 5)]] in
  let start :=
    BuddyList.update_buddies true true s in
  let r :=
    BuddyList.run (H := plain_host) (account := BuddyExamples.account) Examples.new_info
      start.1 [api_result friends; api_result dialogs;
               api_result (array [Examples.user 5 1])] in
  BuddyList.waits r.1 = BuddyList.idle
  /\ BuddyList.friend_uids r.1 = {[1; 3]}
  /\ (forall uid, uid ∈ ({[1; 3]} : gset Z) ->
        buddy_name_from_uid (Host := plain_host) uid ∈ BuddyList.buddies r.1)
  /\ (forall n, n ∈ BuddyList.buddies r.1 ->
        listed (account := BuddyExamples.account) r.1
          (BuddyList.uid_from_buddy_name (Account := BuddyExamples.account) n)).
Proof.
  apply (update_buddies_lists_friends (H := plain_host)
           (account := BuddyExamples.account) Examples.new_info true true
           BuddyExamples.conn_data
           (object [("items", array [Examples.user 1 1; Examples.user 3 1])])
           (array [Examples.user 5 1])
           (api_result (array [object [("user_id", number 5)]]))
           {[1; 3]}).
  - apply example_uid_from_buddy_name.
  - by vm_compute.
  - by vm_compute.
  - left. by eexists.
Defined.

(** The buddy list of that example afterwards: the two friends and the
    user with the open conversation. *)
Example buddies_after_update_buddies :
  BuddyList.buddies
    (BuddyList.run (H := plain_host) (account := BuddyExamples.account) Examples.new_info
       (BuddyList.update_buddies true true BuddyExamples.conn_data).1
       [api_result (object [("items", array [Examples.user 1 1; Examples.user 3 1])]);
        api_result (array [object [("user_id", number 5)]]);
        api_result (array [Examples.user 5 1])]).1
  = {["id1"; "id3"; "id5"]}.
Proof. by vm_compute. Qed.

(** Updating the buddy list twice is updating it once: a second
    [update_buddy_list], with the infos and the friends as they are, leaves
    the buddies as the first one left them.  Buddy names are taken to be
    read back as the uid they were made from. *)
Theorem update_buddy_list_twice `{Host} {account : BuddyList.Account}
    (update_presence1 update_presence2 : bool) (s : BuddyList.VkConnData) :
  (forall uid, BuddyList.uid_from_buddy_name (buddy_name_from_uid uid) = uid) ->
  BuddyList.buddies
    (BuddyList.update_buddy_list update_presence2
       (BuddyList.update_buddy_list update_presence1 s).1).1
  = BuddyList.buddies (BuddyList.update_buddy_list update_presence1 s).1.
Proof.
  intros Hname. apply set_eq. intros n.
  rewrite (update_buddy_list_buddies update_presence2 _ n Hname).
  destruct (update_buddy_list_fields update_presence1 s) as (Hui & Hf & _).
  unfold listed at 1. rewrite Hui, Hf. fold (listed s (BuddyList.uid_from_buddy_name n)).
  rewrite (update_buddy_list_buddies update_presence1 s n Hname).
  tauto.
Qed.

(** An application: the account of the examples. *)
Lemma update_buddy_list_twice_witness :
  BuddyList.buddies
    (BuddyList.update_buddy_list (H := plain_host) (account := BuddyExamples.account)
       false
       (BuddyList.update_buddy_list (H := plain_host)
          (account := BuddyExamples.account) true BuddyExamples.conn_data).1).1
  = BuddyList.buddies
      (BuddyList.update_buddy_list (H := plain_host)
         (account := BuddyExamples.account) true BuddyExamples.conn_data).1.
Proof.
  apply (update_buddy_list_twice (H := plain_host) (account := BuddyExamples.account)
           true false BuddyExamples.conn_data).
  apply example_uid_from_buddy_name.
Defined.

(** ** Avatars and names *)

Section Avatars.
Context `{Host}.
Variable new_info : Buddy.VkUserInfo.
Import Buddy.

(** What one update writes: the entry of the uid the item names, with the
    name of the item, and with the avatar the entry had or one that is no
    placeholder. *)
Lemma on_update_user_info_written (ui : gmap Z VkUserInfo) (fields : value)
    (k : Z) (info : VkUserInfo) :
  (on_update_user_info new_info ui fields).1 !! k = Some info ->
  ui !! k = Some info
  \/ (named_uid fields = Some k
      /\ (exists first_name last_name,
            field_string fields "first_name" = Some first_name
            /\ field_string fields "last_name" = Some last_name
            /\ name info = first_name +:+ " " +:+ last_name)
      /\ (photo_min info = photo_min (default new_info (ui !! k))
          \/ no_placeholder info)).
Proof.
  unfold on_update_user_info, named_uid.
  destruct (field_double fields "id") as [id|]; [|by left].
  destruct (field_string fields "first_name") as [first_name|]; [|by left].
  destruct (field_string fields "last_name") as [last_name|]; [|by left].
  cbn [fmap option_fmap option_map].
  assert (forall (info1 : VkUserInfo) (o : outcome Z),
            name info1 = first_name +:+ " " +:+ last_name ->
            (photo_min info1 = photo_min (default new_info (ui !! to_uint64 id))
             \/ no_placeholder info1) ->
            (<[to_uint64 id := info1]> ui, o).1 !! k = Some info ->
            ui !! k = Some info
            \/ (Some (to_uint64 id) = Some k
                /\ (exists first_name0 last_name0,
                      Some first_name = Some first_name0
                      /\ Some last_name = Some last_name0
                      /\ name info = first_name0 +:+ " " +:+ last_name0)
                /\ (photo_min info = photo_min (default new_info (ui !! k))
                    \/ no_placeholder info))) as Hcase.
  { intros info1 o Hname Hphoto Hk. cbn [fst] in Hk.
    destruct (decide (k = to_uint64 id)) as [->|Hne].
    - rewrite lookup_insert_eq in Hk. injection Hk as <-. right.
      split_and!; [done|by eexists _, _|done].
    - rewrite lookup_insert_ne in Hk by done. by left. }
  destruct (field_string fields "deactivated"); [by apply Hcase; [|left]|].
  destruct (get fields "can_write_private_message") as [cw|];
    [|by apply Hcase; [|left]].
  destruct (get_double cw) as [d|]; [|by apply Hcase; [|left]].
  destruct (negb (d =? 1)); [by apply Hcase; [|left]|].
  assert (match field_string fields "photo_50" with
          | Some p =>
              if String.eqb p empty_photo_a || String.eqb p empty_photo_b
              then EmptyString else p
          | None => photo_min (default new_info (ui !! to_uint64 id))
          end = photo_min (default new_info (ui !! to_uint64 id))
          \/ (match field_string fields "photo_50" with
              | Some p =>
                  if String.eqb p empty_photo_a || String.eqb p empty_photo_b
                  then EmptyString else p
              | None => photo_min (default new_info (ui !! to_uint64 id))
              end <> empty_photo_a
              /\ match field_string fields "photo_50" with
                 | Some p =>
                     if String.eqb p empty_photo_a || String.eqb p empty_photo_b
                     then EmptyString else p
                 | None => photo_min (default new_info (ui !! to_uint64 id))
                 end <> empty_photo_b)) as Hphoto.
  { destruct (field_string fields "photo_50") as [p|]; [right|by left].
    destruct (String.eqb_spec p empty_photo_a), (String.eqb_spec p empty_photo_b);
      cbn [orb]; done. }
  destruct (get fields "last_seen") as [ls|]; [|by apply Hcase].
  destruct (get ls "time") as [t|]; [|by apply Hcase].
  destruct (get_double t) as [seen|]; by apply Hcase.
Qed.

Lemma update_items_no_placeholder (items : list value) :
  forall (ui : gmap Z VkUserInfo) (buddy_uids : gset Z),
    no_placeholder new_info ->
    (forall k info, ui !! k = Some info -> no_placeholder info) ->
    forall k info,
      (update_items new_info ui items buddy_uids).1 !! k = Some info ->
      no_placeholder info.
Proof.
  induction items as [|v items IH]; intros ui buddy_uids Hnew Hui k info;
    [by apply Hui|].
  cbn [update_items].
  destruct v as [|b|d|s|a|o]; try (by apply IH).
  pose proof (on_update_user_info_written ui (object o)) as Hw.
  assert (forall k info,
            (on_update_user_info new_info ui (object o)).1 !! k = Some info ->
            no_placeholder info) as Hui1.
  { clear k info. intros k info Hk.
    destruct (Hw k info Hk) as [Hold|(_ & _ & [Hp|Hp])]; [by eapply Hui| |done].
    unfold no_placeholder. rewrite Hp.
    destruct (ui !! k) as [info0|] eqn:Hinfo0; [by eapply Hui|done]. }
  destruct (on_update_user_info new_info ui (object o)) as [ui1 [uid1|]];
    cbn [fst] in *; [by apply IH|by apply Hui1].
Qed.

End Avatars.

(** The pictures vk.com shows for a user without a photo are never kept
    as an avatar: if no info has one of them as its avatar, and a new
    info has none, then no info has one after [on_update_user_infos],
    whatever the result holds. *)
Theorem no_placeholder_avatar `{Host} (new_info : Buddy.VkUserInfo)
    (user_infos : gmap Z Buddy.VkUserInfo) (result : value) (friends_get : bool) :
  no_placeholder new_info ->
  map_Forall (fun _ info => no_placeholder info) user_infos ->
  map_Forall (fun _ info => no_placeholder info)
    (Buddy.on_update_user_infos new_info user_infos result friends_get).1.
Proof.
  intros Hnew Hui k info. rewrite on_update_user_infos_items.
  by apply update_items_no_placeholder.
Qed.

(** The name [get_user_full_name] hands to its callback is the name
    [on_update_user_info] keeps for the same user: the first and the last
    name with a space between. *)
Theorem full_name_as_stored `{Host} (new_info : Buddy.VkUserInfo)
    (user_infos : gmap Z Buddy.VkUserInfo) (result : value) (full_name : string) :
  (Users.full_name_fetched result).2 = Some full_name ->
  exists user,
    result = array [user]
    /\ forall uid, named_uid user = Some uid ->
         Buddy.name
         <$> (Buddy.on_update_user_info new_info user_infos user).1 !! uid
         = Some full_name.
Proof.
  unfold Users.full_name_fetched.
  destruct result as [| | | |[|user [|user' users]]|]; try done.
  destruct (field_string user "first_name") as [first_name|] eqn:Hfirst; [|done].
  destruct (field_string user "last_name") as [last_name|] eqn:Hlast; [|done].
  intros [= <-]. exists user. split; [done|].
  intros uid Huid. unfold named_uid in Huid.
  unfold Buddy.on_update_user_info.
  destruct (field_double user "id") as [id|]; [|done].
  injection Huid as <-. rewrite Hfirst, Hlast.
  destruct (field_string user "deactivated");
    [cbn [fst]; by rewrite lookup_insert_eq|].
  destruct (Buddy.get user "can_write_private_message") as [cw|];
    [|cbn [fst]; by rewrite lookup_insert_eq].
  destruct (Buddy.get_double cw) as [d|]; [|cbn [fst]; by rewrite lookup_insert_eq].
  destruct (negb (d =? 1)); [cbn [fst]; by rewrite lookup_insert_eq|].
  destruct (Buddy.get user "last_seen") as [ls|];
    [|cbn [fst]; by rewrite lookup_insert_eq].
  destruct (Buddy.get ls "time") as [t|]; [|cbn [fst]; by rewrite lookup_insert_eq].
  destruct (Buddy.get_double t) as [seen|]; cbn [fst]; by rewrite lookup_insert_eq.
Qed.

(** An application: the result of users.get for the user 2. *)
Lemma full_name_as_stored_witness :
  exists user,
    array [Examples.user 2 1] = array [user]
    /\ forall uid, named_uid user = Some uid ->
         Buddy.name
         <$> (Buddy.on_update_user_info (H := plain_host) Examples.new_info ∅
                user).1 !! uid
         = Some "Ada B".
Proof.
  apply (full_name_as_stored (H := plain_host) Examples.new_info ∅
           (array [Examples.user 2 1]) "Ada B").
  reflexivity.
Defined.

(** An application of [no_placeholder_avatar]: a friend whose photo is
    one of the two pictures. *)
Lemma no_placeholder_avatar_witness :
  let user :=
    object [("id", number 4); ("first_name", str "Ada"); ("last_name", str "B");
            ("can_write_private_message", number 1);
            ("photo_50", str "http://vkontakte.ru/images/camera_a.gif");
            ("last_seen", object [("time", number 1000)])] in
  map_Forall (fun _ info => no_placeholder info)
    (Buddy.on_update_user_infos (H := plain_host) Examples.new_info ∅
       (array [user]) false).1.
Proof.
  intros user.
  apply (no_placeholder_avatar (H := plain_host) Examples.new_info ∅
           (array [user]) false).
  - by split.
  - apply map_Forall_empty.
Defined.

(** The avatar kept for that friend is empty. *)
Example placeholder_photo_cleared :
  Buddy.photo_min
  <$> (Buddy.on_update_user_infos (H := plain_host) Examples.new_info ∅
         (array [object [("id", number 4); ("first_name", str "Ada");
                         ("last_name", str "B");
                         ("can_write_private_message", number 1);
                         ("photo_50", str "http://vkontakte.ru/images/camera_a.gif");
                         ("last_seen", object [("time", number 1000)])]])
         false).1 !! 4
  = Some EmptyString.
Proof. by vm_compute. Qed.

(** ** Attachments *)

Section Attachments.
Import MessageRecv.

Lemma extends_refl (n : nat) (m : ReceivedMessage) : extends n m m.
Proof.
  split_and!; try done.
  - exists EmptyString. by rewrite string_app_nil_r.
  - exists []. split; [by rewrite app_nil_r|simpl; lia].
Qed.

Lemma extends_trans (n1 n2 : nat) (m1 m2 m3 : ReceivedMessage) :
  extends n1 m1 m2 -> extends n2 m2 m3 -> extends (n1 + n2) m1 m3.
Proof.
  intros (Hu1 & Hm1 & Ht1 & (s1 & Hs1) & (u1 & Hl1 & Hn1))
         (Hu2 & Hm2 & Ht2 & (s2 & Hs2) & (u2 & Hl2 & Hn2)).
  split_and!; try congruence.
  - exists (s1 +:+ s2). by rewrite Hs2, Hs1, string_app_assoc.
  - exists (u1 ++ u2). split; [by rewrite Hl2, Hl1, app_assoc|].
    rewrite length_app. lia.
Qed.

Lemma extends_append_text (s : string) (m : ReceivedMessage) :
  extends 0 m (append_text s m).
Proof.
  split_and!; try done; [by exists s|].
  exists []. split; [by rewrite app_nil_r|done].
Qed.

Lemma extends_push_thumbnail (url : string) (m : ReceivedMessage) :
  extends 1 m (push_thumbnail url m).
Proof.
  split_and!; try done.
  - exists EmptyString. by rewrite string_app_nil_r.
  - by exists [url].
Qed.

Lemma process_attachment_extends (type : string) (v fields : value)
    (m : ReceivedMessage) :
  extends 1 m (process_attachment type v fields m).1.
Proof.
  unfold process_attachment.
  repeat case_match; cbn [fst]; try apply extends_refl;
    repeat first
      [ apply extends_refl
      | eapply (extends_trans 0 1); [|apply extends_push_thumbnail]
      | eapply (extends_trans 0 0); [|apply extends_append_text]
      | eapply (extends_trans 0 1); [apply extends_append_text|] ].
Qed.

(** The attachments of a message only add to it: [process_attachments]
    leaves the sender, the id and the time as they are, keeps the text and
    the thumbnails that were there and appends to them, with one
    thumbnail per attachment at most. *)
Theorem attachments_only_append (items : list value) (m : ReceivedMessage) :
  extends (length items) m (process_attachments items m).1.
Proof.
  revert m. induction items as [|v items IH]; intros m; [apply extends_refl|].
  cbn [process_attachments length].
  destruct (field_string v "type") as [type|];
    [|eapply (extends_trans 0); [apply extends_refl|apply extends_refl]].
  destruct (field_object v type) as [fields|];
    [|eapply (extends_trans 0); [apply extends_refl|apply extends_refl]].
  set (m0 := if negb (empty (text m)) then append_text "<br>" m else m).
  assert (extends 0 m m0) as H0.
  { subst m0. destruct (negb _); [apply extends_append_text|apply extends_refl]. }
  pose proof (process_attachment_extends type v fields m0) as H1.
  destruct (process_attachment type v fields m0) as [m1 log1].
  pose proof (IH m1) as H2.
  destruct (process_attachments items m1) as [m2 log2]. cbn [fst] in *.
  apply (extends_trans 1 (length items) m m1 m2); [|done].
  by apply (extends_trans 0 1 m m0 m1).
Qed.

End Attachments.


(** ** Pages of the earlier receiver *)

Section LegacyPages.
Import MessageLegacy.

Lemma receive_items_well_formed (items : list value) (ms : list ReceivedMessage) :
  Forall (fun v => well_formed v = true) items ->
  receive_items items ms = (ms ++ omap legacy_message_of items, true).
Proof.
  intros Hitems. revert ms. induction Hitems as [|v items Hv _ IH]; intros ms.
  { cbn. by rewrite app_nil_r. }
  cbn [receive_items omap list_omap]. unfold legacy_message_of at 1.
  unfold well_formed in Hv.
  apply andb_true_iff in Hv as [Hv Hid]. apply andb_true_iff in Hv as [Hv Hbody].
  apply andb_true_iff in Hv as [Huser Hdate].
  apply bool_decide_eq_true in Huser as [user_id ->].
  apply bool_decide_eq_true in Hdate as [date ->].
  apply bool_decide_eq_true in Hbody as [body ->].
  apply bool_decide_eq_true in Hid as [id ->].
  by rewrite IH, <-app_assoc.
Qed.

Lemma legacy_get_pages (pages : list value) (itemss : list (list value)) :
  Forall2 legacy_page_with pages itemss ->
  forall (r : MessageReceiver) (offset : Z),
    waits r = wait_get offset ->
    let run := exec step r (api_result <$> pages) in
    (exists offset', waits run.1 = wait_get offset')
    /\ m_messages run.1 = m_messages r ++ omap legacy_message_of (concat itemss)
    /\ m_finished_cb run.1 = m_finished_cb r
    /\ Forall (fun a => quiet a = true) run.2.
Proof.
  induction 1 as [|p items pages itemss ([count Hcount] & Hitems & Hne & Hwf) _ IH];
    intros r offset Hw run; subst run.
  { cbn. rewrite app_nil_r. split_and!; eauto. }
  cbn [fmap list_fmap]. rewrite exec_cons_1, exec_cons_2.
  assert (step r (api_result p)
          = receive (with_messages r (m_messages r ++ omap legacy_message_of items))
                    (to_int (offset + Z.of_nat (length items)))) as ->.
  { unfold step. rewrite Hw, Hcount, Hitems.
    rewrite bool_decide_eq_false_2 by done.
    by rewrite receive_items_well_formed. }
  cbn [receive fst snd].
  destruct (IH {| m_messages :=
                    m_messages
                      (with_messages r (m_messages r ++ omap legacy_message_of items));
                  m_finished_cb :=
                    m_finished_cb
                      (with_messages r (m_messages r ++ omap legacy_message_of items));
                  waits := wait_get (to_int (offset + Z.of_nat (length items))) |}
              _ eq_refl) as (Hw' & Hms & Hcb & Hq).
  split_and!; [done| |done|].
  - rewrite Hms. cbn [m_messages with_messages concat].
    by rewrite omap_app, app_assoc.
  - constructor; [done|]. exact Hq.
Qed.

End LegacyPages.

(** The earlier receiver delivers all the unread messages, once each and
    in the order of their times: for pages of items that all have the four
    fields of a message, followed by a page without items, it finishes, and
    what it hands to libpurple are the messages of the items, up to their
    order, which is ascending in time. *)
Theorem legacy_unread_messages_delivered (finished_cb : bool)
    (pages : list value) (itemss : list (list value)) (last : value) :
  Forall2 legacy_page_with pages itemss ->
  last_page last ->
  let start := MessageLegacy.run finished_cb in
  let run := exec MessageLegacy.step start.1 (api_result <$> pages ++ [last]) in
  MessageLegacy.waits run.1 = MessageLegacy.deleted
  /\ deliveries (start.2 ++ run.2)
     ≡ₚ legacy_delivery <$> omap legacy_message_of (concat itemss)
  /\ ascending (delivered_times (start.2 ++ run.2)).
Proof.
  intros Hpages [[count Hcount] Hitems] start run.
  destruct (legacy_get_pages pages itemss Hpages start.1 0 eq_refl)
    as ((offset & Hw) & Hms & Hcb & Hq).
  set (r := (exec MessageLegacy.step start.1 (api_result <$> pages)).1) in *.
  assert (MessageLegacy.step r (api_result last) = MessageLegacy.finish r) as Hlast.
  { unfold MessageLegacy.step. by rewrite Hw, Hcount, Hitems. }
  assert (run = ((MessageLegacy.finish r).1,
                 (exec MessageLegacy.step start.1 (api_result <$> pages)).2
                 ++ (MessageLegacy.finish r).2)) as ->.
  { subst run. rewrite fmap_app. apply injective_projections; cbn [fst snd].
    - rewrite exec_app_1. fold r. cbn [fmap list_fmap].
      by rewrite exec_cons_1, Hlast.
    - rewrite exec_app_2. fold r. cbn [fmap list_fmap].
      rewrite exec_cons_2, Hlast. cbn [exec snd]. by rewrite app_nil_r. }
  cbn [fst snd].
  destruct (legacy_finish_calls r) as [Hdel _].
  split_and!; [done| |].
  - rewrite !deliveries_app, (quiet_deliveries _ Hq).
    cbn [app start MessageLegacy.run MessageLegacy.receive snd deliveries omap
         list_omap].
    rewrite Hdel. cbn [MessageLegacy.finish fst MessageLegacy.m_messages].
    rewrite (std_sort_Permutation MessageLegacy.timestamp), Hms. done.
  - unfold delivered_times. rewrite !deliveries_app, (quiet_deliveries _ Hq).
    cbn [app start MessageLegacy.run MessageLegacy.receive snd deliveries omap
         list_omap].
    fold (delivered_times (MessageLegacy.finish r).2).
    rewrite LegacyFacts.legacy_finish_deliveries.
    apply (std_sort_ascending MessageLegacy.timestamp).
Qed.

(** An application: a page of two messages. *)
Lemma legacy_unread_messages_delivered_witness :
  let itemss :=
    [[Examples.item 11 200 5 "a" []; Examples.item 12 100 6 "b" []]] in
  let pages := Examples.page 2 <$> itemss in
  let start := MessageLegacy.run true in
  let run :=
    exec MessageLegacy.step start.1 (api_result <$> pages ++ [Examples.page 2 []]) in
  MessageLegacy.waits run.1 = MessageLegacy.deleted
  /\ deliveries (start.2 ++ run.2)
     ≡ₚ legacy_delivery <$> omap legacy_message_of (concat itemss)
  /\ ascending (delivered_times (start.2 ++ run.2)).
Proof.
  intros itemss pages.
  apply (legacy_unread_messages_delivered true pages itemss (Examples.page 2 [])).
  - repeat constructor; try (by eexists); done.
  - split; [by eexists|done].
Defined.
